(** * texview: the texture presentation pipeline of [src/main.cpp]

    A shallow embedding of the swizzle compiler, the mip/LOD controller,
    the shader rebuild, the cubemap cross and mip-grid layouts, zoom-to-fit
    and the zoom controller, with the properties the specification states
    about them.

    Conventions of the embedding:
    - C [int], [GLint], [GLuint] and [GLenum] values are [Z]; the
      arithmetic on them is far from the limits of [int], where signed
      overflow would be undefined;
    - C [float] and [double] values are idealised as real numbers [R]
      (no rounding error, overflow, infinities or NaN); [round], [floor],
      [ceil], [fabs], [sqrt] are the mathematical functions; the one
      exception is zoom-to-fit, whose floor makes a rounding error
      visible as a whole pixel: it is embedded over IEEE 754 binary32 and
      binary64 values;
    - [char] is [ascii], [std::string] and string literals are [string];
    - the OpenGL context is an explicit state record threaded through the
      functions that issue GL calls;
    - the file-scope variables of [main.cpp] that a function reads or
      writes become arguments and results of its embedding. *)

From Stdlib Require Import ZArith List String Ascii Bool Lia.
From Stdlib Require Import Reals Lra R_Ifp.
From Stdlib Require Import SpecFloat.
From stdpp Require Import base gmap list strings.

#[local] Open Scope Z_scope.

(** ** Strings *)

Module Str.

(** The newline character of the C literals. *)
Definition nl : string := String (ascii_of_nat 10) EmptyString.

(** [AppendFormatted(str, fmt, ...)]: the text is formatted into a
    2048-byte stack buffer by [vsnprintf] (so at most 2047 characters
    survive) and appended to [str]. [formatted] is the text the format
    string expands to. *)
Definition AppendFormatted (str formatted : string) : string :=
  (str ++ String.substring 0 2047 formatted)%string.

End Str.

(** ** Swizzle model: [SetSwizzleFromSimple] (main.cpp 264-306) *)

Module Swizzle.

Import Str.

(** [simpleSwizzle[i]]: the buffer is the list of its bytes; the array is
    zero-initialised, so a byte the list does not give is NUL. *)
Definition char_at (buf : list ascii) (i : Z) : ascii :=
  nth (Z.to_nat i) buf zero.

(** [if(c >= 'A' && c <= 'Z') c += 32;] *)
Definition lower (c : ascii) : ascii :=
  let n := Z.of_N (N_of_ascii c) in
  if (65 <=? n) && (n <=? 90) then ascii_of_N (Z.to_N (n + 32)) else c.

(** What one iteration of the [switch] does. *)
Inductive action : Type :=
| SetArg (term : string)   (* [args[i] = term; break;] *)
| Terminate                (* [case '\0': i = 4; break;] *)
| Invalid.                 (* [default: errprintf(...)] *)

Definition switch (c : ascii) : action :=
  match c with
  | "0"%char => SetArg "0.0"
  | "1"%char => SetArg "1.0"
  | "r"%char | "x"%char => SetArg "c.r"
  | "g"%char | "y"%char => SetArg "c.g"
  | "b"%char | "z"%char => SetArg "c.b"
  | "a"%char | "w"%char => SetArg "c.a"
  | "000"%char => Terminate
  | _ => Invalid
  end.

(** State of the [for] loop: the [args] array and the warnings written
    to stderr. *)
Record loop_state := LoopState {
  args : list string;
  warnings : list string
}.

Definition invalid_msg (c : ascii) : string :=
  ("Invalid character '" ++ String c "' in swizzle!" ++ nl)%string.

(** [for(int i=0; i<4; ++i) { ... }]; [fuel] bounds the iterations. *)
Fixpoint loop (fuel : nat) (buf : list ascii) (i : Z) (st : loop_state)
  : loop_state :=
  match fuel with
  | O => st
  | S fuel' =>
      if i <? 4 then
        let c := lower (char_at buf i) in
        match switch c with
        | SetArg term =>
            loop fuel' buf (i + 1)
                 (LoopState (<[Z.to_nat i := term]> (args st)) (warnings st))
        | Terminate =>
            (* [i = 4], then the loop's [++i] *)
            loop fuel' buf (4 + 1) st
        | Invalid =>
            loop fuel' buf (i + 1)
                 (LoopState (args st)
                            (warnings st ++ [invalid_msg (char_at buf i)]))
        end
      else st
  end.

Definition initial_args : list string := ["0.0"; "0.0"; "0.0"; "1.0"]%string.

Definition arg (l : list string) (k : nat) : string := nth k l EmptyString.

(** The text of ["c = vec4(%s, %s, %s, %s);\n"]. *)
Definition format_vec4 (l : list string) : string :=
  ("c = vec4(" ++ arg l 0 ++ ", " ++ arg l 1 ++ ", " ++ arg l 2 ++ ", "
     ++ arg l 3 ++ ");" ++ nl)%string.

(** [SetSwizzleFromSimple()]: reads [simpleSwizzle], returns the new
    value of [swizzle] and what was printed to stderr. *)
Definition SetSwizzleFromSimple (simpleSwizzle : list ascii)
  : string * list string :=
  let st := loop 4 simpleSwizzle 0 (LoopState initial_args []) in
  (AppendFormatted EmptyString (format_vec4 (args st)), warnings st).

(** *** The mapping as the specification words it *)

(** The selector table, both letter cases written out. *)
Definition selector_term (c : ascii) : option string :=
  if existsb (Ascii.eqb c) ["r"; "R"; "x"; "X"]%char then Some "c.r"%string
  else if existsb (Ascii.eqb c) ["g"; "G"; "y"; "Y"]%char then Some "c.g"%string
  else if existsb (Ascii.eqb c) ["b"; "B"; "z"; "Z"]%char then Some "c.b"%string
  else if existsb (Ascii.eqb c) ["a"; "A"; "w"; "W"]%char then Some "c.a"%string
  else if Ascii.eqb c "0" then Some "0.0"%string
  else if Ascii.eqb c "1" then Some "1.0"%string
  else None.

(** Positional default of channel [k]. *)
Definition positional_default (k : nat) : string :=
  if Nat.eqb k 3 then "1.0"%string else "0.0"%string.

(** Channel [k] is terminated when a NUL stands at [k] or before it. *)
Fixpoint terminated (buf : list ascii) (k : nat) : bool :=
  match k with
  | O => Ascii.eqb (nth 0 buf zero) zero
  | S k' => terminated buf k' || Ascii.eqb (nth k buf zero) zero
  end.

Definition channel (buf : list ascii) (k : nat) : string :=
  if terminated buf k then positional_default k
  else match selector_term (nth k buf zero) with
       | Some t => t
       | None => positional_default k
       end.

Definition statement (buf : list ascii) : string :=
  ("c = vec4(" ++ channel buf 0 ++ ", " ++ channel buf 1 ++ ", "
     ++ channel buf 2 ++ ", " ++ channel buf 3 ++ ");" ++ nl)%string.

End Swizzle.

(** ** The OpenGL context *)

Module GL.

Definition GLuint := Z.
Definition GLint := Z.
Definition GLenum := Z.

Definition GL_TEXTURE_BASE_LEVEL : GLenum := 33084. (* 0x813C *)
Definition GL_TEXTURE_MAX_LEVEL : GLenum := 33085.  (* 0x813D *)
Definition GL_FRAGMENT_SHADER : GLenum := 35632.    (* 0x8B30 *)
Definition GL_VERTEX_SHADER : GLenum := 35633.      (* 0x8B31 *)
Definition GL_BLEND : GLenum := 3042.               (* 0x0BE2 *)
Definition GL_FRAMEBUFFER_SRGB : GLenum := 36281.   (* 0x8DB9 *)

(** A texture coordinate ([struct vec4] of main.cpp, [float vals[4]]). *)
Record vec4 := Vec4 { vx : R; vy : R; vz : R; vw : R }.

(** One vertex of a [glBegin(GL_QUADS)] block: the texture coordinate
    current at [glVertex2f] and the position. *)
Record vertex := Vertex { v_tex : vec4; v_x : R; v_y : R }.

(** A program object: its attached shaders. *)
Record program_obj := ProgramObj { attached : list GLuint }.

Record state := State {
  (** texture object bound to each target ([glBindTexture]) *)
  bound : gmap GLenum GLuint;
  (** integer parameters of the texture objects ([glTexParameteri]) *)
  texparams : gmap (GLuint * GLenum) GLint;
  (** live shader objects with their source strings *)
  shaders : gmap GLuint (list string);
  (** live program objects *)
  programs : gmap GLuint program_obj;
  (** [glUseProgram] *)
  current_program : GLuint;
  (** the next object name the context hands out *)
  next_name : GLuint;
  (** the quads drawn so far, oldest first *)
  quads : list (list vertex);
  (** capabilities switched by [glEnable] / [glDisable] *)
  enabled : gmap GLenum bool
}.

(** The driver: which sources compile, which programs link, and whether
    a program object can be allocated. *)
Record driver := Driver {
  compiles : GLenum -> list string -> bool;
  compile_log : GLenum -> list string -> string;
  program_available : bool;
  links : list (list string) -> bool;
  link_log : list (list string) -> string
}.

Definition set_bound (f : gmap GLenum GLuint -> gmap GLenum GLuint)
  (s : state) : state :=
  State (f (bound s)) (texparams s) (shaders s) (programs s)
        (current_program s) (next_name s) (quads s) (enabled s).

Definition set_texparams
  (f : gmap (GLuint * GLenum) GLint -> gmap (GLuint * GLenum) GLint)
  (s : state) : state :=
  State (bound s) (f (texparams s)) (shaders s) (programs s)
        (current_program s) (next_name s) (quads s) (enabled s).

Definition set_shaders
  (f : gmap GLuint (list string) -> gmap GLuint (list string))
  (s : state) : state :=
  State (bound s) (texparams s) (f (shaders s)) (programs s)
        (current_program s) (next_name s) (quads s) (enabled s).

Definition set_programs
  (f : gmap GLuint program_obj -> gmap GLuint program_obj)
  (s : state) : state :=
  State (bound s) (texparams s) (shaders s) (f (programs s))
        (current_program s) (next_name s) (quads s) (enabled s).

Definition set_current_program (p : GLuint) (s : state) : state :=
  State (bound s) (texparams s) (shaders s) (programs s)
        p (next_name s) (quads s) (enabled s).

Definition bump_name (s : state) : state :=
  State (bound s) (texparams s) (shaders s) (programs s)
        (current_program s) (next_name s + 1) (quads s) (enabled s).

Definition add_quad (q : list vertex) (s : state) : state :=
  State (bound s) (texparams s) (shaders s) (programs s)
        (current_program s) (next_name s) (quads s ++ [q]) (enabled s).

(** A fresh context: nothing bound, no objects, names start at 1. *)
Definition initial : state := State ∅ ∅ ∅ ∅ 0 1 [] ∅.

(** The texture object bound to [target] (the default object 0 when
    nothing was bound). *)
Definition bound_to (s : state) (target : GLenum) : GLuint :=
  default 0 (bound s !! target).

Definition glBindTexture (target : GLenum) (tex : GLuint) : state -> state :=
  set_bound (insert target tex).

(** [glTexParameteri] acts on the texture bound to [target]. *)
Definition glTexParameteri (target pname : GLenum) (v : GLint)
  (s : state) : state :=
  set_texparams (insert (bound_to s target, pname) v) s.

Definition glCreateShader (s : state) : GLuint * state :=
  (next_name s, bump_name (set_shaders (insert (next_name s) []) s)).

Definition glShaderSource (shader : GLuint) (src : list string)
  : state -> state :=
  set_shaders (insert shader src).

Definition glDeleteShader (shader : GLuint) : state -> state :=
  set_shaders (delete shader).

(** [glCreateProgram] returns 0 when no program object can be made. *)
Definition glCreateProgram (d : driver) (s : state) : GLuint * state :=
  if program_available d
  then (next_name s,
        bump_name (set_programs (insert (next_name s) (ProgramObj [])) s))
  else (0, s).

Definition glAttachShader (prog shader : GLuint) : state -> state :=
  set_programs (alter (fun p => ProgramObj (attached p ++ [shader])) prog).

Definition glDetachShader (prog shader : GLuint) : state -> state :=
  set_programs
    (alter (fun p => ProgramObj
                       (List.filter (fun x => negb (x =? shader)) (attached p)))
           prog).

Definition glDeleteProgram (prog : GLuint) : state -> state :=
  set_programs (delete prog).

Definition glUseProgram : GLuint -> state -> state := set_current_program.

Definition set_enabled (cap : GLenum) (b : bool) (s : state) : state :=
  State (bound s) (texparams s) (shaders s) (programs s)
        (current_program s) (next_name s) (quads s) (<[cap := b]> (enabled s)).

Definition glEnable (cap : GLenum) : state -> state := set_enabled cap true.
Definition glDisable (cap : GLenum) : state -> state := set_enabled cap false.

(** [glBegin(GL_QUADS)] ... [glEnd()] around four texcoord/vertex pairs. *)
Definition draw_quad (v0 v1 v2 v3 : vertex) : state -> state :=
  add_quad [v0; v1; v2; v3].

(** [glTexCoord3f(s, t, r)] sets the current coordinate to (s, t, r, 1). *)
Definition texcoord3 (s t r : R) : vec4 := Vec4 s t r 1.

(** Sources of the shaders attached to [prog]. *)
Definition attached_sources (s : state) (prog : GLuint) : list (list string) :=
  match programs s !! prog with
  | Some p => List.map (fun sh => default [] (shaders s !! sh)) (attached p)
  | None => []
  end.

End GL.

(** ** Viewer state *)

Module Viewer.

Import GL.

(** Modelled from the spec: [texview::Texture] is declared in
    [texview.h], which is not among the sources; the record holds what
    [main.cpp] reads from a texture resource: the GPU handle and target,
    the mip count ([GetNumMips]), the pixel size of each mip level
    ([GetMipSize]; [GetSize] is the size of level 0), whether it is a
    cubemap or an array ([IsCubemap], [IsArray]), for integer formats the
    normalisation divisor and signedness ([GetIntTexInfo], [None] for the
    null pointer), and the two bits of [textureFlags] that are tested. *)
Record Texture := MkTexture {
  glTextureHandle : GLuint;
  glTarget : GLenum;
  GetNumMips : Z;
  GetMipSize : Z -> R * R;
  IsCubemap : bool;
  IsArray : bool;
  GetIntTexInfo : option (string * bool);
  hasAlpha : bool;   (* [textureFlags & TF_HAS_ALPHA] *)
  isSRGB : bool      (* [textureFlags & TF_SRGB] *)
}.

Definition GetSize (t : Texture) : R * R := GetMipSize t 0.

(** A 2D float texture of 256 x 256 pixels with the given handle and mip
    count, each level half the size of the one before. *)
Definition sample_texture (handle : GLuint) (mips : Z) : Texture :=
  MkTexture handle 3553 (* GL_TEXTURE_2D *) mips
            (fun i => (256 / 2 ^ Z.to_nat i, 256 / 2 ^ Z.to_nat i)%R)
            false false None true false.

(** A 2D float texture all of whose [mips] levels report the size
    [w] x [h] (only the size of level 0 matters to the same-size views). *)
Definition uniform_texture (handle : GLuint) (mips : Z) (w h : R) : Texture :=
  MkTexture handle 3553 (* GL_TEXTURE_2D *) mips (fun _ => (w, h))
            false false None true false.

(** A cubemap with faces of 100 x 100 pixels and one mip level. *)
Definition sample_cubemap (handle : GLuint) : Texture :=
  MkTexture handle 34067 (* GL_TEXTURE_CUBE_MAP *) 1
            (fun _ => (100, 100)%R) true false None false false.

Inductive ViewMode : Set :=
| SINGLE | MIPMAPS_COMPACT | MIPMAPS_ROW | MIPMAPS_COLUMN | TILED.

(** The file-scope variables the embedded functions only read. *)
Record settings := Settings {
  curTex : Texture;
  mipmapLevel : Z;          (* -1: auto, otherwise enforce that level *)
  cubeCrossVariant : Z;     (* 0-3 *)
  textureArrayIndex : Z;
  simpleSwizzle : list ascii;
  useSimpleSwizzle : bool;
  viewMode : ViewMode;
  viewAtSameSize : bool;
  spacingBetweenMips : Z;
  numTiles : Z * Z;
  imGuiMenuWidth : R;
  overrideSRGB : Z;   (* -1: auto, 0: force disable, 1: force enable *)
  overrideAlpha : Z   (* -1: auto, 0: force disable, 1: force enable *)
}.

(** The initial values of those variables (main.cpp 45-77) with a texture
    and a swizzle shorthand. *)
Definition initial_settings (tex : Texture) (swz : string) : settings :=
  Settings tex (-1) 0 0 (list_ascii_of_string swz) true SINGLE true 2 (2, 2) 0
           (-1) (-1).

(** The settings after loading a cubemap (spacing 0) with the cross
    variant slider at [variant]. *)
Definition cross_settings (tex : Texture) (variant : Z) : settings :=
  Settings tex (-1) variant 0 (list_ascii_of_string "rgb1") true SINGLE true 0
           (2, 2) 0 (-1) (-1).

(** The settings for the compact mip grid at the same size. *)
Definition compact_settings (tex : Texture) (spacing : Z) : settings :=
  Settings tex (-1) 0 0 (list_ascii_of_string "rgba") true MIPMAPS_COMPACT true
           spacing (2, 2) 0 (-1) (-1).

(** The file-scope variables they write, the GL context and stderr. *)
Record world := World {
  gl : GL.state;
  stderr : list string;
  shaderProgram : GLuint;
  texSampleAndNormalize : string;
  swizzle : string;
  zoomLevel : R;
  transX : R;
  transY : R
}.

Definition set_gl (f : GL.state -> GL.state) (w : world) : world :=
  World (f (gl w)) (stderr w) (shaderProgram w) (texSampleAndNormalize w)
        (swizzle w) (zoomLevel w) (transX w) (transY w).

Definition set_stderr (f : list string -> list string) (w : world) : world :=
  World (gl w) (f (stderr w)) (shaderProgram w) (texSampleAndNormalize w)
        (swizzle w) (zoomLevel w) (transX w) (transY w).

Definition set_shaderProgram (p : GLuint) (w : world) : world :=
  World (gl w) (stderr w) p (texSampleAndNormalize w)
        (swizzle w) (zoomLevel w) (transX w) (transY w).

Definition set_texSampleAndNormalize (t : string) (w : world) : world :=
  World (gl w) (stderr w) (shaderProgram w) t
        (swizzle w) (zoomLevel w) (transX w) (transY w).

Definition set_swizzle (t : string) (w : world) : world :=
  World (gl w) (stderr w) (shaderProgram w) (texSampleAndNormalize w)
        t (zoomLevel w) (transX w) (transY w).

Definition set_zoom (z x y : R) (w : world) : world :=
  World (gl w) (stderr w) (shaderProgram w) (texSampleAndNormalize w)
        (swizzle w) z x y.

(** The initial values of those variables (main.cpp 39-62), over a
    fresh GL context. *)
Definition initial_world : world :=
  World GL.initial [] 0 EmptyString EmptyString 1 10 10.

(** *** The state monad of the viewer *)

Definition M (A : Type) : Type := world -> A * world.

#[export] Instance M_ret : MRet M := fun A (a : A) w => (a, w).
#[export] Instance M_bind : MBind M :=
  fun A B (k : A -> M B) (c : M A) w => let '(a, w') := c w in k a w'.

Definition get : M world := fun w => (w, w).
Definition modify (f : world -> world) : M unit := fun w => (tt, f w).

(** A GL call without result, and one with a result. *)
Definition gl_do (f : GL.state -> GL.state) : M unit := modify (set_gl f).
Definition gl_call {A : Type} (f : GL.state -> A * GL.state) : M A :=
  fun w => let '(a, s) := f (gl w) in (a, set_gl (fun _ => s) w).

Definition errprintf (msg : string) : M unit :=
  modify (set_stderr (fun l => l ++ [msg])).

Definition when (b : bool) (c : M unit) : M unit :=
  if b then c else mret tt.

Definition run {A : Type} (c : M A) (w : world) : world := snd (c w).
Definition result {A : Type} (c : M A) (w : world) : A := fst (c w).

End Viewer.

(** ** Mip/LOD controller: [SetMipmapLevel] (main.cpp 405-426) *)

Module Mip.

Import GL Viewer.

Definition SetMipmapLevel (texture : Texture) (mipLevel : GLint)
  (bindTexture : bool) : M unit :=
  let tex := glTextureHandle texture in
  let numMips := GetNumMips texture in
  if (tex =? 0) || (numMips =? 1) then mret tt
  else
    when bindTexture (gl_do (glBindTexture (glTarget texture) tex));;
    let mipLevel := Z.min mipLevel (numMips - 1) in
    (* setting both to the same level enforces using that level *)
    let '(baseLevel, maxLevel) :=
      if mipLevel <? 0 then (0, numMips - 1) (* auto mode *)
      else (mipLevel, mipLevel) in
    gl_do (glTexParameteri (glTarget texture) GL_TEXTURE_BASE_LEVEL baseLevel);;
    gl_do (glTexParameteri (glTarget texture) GL_TEXTURE_MAX_LEVEL maxLevel).

(** The level pair a texture is left with. *)
Definition levels (s : GL.state) (tex : GLuint) : option GLint * option GLint :=
  (texparams s !! (tex, GL_TEXTURE_BASE_LEVEL),
   texparams s !! (tex, GL_TEXTURE_MAX_LEVEL)).

(** Clamping as the specification words it: into [[0, numMips-1]]. *)
Definition clamp_level (level numMips : Z) : Z :=
  Z.max 0 (Z.min level (numMips - 1)).

End Mip.

(** ** Shader synthesizer: [CompileShader], [CreateShaderProgram],
    [UpdateShaders] (main.cpp 126-401) *)

Module Shader.

Import Str GL Viewer.

Definition vertexShaderSrc : string := "
out vec4 texCoord;
// TODO: a way to pass cube face num or array slice num? or is texCoord.z(?) stable enough?
void main()
{
	gl_Position = gl_ModelViewProjectionMatrix * gl_Vertex;
	texCoord = gl_MultiTexCoord0;
}
".

Definition fragShaderStart : string := "
in vec4 texCoord;
out vec4 OutColor;
void main()
{
".

Definition fragShaderEnd : string := "
 OutColor = c;
}
".

(** [snprintf(buf, size, ...)]: at most [size - 1] characters are kept. *)
Definition snprintf (size : nat) (formatted : string) : string :=
  String.substring 0 (size - 1) formatted.

Definition shaderTypeStr (shaderType : GLenum) : string :=
  if shaderType =? GL_VERTEX_SHADER then "Vertex"
  else if shaderType =? GL_FRAGMENT_SHADER then "Fragment"
  else "".

(** [for(const char* part : shaderSources) errprintf("%s", part);] *)
Definition print_parts (shaderSources : list string) : M unit :=
  foldr (fun part k => errprintf part;; k) (mret tt) shaderSources.

(** [CompileShader(shaderType, shaderSources)]: the new shader object, or
    0 after reporting the compiler's diagnostic and deleting the object. *)
Definition CompileShader (d : driver) (shaderType : GLenum)
  (shaderSources : list string) : M GLuint :=
  shader ← gl_call glCreateShader;
  gl_do (glShaderSource shader shaderSources);;
  if negb (compiles d shaderType shaderSources) then
    errprintf ("ERROR: Compiling " ++ shaderTypeStr shaderType
               ++ " Shader failed: " ++ compile_log d shaderType shaderSources
               ++ nl);;
    errprintf ("Source BEGIN" ++ nl);;
    print_parts shaderSources;;
    errprintf (nl ++ "Source END" ++ nl);;
    gl_do (glDeleteShader shader);;
    mret 0
  else mret shader.

(** [CreateShaderProgram(shaders)]: the linked program, or 0. *)
Definition CreateShaderProgram (d : driver) (shaders0 shaders1 : GLuint)
  : M GLuint :=
  prog ← gl_call (glCreateProgram d);
  if prog =? 0 then
    errprintf ("ERROR: Couldn't create a new Shader Program!" ++ nl);;
    mret 0
  else
    gl_do (glAttachShader prog shaders0);;
    gl_do (glAttachShader prog shaders1);;
    w ← get;
    let sources := attached_sources (gl w) prog in
    if negb (links d sources) then
      errprintf ("ERROR: Linking shader program failed: " ++ link_log d sources
                 ++ nl);;
      gl_do (glDeleteProgram prog);;
      gl_do (glDetachShader prog shaders0);;
      gl_do (glDetachShader prog shaders1);;
      mret 0
    else mret prog.

(** The sampler declaration, the sample-and-normalize statement and the
    version directive [UpdateShaders] derives from the texture traits. *)
Record shader_text := ShaderText {
  glslVersion : string;
  samplerUniform : string;
  sampleAndNormalize : string
}.

Definition texture_shader_text (tex : Texture) : shader_text :=
  let glslVersion := ("#version 150 compatibility" ++ nl)%string in
  let samplerBaseType := if IsCubemap tex then "samplerCube" else "sampler2D" in
  let numTexCoords := if IsCubemap tex then 3%nat else 2%nat in
  let typePrefix :=
    match GetIntTexInfo tex with
    | Some (_, isUnsigned) => if isUnsigned then "u" else "i"
    | None => ""
    end in
  let glslVersion :=
    if IsCubemap tex && IsArray tex
    then (glslVersion ++ "#extension GL_ARB_texture_cube_map_array : enable"
            ++ nl)%string
    else glslVersion in
  let typePostfix := if IsArray tex then "Array" else "" in
  let numTexCoords := if IsArray tex then S numTexCoords else numTexCoords in
  let coords := String.substring 0 numTexCoords "stpq" in
  ShaderText
    glslVersion
    (snprintf 48 ("uniform " ++ typePrefix ++ samplerBaseType ++ typePostfix
                  ++ " tex0;" ++ nl))
    (match GetIntTexInfo tex with
     | Some (normDiv, _) =>
         AppendFormatted
           (AppendFormatted EmptyString
              (" " ++ typePrefix ++ "vec4 v = texture( tex0, texCoord."
                 ++ coords ++ " );" ++ nl))
           (" vec4 c = vec4(v) / " ++ normDiv ++ ";" ++ nl)
     | None =>
         AppendFormatted EmptyString
           (" vec4 c = texture( tex0, texCoord." ++ coords ++ " );" ++ nl)
     end).

(** [UpdateShaders()] *)
Definition UpdateShaders (d : driver) (cfg : settings) : M bool :=
  let txt := texture_shader_text (curTex cfg) in
  shaders0 ← CompileShader d GL_VERTEX_SHADER
               [("#version 150 compatibility" ++ nl)%string; vertexShaderSrc];
  if shaders0 =? 0 then mret false
  else
    modify (set_texSampleAndNormalize (sampleAndNormalize txt));;
    when (useSimpleSwizzle cfg)
      (let '(text, warnings) :=
         Swizzle.SetSwizzleFromSimple (simpleSwizzle cfg) in
       modify (set_swizzle text);;
       modify (set_stderr (fun l => l ++ warnings)));;
    w ← get;
    shaders1 ← CompileShader d GL_FRAGMENT_SHADER
                 [glslVersion txt; samplerUniform txt; fragShaderStart;
                  texSampleAndNormalize w; swizzle w; fragShaderEnd];
    if shaders1 =? 0 then
      gl_do (glDeleteShader shaders0);;
      mret false
    else
      prog ← CreateShaderProgram d shaders0 shaders1;
      (* The shaders aren't needed anymore once they're linked *)
      gl_do (glDeleteShader shaders0);;
      gl_do (glDeleteShader shaders1);;
      if prog =? 0 then mret false
      else
        w ← get;
        (* if we already had one and want to replace it *)
        when (negb (shaderProgram w =? 0))
          (gl_do (glDeleteProgram (shaderProgram w)));;
        modify (set_shaderProgram prog);;
        gl_do (glUseProgram prog);;
        mret true.

(** The three driver verdicts an [UpdateShaders] call meets. *)
Definition vertex_ok (d : driver) : bool :=
  compiles d GL_VERTEX_SHADER
    [("#version 150 compatibility" ++ nl)%string; vertexShaderSrc].

Definition fragment_source (cfg : settings) (w : world) : list string :=
  let txt := texture_shader_text (curTex cfg) in
  [glslVersion txt; samplerUniform txt; fragShaderStart;
   sampleAndNormalize txt;
   if useSimpleSwizzle cfg
   then fst (Swizzle.SetSwizzleFromSimple (simpleSwizzle cfg))
   else swizzle w;
   fragShaderEnd].

Definition fragment_ok (d : driver) (cfg : settings) (w : world) : bool :=
  compiles d GL_FRAGMENT_SHADER (fragment_source cfg w).

Definition link_ok (d : driver) (cfg : settings) (w : world) : bool :=
  program_available d &&
  links d [[("#version 150 compatibility" ++ nl)%string; vertexShaderSrc];
           fragment_source cfg w].

(** Object names are positive and those handed out so far lie below the
    context's counter. *)
Definition names_fresh (w : world) : Prop :=
  0 < next_name (gl w) /\
  shaderProgram w < next_name (gl w) /\
  (forall p, is_Some (programs (gl w) !! p) -> 0 < p < next_name (gl w)).

Definition program_live (w : world) (p : GLuint) : Prop :=
  is_Some (programs (gl w) !! p).

(** Two drivers to run the rebuild on: one accepts every shader, one
    rejects every fragment shader. *)
Definition accepting_driver : driver :=
  Driver (fun _ _ => true) (fun _ _ => EmptyString) true
         (fun _ => true) (fun _ => EmptyString).

Definition fragment_rejecting_driver : driver :=
  Driver (fun ty _ => ty =? GL_VERTEX_SHADER) (fun _ _ => "syntax error"%string)
         true (fun _ => true) (fun _ => EmptyString).

(** A world that differs only in its GL context and its stderr. *)
Definition with_gl (s : GL.state) (log : list string) (w : world) : world :=
  World s (stderr w ++ log) (shaderProgram w) (texSampleAndNormalize w)
        (swizzle w) (zoomLevel w) (transX w) (transY w).

(** A context after one more object name was handed out, with the given
    shader objects, or the given program objects. *)
Definition with_shaders (sh : gmap GLuint (list string)) (s : GL.state)
  : GL.state :=
  State (bound s) (texparams s) sh (programs s) (current_program s)
        (next_name s + 1) (quads s) (enabled s).

Definition with_programs (pr : gmap GLuint program_obj) (s : GL.state)
  : GL.state :=
  State (bound s) (texparams s) (shaders s) pr (current_program s)
        (next_name s + 1) (quads s) (enabled s).

End Shader.

(** ** C math functions on the idealised reals *)

Module CMath.

#[local] Open Scope R_scope.

(** [floor(x)] *)
Definition floor (x : R) : R := IZR (Int_part x).

(** [ceil(x)] *)
Definition ceil (x : R) : R := - IZR (Int_part (- x)).

(** [round(x)]: to the nearest integer, halfway cases away from zero. *)
Definition round (x : R) : R :=
  if Rle_dec 0 x then IZR (Int_part (x + / 2))
  else - IZR (Int_part (- x + / 2)).

(** [fabs(x)] *)
Definition fabs (x : R) : R := Rabs x.

(** [std::min(a, b)]: [(b < a) ? b : a]. *)
Definition min (a b : R) : R := if Rlt_dec b a then b else a.

(** [std::max(a, b)]: [(a < b) ? b : a]. *)
Definition max (a b : R) : R := if Rlt_dec a b then b else a.

End CMath.

(** ** Zoom controller: [CalcZoomLevel] (main.cpp 1212-1246) *)

Module Zoom.

Import CMath.

#[local] Open Scope R_scope.

(** The first [if]/[else] of [CalcZoomLevel]: the step. *)
Definition zoom_step (zl : R) (increase : bool) : R :=
  if increase then
    if Rge_dec zl 2.0 then zl + 0.5
    else if Rge_dec zl 1.0 then zl + 0.25
    else if Rge_dec zl 0.125 then zl + 0.125
    else zl * sqrt 2.0
  else
    if Rle_dec zl 0.125 then zl * (1.0 / sqrt 2.0)
    else if Rle_dec zl 1.0 then zl - 0.125
    else if Rle_dec zl 2.0 then zl - 0.25
    else zl - 0.5.

(** The second part: snapping to a nice value. *)
Definition zoom_snap (zl : R) : R :=
  if Rge_dec zl 1.0 then
    let nearestHalf := round (zl * 2.0) * 0.5 in
    if Rle_dec (fabs (nearestHalf - zl)) (min 0.25 (0.1 * zl))
    then nearestHalf else zl
  else if Rgt_dec zl 0.25 then
    let nearestEighth := round (zl * 8.0) * 0.125 in
    if Rle_dec (fabs (nearestEighth - zl)) 0.05
    then nearestEighth else zl
  else zl.

Definition CalcZoomLevel (zl : R) (increase : bool) : R :=
  zoom_snap (zoom_step zl increase).

(** [myGLFWscrollfun] applied to a sequence of scroll ticks ([true] for
    [yoffset > 0]). *)
Definition scroll (ticks : list bool) (zl : R) : R :=
  fold_left CalcZoomLevel ticks zl.

(** The step as the specification words it: one set of range boundaries
    for both directions. *)
Definition spec_step (zl : R) (increase : bool) : R :=
  let sign := if increase then 1 else -1 in
  if Rge_dec zl 2.0 then zl + sign * 0.5
  else if Rge_dec zl 1.0 then zl + sign * 0.25
  else if Rge_dec zl 0.125 then zl + sign * 0.125
  else if increase then zl * sqrt 2 else zl / sqrt 2.

End Zoom.

(** ** IEEE 754 arithmetic for zoom-to-fit *)

Module IEEE.

(** [float] is binary32 (24 bits of precision, exponents below 128),
    [double] is binary64 (53 bits, exponents below 1024); every operation
    rounds to nearest, ties to even, and an expression is evaluated in
    the type the usual arithmetic conversions give it. *)
Definition float := spec_float.
Definition double := spec_float.

(** Conversion of an [int]. *)
Definition float_of_int (n : Z) : float := binary_normalize 24 128 n 0 false.
Definition double_of_int (n : Z) : double := binary_normalize 53 1024 n 0 false.

(** Conversion of a [float] to [double]: the same value, with the
    mantissa widened. *)
Definition double_of_float (x : float) : double :=
  match x with
  | S754_finite s m e => binary_round 53 1024 s m e
  | _ => x
  end.

Definition fmul : float -> float -> float := SFmul 24 128.
Definition fsub : float -> float -> float := SFsub 24 128.
Definition fdiv : float -> float -> float := SFdiv 24 128.
Definition dmul : double -> double -> double := SFmul 53 1024.
Definition dsub : double -> double -> double := SFsub 53 1024.
Definition ddiv : double -> double -> double := SFdiv 53 1024.
Definition dlt : double -> double -> bool := SFltb.

Definition fzero : float := S754_zero false.
Definition dzero : double := S754_zero false.

(** The literal [0.5]. *)
Definition dhalf : double := S754_finite false 4503599627370496 (-53).

(** [floor(x)] on a [double]. *)
Definition floor (x : double) : double :=
  match x with
  | S754_finite s m e =>
      if 0 <=? e then x
      else
        match cond_Zopp s (Zpos m) / 2 ^ (- e) with
        | Z0 => S754_zero s
        | n => double_of_int n
        end
  | _ => x
  end.

(** The real number a finite value stands for. *)
Definition to_R (x : spec_float) : R :=
  match x with
  | S754_finite s m e =>
      if 0 <=? e then IZR (cond_Zopp s (Zpos m) * 2 ^ e)
      else (IZR (cond_Zopp s (Zpos m)) / IZR (2 ^ (- e)))%R
  | _ => 0%R
  end.

(** [x] stands for the fraction [n / d]. *)
Definition is_ratio (x : spec_float) (n d : Z) : bool :=
  match x with
  | S754_finite s m e =>
      if 0 <=? e then cond_Zopp s (Zpos m) * 2 ^ e * d =? n
      else cond_Zopp s (Zpos m) * d =? n * 2 ^ (- e)
  | S754_zero _ => n =? 0
  | _ => false
  end.

End IEEE.

(** ** Zoom-to-fit: [ZoomFitToWindow] (main.cpp 103-124) *)

Module Fit.

Import CMath IEEE Viewer.

(** [display_w], [display_h] are what [glfwGetFramebufferSize] returns;
    [imGuiMenuWidth], [tw], [th] are [float]s; the result is the new
    [zoomLevel], [transX], [transY], which are [double]s. *)
Definition ZoomFitToWindow (display_w display_h : Z) (imGuiMenuWidth : float)
  (tw th : float) (isCube : bool) : double * double * double :=
  (* shown as cross lying on the side => 4 wide, 3 high *)
  let tw := if isCube then fmul tw (float_of_int 4) else tw in
  let th := if isCube then fmul th (float_of_int 3) else th in
  let winW := double_of_float (fsub (float_of_int display_w) imGuiMenuWidth) in
  let zw := ddiv winW (double_of_float tw) in
  let zh := double_of_float (fdiv (float_of_int display_h) th) in
  if dlt zw zh then
    (zw, double_of_int 0,
     floor (dmul dhalf (dsub (ddiv (double_of_int display_h) zw)
                             (double_of_float th))))
  else
    (zh,
     if isCube then dzero
     else floor (dmul dhalf (dsub (ddiv winW zh) (double_of_float tw))),
     double_of_int 0).

(** The call as a step of the viewer. *)
Definition ZoomFitToWindow_run (display_w display_h : Z)
  (imGuiMenuWidth tw th : float) (isCube : bool) : M unit :=
  let '(z, x, y) :=
    ZoomFitToWindow display_w display_h imGuiMenuWidth tw th isCube in
  modify (set_zoom (to_R z) (to_R x) (to_R y)).

(** The pan that centres, as the specification words it: the floor of
    half the slack, the slack being what the window, [extent] pixels,
    has left over beside the texture, [size] texels shown at [zoom]. *)
Definition centred_pan (extent zoom size : R) : R :=
  CMath.floor (0.5 * (extent - zoom * size))%R.

End Fit.

(** ** View layout engine: [DrawQuad], [DrawCubeQuad], [DrawTexture]
    (main.cpp 522-808) *)

Module Layout.

Import CMath GL Viewer Mip.

#[local] Open Scope R_scope.

Inductive CubeFaceIndex : Set :=
| FI_XPOS | FI_XNEG | FI_YPOS | FI_YNEG | FI_ZPOS | FI_ZNEG.

(** The enumerators' values. *)
Definition face_id (f : CubeFaceIndex) : Z :=
  match f with
  | FI_XPOS => 0 | FI_XNEG => 1 | FI_YPOS => 2
  | FI_YNEG => 3 | FI_ZPOS => 4 | FI_ZNEG => 5
  end%Z.

#[export] Instance CubeFaceIndex_eq_dec : EqDecision CubeFaceIndex.
Proof. solve_decision. Defined.

(** [DrawQuad]: [mipLevel] -1 means the configured [mipmapLevel]. *)
Definition DrawQuad (cfg : settings) (texture : Texture) (mipLevel : Z)
  (arrayIndex : Z) (pos size texCoordMax : R * R) : M unit :=
  let texCoordMin : R * R := (0, 0) in
  let tex := glTextureHandle texture in
  if negb (tex =? 0)%Z then
    gl_do (glBindTexture (glTarget texture) tex);;
    SetMipmapLevel texture
      (if (mipLevel <? 0)%Z then mipmapLevel cfg else mipLevel) false;;
    let idx := IZR arrayIndex in
    gl_do (draw_quad
             (Vertex (texcoord3 (fst texCoordMin) (snd texCoordMin) idx)
                     (fst pos) (snd pos))
             (Vertex (texcoord3 (fst texCoordMin) (snd texCoordMax) idx)
                     (fst pos) (snd pos + snd size))
             (Vertex (texcoord3 (fst texCoordMax) (snd texCoordMax) idx)
                     (fst pos + fst size) (snd pos + snd size))
             (Vertex (texcoord3 (fst texCoordMax) (snd texCoordMin) idx)
                     (fst pos + fst size) (snd pos)))
  else mret tt.

(** The [switch(faceIndex)] of [DrawCubeQuad], then [mc.w = arrayIndex].
    The parameter is declared [int]; every call passes an enumerator. *)
Definition face_coord (faceIndex : CubeFaceIndex) (arrayIndex : Z)
  (mc : R * R) : vec4 :=
  let '(x, y) := mc in
  match faceIndex with
  | FI_XPOS => Vec4 1.0 (- y) (- x) (IZR arrayIndex)
  | FI_XNEG => Vec4 (-1.0) (- y) x (IZR arrayIndex)
  | FI_YPOS => Vec4 x 1.0 y (IZR arrayIndex)
  | FI_YNEG => Vec4 x (-1.0) (- y) (IZR arrayIndex)
  | FI_ZPOS => Vec4 x (- y) 1.0 (IZR arrayIndex)
  | FI_ZNEG => Vec4 (- x) (- y) (-1.0) (IZR arrayIndex)
  end.

Definition zero4 : vec4 := Vec4 0 0 0 0.

(** [mapCoordsCopy[i] = mapCoords[(i+rotationSteps) % 4]] for [i] in 0..3
    ([%] truncates like C's). *)
Definition rotate_coords (rotationSteps : Z) (mapCoords : list vec4)
  : list vec4 :=
  List.map (fun i => nth (Z.to_nat (Z.rem (i + rotationSteps) 4)) mapCoords zero4)
           [0; 1; 2; 3]%Z.

(** The texture coordinates [DrawCubeQuad] passes to [glTexCoord4fv]. *)
Definition cube_map_coords (cfg : settings) (faceIndex : CubeFaceIndex)
  (arrayIndex : Z) (texCoordMax : R * R) : list vec4 :=
  let texCoordMin : R * R := (0, 0) in
  (* scale from [0, 1] to [-1, 1] *)
  let texCoordMin := (fst texCoordMin * 2.0 - 1.0, snd texCoordMin * 2.0 - 1.0) in
  let texCoordMax := (fst texCoordMax * 2.0 - 1.0, snd texCoordMax * 2.0 - 1.0) in
  let mapCoords :=
    [ (fst texCoordMin, snd texCoordMin);
      (fst texCoordMin, snd texCoordMax);
      (fst texCoordMax, snd texCoordMax);
      (fst texCoordMax, snd texCoordMin) ] in
  let mapCoords := List.map (face_coord faceIndex arrayIndex) mapCoords in
  if (0 <? cubeCrossVariant cfg)%Z
     && (bool_decide (faceIndex = FI_YPOS) || bool_decide (faceIndex = FI_YNEG))
  then
    let rotationSteps :=
      if bool_decide (faceIndex = FI_YPOS) then cubeCrossVariant cfg
      else (4 - cubeCrossVariant cfg)%Z in
    rotate_coords rotationSteps mapCoords
  else mapCoords.

Definition DrawCubeQuad (cfg : settings) (texture : Texture) (mipLevel : Z)
  (faceIndex : CubeFaceIndex) (arrayIndex : Z) (pos size texCoordMax : R * R)
  : M unit :=
  let tex := glTextureHandle texture in
  if negb (tex =? 0)%Z then
    gl_do (glBindTexture (glTarget texture) tex);;
    SetMipmapLevel texture
      (if (mipLevel <? 0)%Z then mipmapLevel cfg else mipLevel) false;;
    let mapCoords := cube_map_coords cfg faceIndex arrayIndex texCoordMax in
    gl_do (draw_quad
             (Vertex (nth 0 mapCoords zero4) (fst pos) (snd pos))
             (Vertex (nth 1 mapCoords zero4) (fst pos) (snd pos + snd size))
             (Vertex (nth 2 mapCoords zero4)
                     (fst pos + fst size) (snd pos + snd size))
             (Vertex (nth 3 mapCoords zero4) (fst pos + fst size) (snd pos)))
  else mret tt.

(** One [DrawQuad] or [DrawCubeQuad] call of [DrawTexture]: its
    arguments ([Some] face for [DrawCubeQuad]). *)
Record tile := Tile {
  t_mip : Z;
  t_face : option CubeFaceIndex;
  t_array : Z;
  t_pos : R * R;
  t_size : R * R;
  t_texmax : R * R
}.

Definition draw_tile (cfg : settings) (texture : Texture) (t : tile) : M unit :=
  match t_face t with
  | Some f =>
      DrawCubeQuad cfg texture (t_mip t) f (t_array t) (t_pos t) (t_size t)
                   (t_texmax t)
  | None =>
      DrawQuad cfg texture (t_mip t) (t_array t) (t_pos t) (t_size t)
               (t_texmax t)
  end.

(** [const int middleIndices[4] = { FI_XNEG, FI_ZPOS, FI_XPOS, FI_ZNEG };]
    read at [i % 4]. An index outside the array (a negative
    [cubeCrossVariant]) is undefined in C++; the embedding reads
    [FI_XNEG] there. *)
Definition middleIndices : list CubeFaceIndex :=
  [FI_XNEG; FI_ZPOS; FI_XPOS; FI_ZNEG].

Definition middle_face (i : Z) : CubeFaceIndex :=
  nth (Z.to_nat (Z.rem i 4)) middleIndices FI_XNEG.

(** [for(int i=cubeCrossVariant, n=cubeCrossVariant+4; i < n; ++i)] *)
Fixpoint cross_middle_loop (fuel : nat) (i n : Z) (arrayIndex : Z)
  (posX posY offset : R) (size : R * R) : list tile :=
  match fuel with
  | O => []
  | S fuel' =>
      if (i <? n)%Z then
        Tile (-1) (Some (middle_face i)) arrayIndex (posX, posY) size (1, 1)
        :: cross_middle_loop fuel' (i + 1) n arrayIndex (posX + offset) posY
             offset size
      else []
  end.

(** The cubemap branch of [DrawTexture]. *)
Definition cube_cross_tiles (cfg : settings) (texW texH : R) : list tile :=
  let arrayIndex := textureArrayIndex cfg in
  let offset := texW + IZR (spacingBetweenMips cfg) in (* texW = texH *)
  let posX := offset in
  let posY := 0.0 in
  let size := (texW, texH) in
  let top := Tile (-1) (Some FI_YPOS) arrayIndex (posX, posY) size (1, 1) in
  let posX := 0.0 in
  let posY := posY + offset in
  let middle :=
    cross_middle_loop 4 (cubeCrossVariant cfg) (cubeCrossVariant cfg + 4)
                      arrayIndex posX posY offset size in
  let posX := offset in
  let posY := posY + offset in
  let bottom := Tile (-1) (Some FI_YNEG) arrayIndex (posX, posY) size (1, 1) in
  top :: middle ++ [bottom].

(** [int numHor = ceil(sqrtf(numMips * texH / texW));] *)
Definition numHor (numMips : Z) (texW texH : R) : Z :=
  Int_part (ceil (sqrt (IZR numMips * texH / texW))).

(** The loop of the MIPMAPS_COMPACT same-size branch; the state is
    [posX], [posY], [hOffset], [rowNum]. *)
Fixpoint compact_same_loop (fuel : nat) (i numMips nHor arrayIndex : Z)
  (posX posY hOffset vOffset : R) (rowNum : Z) (size : R * R) : list tile :=
  match fuel with
  | O => []
  | S fuel' =>
      if (i <? numMips)%Z then
        Tile i None arrayIndex (posX, posY) size (1, 1)
        :: (if (Z.rem (i + 1) nHor =? 0)%Z
            then
              (* change horizontal direction every line *)
              compact_same_loop fuel' (i + 1) numMips nHor arrayIndex
                posX (posY + vOffset) (- hOffset) vOffset (rowNum + 1) size
            else
              compact_same_loop fuel' (i + 1) numMips nHor arrayIndex
                (posX + hOffset) posY hOffset vOffset rowNum size)
      else []
  end.

Definition compact_same_tiles (cfg : settings) (numMips : Z) (texW texH : R)
  : list tile :=
  compact_same_loop (Z.to_nat numMips) 0 numMips (numHor numMips texW texH)
    (textureArrayIndex cfg) 0.0 0.0
    (texW + IZR (spacingBetweenMips cfg)) (texH + IZR (spacingBetweenMips cfg))
    0 (texW, texH).

(** The loop of the MIPMAPS_ROW / MIPMAPS_COLUMN same-size branch. *)
Fixpoint line_same_loop (fuel : nat) (i numMips arrayIndex : Z)
  (posX posY hOffset vOffset : R) (size : R * R) : list tile :=
  match fuel with
  | O => []
  | S fuel' =>
      if (i <? numMips)%Z then
        Tile i None arrayIndex (posX, posY) size (1, 1)
        :: line_same_loop fuel' (i + 1) numMips arrayIndex
             (posX + hOffset) (posY + vOffset) hOffset vOffset size
      else []
  end.

(** The loop of the MIPMAPS_COMPACT native-size branch. *)
Fixpoint compact_native_loop (fuel : nat) (i numMips arrayIndex : Z)
  (mipSize : Z -> R * R) (toRight : bool) (minSpace spacing : R)
  (posX posY : R) : list tile :=
  match fuel with
  | O => []
  | S fuel' =>
      if (i <? numMips)%Z then
        let '(w, h) := mipSize i in
        Tile i None arrayIndex (posX, posY) (w, h) (1, 1)
        :: (if (toRight && (Z.land i 1 =? 0)%Z)
               || (negb toRight && (Z.land i 1 =? 1)%Z)
            then
              let space := CMath.max minSpace (CMath.min spacing (w * 0.5)) in
              compact_native_loop fuel' (i + 1) numMips arrayIndex mipSize
                toRight minSpace spacing (posX + (space + w)) posY
            else
              let space := CMath.max minSpace (CMath.min spacing (h * 0.5)) in
              compact_native_loop fuel' (i + 1) numMips arrayIndex mipSize
                toRight minSpace spacing posX (posY + (space + h)))
      else []
  end.

(** The loop of the MIPMAPS_ROW / MIPMAPS_COLUMN native-size branch. *)
Fixpoint line_native_loop (fuel : nat) (i numMips arrayIndex : Z)
  (mipSize : Z -> R * R) (inRow : bool) (spacing : R) (posX posY : R)
  : list tile :=
  match fuel with
  | O => []
  | S fuel' =>
      if (i <? numMips)%Z then
        let '(w, h) := mipSize i in
        Tile i None arrayIndex (posX, posY) (w, h) (1, 1)
        :: (if inRow
            then line_native_loop fuel' (i + 1) numMips arrayIndex mipSize
                   inRow spacing (posX + (spacing + w)) posY
            else line_native_loop fuel' (i + 1) numMips arrayIndex mipSize
                   inRow spacing posX (posY + (spacing + h)))
      else []
  end.

(** The draw calls of [DrawTexture], in order. *)
Definition layout (cfg : settings) : list tile :=
  let tex := curTex cfg in
  let arrayIndex := textureArrayIndex cfg in
  let '(texW, texH) := GetSize tex in
  let numMips := GetNumMips tex in
  let spacing := IZR (spacingBetweenMips cfg) in
  if IsCubemap tex then cube_cross_tiles cfg texW texH
  else
    match viewMode cfg with
    | SINGLE => [Tile (-1) None arrayIndex (0, 0) (texW, texH) (1, 1)]
    | TILED =>
        let tilesX := IZR (fst (numTiles cfg)) in
        let tilesY := IZR (snd (numTiles cfg)) in
        [Tile (-1) None arrayIndex (0, 0) (texW * tilesX, texH * tilesY)
              (tilesX, tilesY)]
    | MIPMAPS_COMPACT =>
        if viewAtSameSize cfg then compact_same_tiles cfg numMips texW texH
        else
          compact_native_loop (Z.to_nat numMips) 0 numMips arrayIndex
            (GetMipSize tex) (if Rle_dec (texW / texH) 1.2 then true else false)
            (IZR (Z.min 2 (spacingBetweenMips cfg))) spacing 0.0 0.0
    | MIPMAPS_ROW | MIPMAPS_COLUMN =>
        let inRow := match viewMode cfg with MIPMAPS_ROW => true | _ => false end in
        if viewAtSameSize cfg then
          line_same_loop (Z.to_nat numMips) 0 numMips arrayIndex 0.0 0.0
            (if inRow then texW + spacing else 0.0)
            (if inRow then 0.0 else texH + spacing) (texW, texH)
        else
          line_native_loop (Z.to_nat numMips) 0 numMips arrayIndex
            (GetMipSize tex) inRow spacing 0.0 0.0
    end.

(** Issuing the draw calls one after the other. *)
Definition draw_tiles (cfg : settings) (texture : Texture) (tiles : list tile)
  : M unit :=
  foldr (fun t k => draw_tile cfg texture t;; k) (mret tt) tiles.

(** [DrawTexture()] *)
Definition DrawTexture (cfg : settings) : M unit :=
  let tex := curTex cfg in
  let enableAlphaBlend :=
    if (overrideAlpha cfg =? -1)%Z then hasAlpha tex
    else negb (overrideAlpha cfg =? 0)%Z in
  gl_do (if enableAlphaBlend then glEnable GL_BLEND else glDisable GL_BLEND);;
  let enableSRGB :=
    if (overrideSRGB cfg =? -1)%Z then isSRGB tex
    else negb (overrideSRGB cfg =? 0)%Z in
  gl_do (if enableSRGB then glEnable GL_FRAMEBUFFER_SRGB
         else glDisable GL_FRAMEBUFFER_SRGB);;
  w ← get;
  gl_do (glUseProgram (shaderProgram w));;
  draw_tiles cfg tex (layout cfg);;
  (* make sure it's disabled or ImGui will look wrong *)
  gl_do (glDisable GL_FRAMEBUFFER_SRGB).

(** *** The cross and the grid as the specification words them *)

(** The cyclic order of the side faces. *)
Definition side_cycle : list CubeFaceIndex :=
  [FI_XNEG; FI_ZPOS; FI_XPOS; FI_ZNEG].

(** The per-face basis table: the direction for quad-local [(u, v)]. *)
Definition basis_table (f : CubeFaceIndex) (u v : R) : R * R * R :=
  match f with
  | FI_XPOS => (1, - v, - u)
  | FI_XNEG => (-1, - v, u)
  | FI_YPOS => (u, 1, v)
  | FI_YNEG => (u, -1, - v)
  | FI_ZPOS => (u, - v, 1)
  | FI_ZNEG => (- u, - v, -1)
  end.

Definition direction (c : vec4) : R * R * R := (vx c, vy c, vz c).

(** The quad-local corners of a tile whose texture coordinates run from
    (0, 0) to [texCoordMax], scaled to [-1, 1], in vertex order. *)
Definition corners (texCoordMax : R * R) : list (R * R) :=
  let u := 2 * fst texCoordMax - 1 in
  let v := 2 * snd texCoordMax - 1 in
  [(-1, -1); (-1, v); (u, v); (u, -1)].

(** Rotation steps of a tile's corners: the variant for the top tile,
    4 minus the variant for the bottom tile, none for the side tiles. *)
Definition rotation_steps (f : CubeFaceIndex) (variant : Z) : nat :=
  match f with
  | FI_YPOS => Z.to_nat variant
  | FI_YNEG => Z.to_nat (4 - variant)
  | _ => 0%nat
  end.

(** The quad of a tile: texture coordinates [cs] at the rectangle's
    corners, in the order of the four [glVertex2f] calls. *)
Definition tile_quad (cs : list vec4) (pos size : R * R) : list vertex :=
  [Vertex (nth 0 cs zero4) (fst pos) (snd pos);
   Vertex (nth 1 cs zero4) (fst pos) (snd pos + snd size);
   Vertex (nth 2 cs zero4) (fst pos + fst size) (snd pos + snd size);
   Vertex (nth 3 cs zero4) (fst pos + fst size) (snd pos)].

(** The quad of a flat tile, as [DrawQuad] issues it. *)
Definition flat_quad (arrayIndex : Z) (pos size texCoordMax : R * R)
  : list vertex :=
  [Vertex (texcoord3 0 0 (IZR arrayIndex)) (fst pos) (snd pos);
   Vertex (texcoord3 0 (snd texCoordMax) (IZR arrayIndex))
          (fst pos) (snd pos + snd size);
   Vertex (texcoord3 (fst texCoordMax) (snd texCoordMax) (IZR arrayIndex))
          (fst pos + fst size) (snd pos + snd size);
   Vertex (texcoord3 (fst texCoordMax) 0 (IZR arrayIndex))
          (fst pos + fst size) (snd pos)].

Definition quad_of_tile (cfg : settings) (t : tile) : list vertex :=
  match t_face t with
  | Some f =>
      tile_quad (cube_map_coords cfg f (t_array t) (t_texmax t))
                (t_pos t) (t_size t)
  | None => flat_quad (t_array t) (t_pos t) (t_size t) (t_texmax t)
  end.

(** Grid cell of tile [i] in a serpentine grid with [n] cells per row:
    the row, and the column counted from the left. *)
Definition grid_row (n i : Z) : Z := (i / n)%Z.
Definition grid_col (n i : Z) : Z :=
  if Z.even (i / n) then (i mod n)%Z else (n - 1 - i mod n)%Z.

(** Tile [k] of a serpentine grid with [n] cells per row and cell pitch
    [(h, v)]. *)
Definition grid_tile (n arrayIndex : Z) (h v : R) (size : R * R) (k : Z)
  : tile :=
  Tile k None arrayIndex (IZR (grid_col n k) * h, IZR (grid_row n k) * v)
       size (1, 1).

(** Number of rows that hold a tile. *)
Definition row_count (n numMips : Z) : Z := ((numMips - 1) / n + 1)%Z.

(** Two cells are neighbours when they differ by one step in one axis. *)
Definition neighbours (c1 c2 : Z * Z) : Prop :=
  (Z.abs (fst c1 - fst c2) + Z.abs (snd c1 - snd c2) = 1)%Z.

End Layout.

(** ** The swizzle text field: its character filter (main.cpp 1109-1123) *)

Module SwizzleInput.

Import Swizzle.








End SwizzleInput.

(** ** Texture filter: [UpdateTextureFilter] (main.cpp 428-447) *)

Module Filter.

Import GL Viewer.

Definition GL_TEXTURE_MAG_FILTER : GLenum := 10240.       (* 0x2800 *)
Definition GL_TEXTURE_MIN_FILTER : GLenum := 10241.       (* 0x2801 *)
Definition GL_NEAREST : GLint := 9728.                    (* 0x2600 *)
Definition GL_LINEAR : GLint := 9729.                     (* 0x2601 *)
Definition GL_NEAREST_MIPMAP_NEAREST : GLint := 9984.     (* 0x2700 *)
Definition GL_LINEAR_MIPMAP_LINEAR : GLint := 9987.       (* 0x2703 *)

(** [UpdateTextureFilter(bindTex)] on [curTex], with the file-scope
    [linearFilter] as an argument. *)
Definition UpdateTextureFilter (curTex : Texture) (linearFilter : bool)
  (bindTex : bool) : M unit :=
  let glTex := glTextureHandle curTex in
  let target := glTarget curTex in
  if glTex =? 0 then mret tt
  else
    when bindTex (gl_do (glBindTexture target glTex));;
    let filter := if linearFilter then GL_LINEAR else GL_NEAREST in
    if GetNumMips curTex =? 1 then
      gl_do (glTexParameteri target GL_TEXTURE_MIN_FILTER filter);;
      gl_do (glTexParameteri target GL_TEXTURE_MAG_FILTER filter)
    else
      let mipFilter := if linearFilter then GL_LINEAR_MIPMAP_LINEAR
                       else GL_NEAREST_MIPMAP_NEAREST in
      gl_do (glTexParameteri target GL_TEXTURE_MIN_FILTER mipFilter);;
      gl_do (glTexParameteri target GL_TEXTURE_MAG_FILTER filter).

(** What an acting [SetMipmapLevel] does to the GL context. *)
Definition mip_update (t : Texture) (level : GLint) (bind : bool)
  (s : GL.state) : GL.state :=
  let s0 := if bind then glBindTexture (glTarget t) (glTextureHandle t) s
            else s in
  let lvl := Z.min level (GetNumMips t - 1) in
  glTexParameteri (glTarget t) GL_TEXTURE_MAX_LEVEL
    (if lvl <? 0 then GetNumMips t - 1 else lvl)
    (glTexParameteri (glTarget t) GL_TEXTURE_BASE_LEVEL
       (if lvl <? 0 then 0 else lvl) s0).

(** What an acting [UpdateTextureFilter] does to the GL context. *)
Definition filter_update (t : Texture) (linearFilter bindTex : bool)
  (s : GL.state) : GL.state :=
  let s0 := if bindTex then glBindTexture (glTarget t) (glTextureHandle t) s
            else s in
  let filter := if linearFilter then GL_LINEAR else GL_NEAREST in
  let mipFilter := if linearFilter then GL_LINEAR_MIPMAP_LINEAR
                   else GL_NEAREST_MIPMAP_NEAREST in
  glTexParameteri (glTarget t) GL_TEXTURE_MAG_FILTER filter
    (glTexParameteri (glTarget t) GL_TEXTURE_MIN_FILTER
       (if GetNumMips t =? 1 then filter else mipFilter) s0).

(** The filter pair of a texture object. *)
Definition filters (s : GL.state) (tex : GLuint) : option GLint * option GLint :=
  (texparams s !! (tex, GL_TEXTURE_MIN_FILTER),
   texparams s !! (tex, GL_TEXTURE_MAG_FILTER)).

(** The values OpenGL accepts for the magnification filter, and the
    minification filters that need no mip chain. *)
Definition plain_filter (v : GLint) : Prop := v = GL_NEAREST \/ v = GL_LINEAR.

End Filter.

(** ** Relations between the tiles of a layout *)

Module Tiles.

Import CMath Viewer Layout.

#[local] Open Scope R_scope.

(** [chain step i tiles]: each tile of the list is related to its
    successor by [step], the first one bearing index [i]. *)
Fixpoint chain (step : Z -> tile -> tile -> Prop) (i : Z) (tiles : list tile)
  : Prop :=
  match tiles with
  | t1 :: ((t2 :: _) as rest) => step i t1 t2 /\ chain step (i + 1)%Z rest
  | _ => True
  end.

(** The next tile starts [gap] to the right of the end of this one. *)
Definition right_of (gap : R) (t1 t2 : tile) : Prop :=
  fst (t_pos t2) = fst (t_pos t1) + (gap + fst (t_size t1)) /\
  snd (t_pos t2) = snd (t_pos t1).

(** The next tile starts [gap] below the end of this one. *)
Definition below (gap : R) (t1 t2 : tile) : Prop :=
  fst (t_pos t2) = fst (t_pos t1) /\
  snd (t_pos t2) = snd (t_pos t1) + (gap + snd (t_size t1)).

(** The step of the native-size row or column. *)
Definition line_step (inRow : bool) (spacing : R) (_ : Z) (t1 t2 : tile) : Prop :=
  if inRow then right_of spacing t1 t2 else below spacing t1 t2.

(** The step of the native-size compact layout: to the right after an
    even tile and down after an odd one when [toRight], the other way
    round otherwise, with a gap between [lo] and [hi]. *)
Definition compact_step (toRight : bool) (lo hi : R) (i : Z) (t1 t2 : tile)
  : Prop :=
  exists gap : R,
    lo <= gap <= hi /\
    if Bool.eqb toRight (Z.even i) then right_of gap t1 t2
    else below gap t1 t2.

End Tiles.

(** ** The seams of the cube cross *)

Module Seams.

Import GL Viewer Layout.

(** The texture coordinate at vertex [k] of the quad of a tile; the
    vertices come in the order top left, bottom left, bottom right, top
    right (y grows downwards). *)
Definition coord (cfg : settings) (t : tile) (k : nat) : vec4 :=
  v_tex (nth k (quad_of_tile cfg t) (Vertex zero4 0 0)).

(** The right edge of [t1] carries the coordinates of the left edge of
    [t2]. *)
Definition joins_right (cfg : settings) (t1 t2 : tile) : Prop :=
  coord cfg t1 3 = coord cfg t2 0 /\ coord cfg t1 2 = coord cfg t2 1.

(** The bottom edge of [t1] carries the coordinates of the top edge of
    [t2]. *)
Definition joins_below (cfg : settings) (t1 t2 : tile) : Prop :=
  coord cfg t1 1 = coord cfg t2 0 /\ coord cfg t1 2 = coord cfg t2 3.

End Seams.

(** ** Mouse and keyboard: [myGLFWscrollfun], [myGLFWkeyfun] and the drag
    logic of [ImGuiFrame] (main.cpp 1189-1206, 1248-1277) *)

Module Input.

Import CMath Viewer Zoom.

#[local] Open Scope R_scope.

Definition GLFW_KEY_R : Z := 82.

(** [dragging] and [lastDragPos] (main.cpp 51-52). *)
Record pointer := Pointer { dragging : bool; lastDragPos : R * R }.


(** [myGLFWkeyfun(window, key, scancode, action, mods)], with the value
    of [ImGui::GetIO().WantTextInput]. *)
Definition myGLFWkeyfun (key : Z) (WantTextInput : bool) : M unit :=
  if WantTextInput then mret tt
  else when (key =? GLFW_KEY_R)%Z (modify (set_zoom 1.0 10.0 10.0)).

(** The drag logic of [ImGuiFrame] for one frame: [mouseDown] is
    [ImGui::IsMouseDown(ImGuiMouseButton_Left)], [mousePos] is
    [ImGui::GetMousePos()]. *)
Definition drag_frame (mouseDown WantCaptureMouse : bool) (mousePos : R * R)
  (p : pointer) : M pointer :=
  if dragging p || (mouseDown && negb WantCaptureMouse) then
    if mouseDown then
      if dragging p then
        let dx := fst mousePos - fst (lastDragPos p) in
        let dy := snd mousePos - snd (lastDragPos p) in
        modify (fun w => set_zoom (zoomLevel w) (transX w + dx) (transY w + dy) w);;
        mret (Pointer (dragging p) mousePos)
      else mret (Pointer true mousePos)
    else (* left mousebutton not down (anymore) => stop dragging *)
      mret (Pointer false (lastDragPos p))
  else mret p.

(** Successive frames with the left button held down, each with its
    [WantCaptureMouse] and mouse position. *)
Fixpoint held_frames (fs : list (bool * (R * R))) (p : pointer) : M pointer :=
  match fs with
  | [] => mret p
  | (want, pos) :: rest => p' ← drag_frame true want pos p; held_frames rest p'
  end.

(** Where the mouse is after these frames. *)
Definition last_pos (fs : list (bool * (R * R))) (start : R * R) : R * R :=
  List.last (List.map snd fs) start.

End Input.

(** ** The frame transform: [GenericFrame] (main.cpp 810-839) *)

Module Frame.

Import CMath Viewer Fit.

#[local] Open Scope R_scope.

(** The matrices [GenericFrame] builds scale and shift x and y
    separately: [x] goes to [m_sx * x + m_tx], [y] to [m_sy * y + m_ty]. *)
Record matrix := Matrix { m_sx : R; m_tx : R; m_sy : R; m_ty : R }.

Definition transform (m : matrix) (v : R * R) : R * R :=
  (m_sx m * fst v + m_tx m, m_sy m * snd v + m_ty m).

(** The product [c * m]: [m] acts first. *)
Definition mult (c m : matrix) : matrix :=
  Matrix (m_sx c * m_sx m) (m_sx c * m_tx m + m_tx c)
         (m_sy c * m_sy m) (m_sy c * m_ty m + m_ty c).

Definition glLoadIdentity : matrix := Matrix 1 0 1 0.

(** [glScaled], [glTranslated] and [glOrtho] multiply the current matrix
    from the right. *)
Definition glScaled (x y : R) (c : matrix) : matrix :=
  mult c (Matrix x 0 y 0).

Definition glTranslated (x y : R) (c : matrix) : matrix :=
  mult c (Matrix 1 x 1 y).

Definition glOrtho (l r b t : R) (c : matrix) : matrix :=
  mult c (Matrix (2 / (r - l)) (- ((r + l) / (r - l)))
                 (2 / (t - b)) (- ((t + b) / (t - b)))).

(** Conversion of a floating-point value to [int]: towards zero. *)
Definition to_int (x : R) : Z :=
  if Rle_dec 0 x then Int_part x else (- Int_part (- x))%Z.

(** What [GenericFrame] sets up before it calls [DrawTexture]: the
    second [glViewport], the projection and the modelview matrix. *)
Record frame := Frame {
  viewport : Z * Z * Z * Z;
  projection : matrix;
  modelview : matrix
}.

(** [display_w], [display_h] are what [glfwGetFramebufferSize] returns,
    [sx], [sy] what [glfwGetWindowContentScale] returns. *)
Definition GenericFrame (display_w display_h : Z) (sx sy : R)
  (imguiMenuCollapsed : bool) (cfg : settings) (w : world) : frame :=
  let xOffs := if imguiMenuCollapsed then 0.0 else imGuiMenuWidth cfg * sx in
  let winW := IZR display_w - xOffs in
  Frame (to_int xOffs, 0%Z, to_int winW, display_h)
        (glOrtho 0 winW (IZR display_h) 0 glLoadIdentity)
        (glTranslated ((transX w * sx) / zoomLevel w)
                      ((transY w * sy) / zoomLevel w)
                      (glScaled (zoomLevel w) (zoomLevel w) glLoadIdentity)).

(** The window coordinates (origin at the bottom left of the window) of
    a vertex: modelview, projection, then the viewport. *)
Definition window_pos (f : frame) (v : R * R) : R * R :=
  let '(x, y, w, h) := viewport f in
  let ndc := transform (projection f) (transform (modelview f) v) in
  (IZR x + (fst ndc + 1) * (IZR w / 2), IZR y + (snd ndc + 1) * (IZR h / 2)).

(** The frame drawn right after a zoom-to-fit of a [tw] x [th] texture
    that is no cubemap, at content scale 1 and with the sidebar shown. *)
Definition fitted_frame (display_w display_h : Z) (cfg : settings)
  (menu tw th : IEEE.float) (w : world) : frame :=
  GenericFrame display_w display_h 1 1 false cfg
    (run (ZoomFitToWindow_run display_w display_h menu tw th false) w).

End Frame.

(** ** The stops of the zoom wheel *)

Module Stops.

#[local] Open Scope R_scope.

(** The zoom levels the wheel steps through from the start value 1.0:
    the eighths up to 1, the quarters from 1 to 2, the halves from 2. *)
Definition stop (z : R) : Prop :=
  (exists n : Z, (1 <= n <= 8)%Z /\ z = IZR n * 0.125) \/
  (exists n : Z, (4 <= n <= 8)%Z /\ z = IZR n * 0.25) \/
  (exists n : Z, (4 <= n)%Z /\ z = IZR n * 0.5).

End Stops.

(** ** What a shader rebuild leaves behind *)

Module Rebuild.

Import Str GL Viewer Shader.

(** The shader names handed out so far lie below the context's
    counter. *)
Definition shaders_fresh (w : world) : Prop :=
  forall k : GLuint, is_Some (shaders (gl w) !! k) -> k < next_name (gl w).

(** What a failing [CompileShader] prints. *)
Definition compile_report (d : driver) (shaderType : GLenum)
  (shaderSources : list string) : list string :=
  [("ERROR: Compiling " ++ shaderTypeStr shaderType ++ " Shader failed: "
      ++ compile_log d shaderType shaderSources ++ nl)%string;
   ("Source BEGIN" ++ nl)%string]
  ++ shaderSources ++ [(nl ++ "Source END" ++ nl)%string].

(** What a failing [CreateShaderProgram] prints. *)
Definition link_report (d : driver) (sources : list (list string))
  : list string :=
  if program_available d
  then [("ERROR: Linking shader program failed: " ++ link_log d sources
           ++ nl)%string]
  else [("ERROR: Couldn't create a new Shader Program!" ++ nl)%string].

(** The swizzle warnings a rebuild prints, and the swizzle it compiles. *)
Definition swizzle_warnings (cfg : settings) : list string :=
  if useSimpleSwizzle cfg
  then snd (Swizzle.SetSwizzleFromSimple (simpleSwizzle cfg)) else [].

Definition swizzle_text (cfg : settings) (w : world) : string :=
  if useSimpleSwizzle cfg
  then fst (Swizzle.SetSwizzleFromSimple (simpleSwizzle cfg)) else swizzle w.

(** The world after the strings of the fragment stage are set. *)
Definition staged (cfg : settings) (w : world) : world :=
  World (gl w) (stderr w ++ swizzle_warnings cfg) (shaderProgram w)
        (sampleAndNormalize (texture_shader_text (curTex cfg)))
        (swizzle_text cfg w) (zoomLevel w) (transX w) (transY w).

(** The parts of the state a rebuild has no business with. *)
Definition untouched (w w' : world) : Prop :=
  bound (gl w') = bound (gl w) /\ texparams (gl w') = texparams (gl w) /\
  quads (gl w') = quads (gl w) /\ enabled (gl w') = enabled (gl w) /\
  zoomLevel w' = zoomLevel w /\ transX w' = transX w /\ transY w' = transY w.

End Rebuild.

(** * Properties *)

(** Unfolding the monad and the GL calls. *)
Ltac run_m1 :=
  unfold mbind, Viewer.M_bind, mret, Viewer.M_ret, Viewer.when,
    Viewer.gl_call, Viewer.gl_do, Viewer.errprintf, Viewer.modify,
    Viewer.get, GL.glCreateShader, GL.glShaderSource, GL.glDeleteShader,
    GL.glCreateProgram, GL.glAttachShader, GL.glDetachShader,
    GL.glDeleteProgram, GL.glUseProgram, GL.glBindTexture,
    GL.glTexParameteri, GL.glEnable, GL.glDisable, GL.draw_quad,
    Viewer.set_gl, Viewer.set_stderr, Viewer.set_shaderProgram,
    Viewer.set_texSampleAndNormalize, Viewer.set_swizzle, GL.set_shaders,
    GL.set_programs, GL.set_current_program, GL.set_bound,
    GL.set_texparams, GL.set_enabled, GL.add_quad, GL.bump_name;
  cbn -[String.append Str.nl].

Ltac run_m := repeat progress run_m1.

Ltac run_m_in H :=
  repeat progress
    (unfold mbind, Viewer.M_bind, mret, Viewer.M_ret, Viewer.when,
       Viewer.gl_call, Viewer.gl_do, Viewer.errprintf, Viewer.modify,
       Viewer.get, GL.glDeleteShader, GL.glDeleteProgram, GL.glUseProgram,
       Viewer.set_gl, Viewer.set_stderr, Viewer.set_shaderProgram,
       GL.set_shaders, GL.set_programs, GL.set_current_program in H;
     cbn -[String.append Str.nl] in H).

(** ** Swizzle model *)

Section SwizzleFacts.

Import Swizzle.

(** The [switch] after lower-casing agrees with the two-case table. *)
Lemma switch_lower_table (c : ascii) :
  switch (lower c) =
    if Ascii.eqb c zero then Terminate
    else match selector_term c with
         | Some t => SetArg t
         | None => Invalid
         end.
Proof.
  destruct c as [[] [] [] [] [] [] [] []]; vm_compute; reflexivity.
Qed.

Lemma substring_whole (s : string) (n : nat) :
  (String.length s <= n)%nat -> String.substring 0 n s = s.
Proof.
  revert n. induction s as [|a s IH]; intros [|n] Hn; cbn in *;
    try reflexivity; try lia.
  f_equal. apply IH. lia.
Qed.

Lemma string_length_app (s t : string) :
  String.length (s ++ t) = (String.length s + String.length t)%nat.
Proof. induction s as [|a s IH]; simpl; [reflexivity | now f_equal]. Qed.

Lemma selector_term_length (c : ascii) (t : string) :
  selector_term c = Some t -> String.length t = 3%nat.
Proof.
  unfold selector_term.
  repeat match goal with
         | |- context [if ?b then _ else _] => destruct b
         end; intros [= <-]; reflexivity.
Qed.

Lemma channel_length (buf : list ascii) (k : nat) :
  String.length (channel buf k) = 3%nat.
Proof.
  unfold channel, positional_default.
  destruct (terminated buf k).
  - destruct (Nat.eqb k 3); reflexivity.
  - destruct (selector_term _) eqn:E.
    + eapply selector_term_length, E.
    + destruct (Nat.eqb k 3); reflexivity.
Qed.

(** No truncation happens: the statement has 30 characters. *)
Lemma statement_length (buf : list ascii) :
  String.length (statement buf) = 30%nat.
Proof.
  unfold statement.
  rewrite !string_length_app, !channel_length. reflexivity.
Qed.

Lemma loop_S (fuel : nat) (buf : list ascii) (i : Z) (st : loop_state) :
  i < 4 ->
  loop (S fuel) buf i st =
    match switch (lower (char_at buf i)) with
    | SetArg term =>
        loop fuel buf (i + 1)
             (LoopState (<[Z.to_nat i := term]> (args st)) (warnings st))
    | Terminate => loop fuel buf (4 + 1) st
    | Invalid =>
        loop fuel buf (i + 1)
             (LoopState (args st)
                        (warnings st ++ [invalid_msg (char_at buf i)]))
    end.
Proof.
  intros Hi. cbn [loop]. destruct (Z.ltb_spec i 4); [reflexivity | lia].
Qed.

Lemma loop_end (fuel : nat) (buf : list ascii) (i : Z) (st : loop_state) :
  4 <= i -> loop fuel buf i st = st.
Proof.
  intros Hi. destruct fuel; cbn [loop]; [reflexivity|].
  destruct (Z.ltb_spec i 4); [lia | reflexivity].
Qed.

Ltac loop_char i :=
  rewrite (loop_S _ _ i) by lia; rewrite switch_lower_table;
  destruct (Ascii.eqb (char_at _ i) zero);
  [ rewrite loop_end by lia; reflexivity
  | cbn [orb]; destruct (selector_term (char_at _ i));
    cbn [args warnings Z.to_nat Pos.to_nat Pos.iter_op Init.Nat.add] ].

(** The [args] array after the loop holds the four channels. *)
Lemma loop_args (buf : list ascii) :
  args (loop 4 buf 0 (LoopState initial_args [])) =
    [channel buf 0; channel buf 1; channel buf 2; channel buf 3].
Proof.
  unfold channel. cbn [terminated].
  change (nth 0 buf zero) with (char_at buf 0);
    change (nth 1 buf zero) with (char_at buf 1);
    change (nth 2 buf zero) with (char_at buf 2);
    change (nth 3 buf zero) with (char_at buf 3).
  loop_char 0; change (0 + 1) with 1;
    (loop_char 1; change (1 + 1) with 2;
     (loop_char 2; change (2 + 1) with 3;
      (loop_char 3; rewrite loop_end by lia; reflexivity))).
Qed.

Lemma SetSwizzleFromSimple_text (buf : list ascii) :
  fst (SetSwizzleFromSimple buf) = statement buf.
Proof.
  unfold SetSwizzleFromSimple. cbn [fst]. rewrite loop_args.
  change (format_vec4 _) with (statement buf).
  unfold Str.AppendFormatted. cbn [String.append].
  apply substring_whole. rewrite statement_length. lia.
Qed.

(** C1. For every content of [simpleSwizzle], the statement written to
    [swizzle] is [c = vec4(A, B, C, D);] (and a newline) where each of
    the four channels is resolved on its own: r/x, g/y, b/z, a/w in
    either letter case give [c.r], [c.g], [c.b], [c.a], the digits 0 and
    1 give [0.0] and [1.0]; a channel at or after the first NUL takes its
    positional default ([0.0] for channels 0-2, [1.0] for channel 3),
    whatever bytes follow the NUL. The input "rg" gives
    [c = vec4(c.r, c.g, 0.0, 1.0);]. *)
Theorem SetSwizzleFromSimple_channels :
  (forall buf : list ascii,
      fst (SetSwizzleFromSimple buf) = statement buf) /\
  (forall (buf : list ascii) (k : nat),
      terminated buf k = true -> channel buf k = positional_default k) /\
  (forall (buf : list ascii) (k : nat),
      terminated buf k = false ->
      channel buf k = default (positional_default k)
                              (selector_term (nth k buf zero))) /\
  SetSwizzleFromSimple (list_ascii_of_string "rg") =
    (("c = vec4(c.r, c.g, 0.0, 1.0);" ++ Str.nl)%string, []) /\
  SetSwizzleFromSimple ["r"; "g"; zero; "a"; zero]%char =
    (("c = vec4(c.r, c.g, 0.0, 1.0);" ++ Str.nl)%string, []).
Proof.
  split; [exact SetSwizzleFromSimple_text|].
  split; [intros buf k H; unfold channel; now rewrite H|].
  split; [|split; vm_compute; reflexivity].
  intros buf k H. unfold channel. rewrite H.
  destruct (selector_term _); reflexivity.
Qed.

Lemma SetSwizzleFromSimple_channels_witness :
  channel (list_ascii_of_string "Bx") 0 = "c.b"%string /\
  channel (list_ascii_of_string "Bx") 1 = "c.r"%string /\
  channel (list_ascii_of_string "Bx") 2 = "0.0"%string /\
  channel (list_ascii_of_string "Bx") 3 = "1.0"%string.
Proof.
  pose proof SetSwizzleFromSimple_channels as (_ & Hterm & Hsel & _).
  split; [|split; [|split]].
  - apply (Hsel (list_ascii_of_string "Bx") 0%nat). reflexivity.
  - apply (Hsel (list_ascii_of_string "Bx") 1%nat). reflexivity.
  - apply (Hterm (list_ascii_of_string "Bx") 2%nat). reflexivity.
  - apply (Hterm (list_ascii_of_string "Bx") 3%nat). reflexivity.
Defined.

End SwizzleFacts.

(** ** Mip/LOD controller *)

Section MipFacts.

Import GL Viewer Mip.

(** The two [glTexParameteri] calls on the texture bound to the target. *)
Lemma levels_after_params (s : GL.state) (target : GLenum) (b m : GLint) :
  levels (glTexParameteri target GL_TEXTURE_MAX_LEVEL m
            (glTexParameteri target GL_TEXTURE_BASE_LEVEL b s))
         (bound_to s target) = (Some b, Some m).
Proof.
  unfold levels, glTexParameteri, set_texparams, bound_to. cbn.
  rewrite lookup_insert_ne by (intros [= ?]; discriminate).
  rewrite !lookup_insert_eq. reflexivity.
Qed.

Lemma bound_to_bind (s : GL.state) (target : GLenum) (tex : GLuint) :
  bound_to (glBindTexture target tex s) target = tex.
Proof.
  unfold bound_to, glBindTexture, set_bound. cbn.
  rewrite lookup_insert_eq. reflexivity.
Qed.

(** What [SetMipmapLevel] leaves in the GL context when it acts. *)
Lemma SetMipmapLevel_levels (t : Texture) (level : GLint) (bind : bool)
  (w : world) :
  glTextureHandle t <> 0 -> GetNumMips t <> 1 ->
  bind = true \/ bound_to (gl w) (glTarget t) = glTextureHandle t ->
  levels (gl (run (SetMipmapLevel t level bind) w)) (glTextureHandle t) =
    if Z.min level (GetNumMips t - 1) <? 0
    then (Some 0, Some (GetNumMips t - 1))
    else (Some (Z.min level (GetNumMips t - 1)),
          Some (Z.min level (GetNumMips t - 1))).
Proof.
  intros Htex Hmips Hbound. unfold SetMipmapLevel, run.
  destruct (Z.eqb_spec (glTextureHandle t) 0) as [|_]; [contradiction|].
  destruct (Z.eqb_spec (GetNumMips t) 1) as [|_]; [contradiction|].
  cbn [orb].
  destruct bind.
  - destruct (Z.min level (GetNumMips t - 1) <? 0);
      match goal with
      | |- _ = (Some ?b, Some ?m) =>
          pose proof (levels_after_params
                        (glBindTexture (glTarget t) (glTextureHandle t) (gl w))
                        (glTarget t) b m) as H
      end; rewrite bound_to_bind in H; exact H.
  - destruct Hbound as [|Hb]; [discriminate|].
    destruct (Z.min level (GetNumMips t - 1) <? 0);
      match goal with
      | |- _ = (Some ?b, Some ?m) =>
          pose proof (levels_after_params (gl w) (glTarget t) b m) as H
      end; rewrite Hb in H; exact H.
Qed.

(** C3. [SetMipmapLevel] does nothing (the whole state is unchanged) when
    the texture has handle 0 or exactly one mip level. Otherwise, on the
    texture it acts on (bound by the call, or bound to the target before
    it): a requested level of -1 leaves base level 0 and max level
    [numMips-1]; a requested level [>= 0] is clamped into
    [[0, numMips-1]] and base and max level are both set to it (a
    texture resource has at least one mip level). *)
Theorem SetMipmapLevel_policy (t : Texture) (level : GLint) (bind : bool)
  (w : world) :
  (glTextureHandle t = 0 \/ GetNumMips t = 1 ->
   run (SetMipmapLevel t level bind) w = w) /\
  (glTextureHandle t <> 0 -> GetNumMips t <> 1 -> 1 <= GetNumMips t ->
   bind = true \/ bound_to (gl w) (glTarget t) = glTextureHandle t ->
   (level = -1 ->
    levels (gl (run (SetMipmapLevel t level bind) w)) (glTextureHandle t) =
      (Some 0, Some (GetNumMips t - 1))) /\
   (0 <= level ->
    levels (gl (run (SetMipmapLevel t level bind) w)) (glTextureHandle t) =
      (Some (clamp_level level (GetNumMips t)),
       Some (clamp_level level (GetNumMips t))) /\
    0 <= clamp_level level (GetNumMips t) <= GetNumMips t - 1)).
Proof.
  split.
  - intros H. unfold SetMipmapLevel, run.
    destruct (Z.eqb_spec (glTextureHandle t) 0); [reflexivity|].
    destruct (Z.eqb_spec (GetNumMips t) 1); [reflexivity|].
    destruct H; contradiction.
  - intros Htex Hne Hmips Hbound.
    pose proof (SetMipmapLevel_levels t level bind w Htex Hne Hbound) as L.
    split.
    + intros ->. rewrite L.
      destruct (Z.ltb_spec (Z.min (-1) (GetNumMips t - 1)) 0);
        [reflexivity | lia].
    + intros Hlevel. rewrite L. unfold clamp_level.
      destruct (Z.ltb_spec (Z.min level (GetNumMips t - 1)) 0); [lia|].
      rewrite Z.max_r by lia. split; [reflexivity | lia].
Qed.

Lemma SetMipmapLevel_policy_witness :
  run (SetMipmapLevel (sample_texture 7 1) 3 true) initial_world
    = initial_world /\
  levels (gl (run (SetMipmapLevel (sample_texture 7 5) (-1) true)
                  initial_world)) 7 = (Some 0, Some 4) /\
  levels (gl (run (SetMipmapLevel (sample_texture 7 5) 9 true)
                  initial_world)) 7 = (Some 4, Some 4).
Proof.
  split; [|split].
  - apply (proj1 (SetMipmapLevel_policy (sample_texture 7 1) 3 true
                    initial_world)).
    right; reflexivity.
  - apply (proj2 (SetMipmapLevel_policy (sample_texture 7 5) (-1) true
                    initial_world)); cbn; try lia; auto.
  - apply (proj2 (SetMipmapLevel_policy (sample_texture 7 5) 9 true
                    initial_world)); cbn; try lia; auto.
Defined.

End MipFacts.

(** ** Shader rebuild *)

Section ShaderFacts.

Import Str GL Viewer Shader.

Variable d : driver.
Variable cfg : settings.

Lemma print_parts_run (l : list string) (w : world) :
  print_parts l w = (tt, set_stderr (fun e => e ++ l) w).
Proof.
  unfold print_parts. revert w. induction l as [|a l IH]; intros w.
  - run_m. cbn. rewrite app_nil_r. destruct w; reflexivity.
  - cbn [foldr]. unfold mbind at 1, M_bind at 1. unfold errprintf at 1, modify.
    rewrite IH. run_m. rewrite <- app_assoc. reflexivity.
Qed.

Lemma CompileShader_run (ty : GLenum) (src : list string) (w : world) :
  exists log : list string,
    CompileShader d ty src w =
      if compiles d ty src
      then (next_name (gl w),
            with_gl (with_shaders (<[next_name (gl w) := src]> (shaders (gl w)))
                                  (gl w)) log w)
      else (0, with_gl (with_shaders (delete (next_name (gl w)) (shaders (gl w)))
                                     (gl w)) log w).
Proof.
  unfold CompileShader.
  destruct (compiles d ty src) eqn:E.
  - exists []. run_m. unfold with_gl, with_shaders.
    rewrite insert_insert_eq, app_nil_r. reflexivity.
  - eexists. run_m. rewrite print_parts_run. run_m.
    unfold with_gl, with_shaders.
    rewrite insert_insert_eq, delete_insert_eq.
    rewrite <- !app_assoc. reflexivity.
Qed.

Lemma CreateShaderProgram_run (s0 s1 : GLuint) (w : world) :
  0 < next_name (gl w) ->
  exists log : list string,
    CreateShaderProgram d s0 s1 w =
      let srcs := [default [] (shaders (gl w) !! s0);
                   default [] (shaders (gl w) !! s1)] in
      if program_available d then
        if links d srcs
        then (next_name (gl w),
              with_gl (with_programs
                         (<[next_name (gl w) := ProgramObj [s0; s1]]>
                            (programs (gl w))) (gl w)) log w)
        else (0, with_gl (with_programs
                            (delete (next_name (gl w)) (programs (gl w)))
                            (gl w)) log w)
      else (0, with_gl (gl w) log w).
Proof.
  intros Hpos. unfold CreateShaderProgram. run_m.
  destruct (program_available d).
  - cbn [fst snd]. unfold attached_sources. run_m.
    destruct (Z.eqb_spec (next_name (gl w)) 0) as [E|E]; [lia|]. run_m.
    rewrite !alter_insert_eq, lookup_insert_eq. cbn [attached app map].
    destruct (links d _).
    + exists []. run_m. unfold with_gl, with_programs.
      rewrite app_nil_r. reflexivity.
    + eexists. run_m. unfold with_gl, with_programs.
      rewrite !alter_delete_eq, delete_insert_eq. reflexivity.
  - cbn [fst snd]. rewrite Z.eqb_refl. eexists. run_m.
    unfold with_gl. destruct w as [[] ? ? ? ? ? ? ?]. reflexivity.
Qed.

Lemma bind_run {A B : Type} (c : M A) (k : A -> M B) (w : world) :
  (c ≫= k) w = k (fst (c w)) (snd (c w)).
Proof. unfold mbind, M_bind. destruct (c w); reflexivity. Qed.

(** The state before the fragment stage is compiled. *)
Lemma fragment_stage (w0 : world) :
  let w1 := snd (when (useSimpleSwizzle cfg)
                   (let '(text, warnings) :=
                      Swizzle.SetSwizzleFromSimple (simpleSwizzle cfg) in
                    modify (set_swizzle text);;
                    modify (set_stderr (fun l => l ++ warnings)))
                   (snd (modify
                           (set_texSampleAndNormalize
                              (sampleAndNormalize
                                 (texture_shader_text (curTex cfg)))) w0))) in
  gl w1 = gl w0 /\ shaderProgram w1 = shaderProgram w0 /\
  [glslVersion (texture_shader_text (curTex cfg));
   samplerUniform (texture_shader_text (curTex cfg)); fragShaderStart;
   texSampleAndNormalize w1; swizzle w1; fragShaderEnd] = fragment_source cfg w0.
Proof.
  unfold fragment_source.
  destruct (Swizzle.SetSwizzleFromSimple (simpleSwizzle cfg)) as [text warn].
  destruct (useSimpleSwizzle cfg); run_m; auto.
Qed.

(** C4. A shader rebuild succeeds exactly when the vertex stage compiles,
    the fragment stage compiles and the program is created and links. When
    it fails, the [shaderProgram] handle, the set of live program objects
    and the program in use are what they were: a prior program stays
    intact, and after a first-ever failure there is still no program. When
    it succeeds, [shaderProgram] is a new, nonzero program object, the old
    one is deleted, and the new one is the program in use. *)
Theorem UpdateShaders_atomic (w : world) :
  names_fresh w ->
  let ok := result (UpdateShaders d cfg) w in
  let w' := run (UpdateShaders d cfg) w in
  ok = vertex_ok d && fragment_ok d cfg w && link_ok d cfg w /\
  (ok = false ->
   shaderProgram w' = shaderProgram w /\
   programs (gl w') = programs (gl w) /\
   current_program (gl w') = current_program (gl w)) /\
  (ok = true ->
   shaderProgram w' <> 0 /\
   ~ program_live w (shaderProgram w') /\
   programs (gl w') =
     <[shaderProgram w' := ProgramObj [next_name (gl w); next_name (gl w) + 1]]>
       (delete (shaderProgram w) (programs (gl w))) /\
   current_program (gl w') = shaderProgram w').
Proof.
  intros (Hpos & Hcur & Hprogs).
  unfold result, run.
  destruct (UpdateShaders d cfg w) as [ok w'] eqn:E. cbn [fst snd].
  unfold UpdateShaders, vertex_ok, fragment_ok, link_ok in *.
  set (vs := [("#version 150 compatibility" ++ nl)%string; vertexShaderSrc]) in *.
  rewrite bind_run in E.
  destruct (CompileShader_run GL_VERTEX_SHADER vs w) as [log0 R0].
  rewrite R0 in E. clear R0.
  destruct (compiles d GL_VERTEX_SHADER vs).
  2:{ cbn [fst snd] in E. rewrite Z.eqb_refl in E. injection E as <- <-.
      cbn. split; [reflexivity|]. split; [auto | discriminate]. }
  cbn [fst snd andb] in E.
  destruct (Z.eqb_spec (next_name (gl w)) 0) as [|_]; [lia|].
  do 3 rewrite bind_run in E.
  match type of E with
  | context [when ?b ?c (snd (modify ?f ?w0))] =>
      destruct (fragment_stage w0) as (Hgl & Hsp & Hsrc);
      set (w1 := snd (when b c (snd (modify f w0)))) in *
  end.
  change (fst (get w1)) with w1 in E. change (snd (get w1)) with w1 in E.
  rewrite Hsrc in E. clear Hsrc.
  change (fragment_source cfg (with_gl _ log0 w)) with (fragment_source cfg w) in E.
  set (fs := fragment_source cfg w) in *.
  cbn [with_gl gl shaderProgram] in Hgl, Hsp. clearbody w1.
  destruct (CompileShader_run GL_FRAGMENT_SHADER fs w1) as [log1 R1].
  rewrite bind_run, R1 in E. clear R1. rewrite !Hgl in E.
  cbn [gl with_gl with_shaders next_name shaders] in E.
  destruct (compiles d GL_FRAGMENT_SHADER fs).
  2:{ cbn [fst snd] in E. rewrite Z.eqb_refl in E. run_m.
      injection E as <- <-. cbn. rewrite Hsp.
      split; [reflexivity|]. split; [auto | discriminate]. }
  cbn [fst snd andb] in E.
  destruct (Z.eqb_spec (next_name (gl w) + 1) 0) as [|_]; [lia|].
  rewrite bind_run in E.
  match type of E with
  | context [CreateShaderProgram d ?a ?b ?w2] =>
      destruct (CreateShaderProgram_run a b w2) as [log2 R2];
      [cbn; lia | rewrite R2 in E; clear R2]
  end.
  cbn [gl with_gl with_shaders with_programs next_name shaders programs] in E.
  rewrite lookup_insert_eq, lookup_insert_ne, lookup_insert_eq in E by lia.
  cbn [default from_option Datatypes.id] in E. unfold Datatypes.id in E.
  assert (Hnone : forall k : GLuint,
             ~ 0 < k < next_name (gl w) -> programs (gl w) !! k = None).
  { intros k Hk. apply eq_None_not_Some. intros Hlive.
    apply Hprogs in Hlive. lia. }
  assert (Hfresh : programs (gl w) !! (next_name (gl w) + 1 + 1) = None)
    by (apply Hnone; lia).
  destruct (program_available d); cbn [andb] in *.
  2:{ run_m. injection E as <- <-. cbn. rewrite Hsp.
      split; [reflexivity|]. split; [auto | discriminate]. }
  destruct (links d [vs; fs]).
  2:{ run_m. injection E as <- <-. cbn. rewrite Hsp, delete_id by exact Hfresh.
      split; [reflexivity|]. split; [auto | discriminate]. }
  cbn [fst snd] in E.
  destruct (Z.eqb_spec (next_name (gl w) + 1 + 1) 0) as [|_]; [lia|].
  run_m_in E. rewrite Hsp in E.
  split; [destruct (shaderProgram w =? 0); injection E as <- <-; reflexivity|].
  split.
  { intros ->. destruct (shaderProgram w =? 0); discriminate. }
  intros _.
  destruct (Z.eqb_spec (shaderProgram w) 0) as [E0|E0];
    injection E as <- <-; cbn.
  - split; [lia|]. split; [|split; [|reflexivity]].
    + intros Hlive. pose proof (Hprogs _ Hlive). lia.
    + rewrite delete_id; [reflexivity|]. apply Hnone. lia.
  - split; [lia|]. split; [|split; [|reflexivity]].
    + intros Hlive. pose proof (Hprogs _ Hlive). lia.
    + rewrite delete_insert_ne by lia. reflexivity.
Qed.

End ShaderFacts.

Lemma UpdateShaders_atomic_witness :
  Shader.names_fresh Viewer.initial_world /\
  Viewer.result (Shader.UpdateShaders Shader.accepting_driver
                   (Viewer.initial_settings (Viewer.sample_texture 7 5) "rgba"))
                Viewer.initial_world = true /\
  Viewer.shaderProgram
    (Viewer.run (Shader.UpdateShaders Shader.fragment_rejecting_driver
                   (Viewer.initial_settings (Viewer.sample_texture 7 5) "rgba"))
                Viewer.initial_world) = 0.
Proof.
  assert (F : Shader.names_fresh Viewer.initial_world).
  { split; [reflexivity|]. split; [reflexivity|].
    intros p H. cbn in H. apply lookup_empty_is_Some in H. destruct H. }
  split; [exact F|]. split.
  - apply (proj1 (UpdateShaders_atomic Shader.accepting_driver _ _ F)).
  - apply (proj1 (proj2 (UpdateShaders_atomic Shader.fragment_rejecting_driver
                           (Viewer.initial_settings (Viewer.sample_texture 7 5) "rgba")
                           _ F))).
    rewrite (proj1 (UpdateShaders_atomic Shader.fragment_rejecting_driver
                      (Viewer.initial_settings (Viewer.sample_texture 7 5) "rgba")
                      _ F)).
    reflexivity.
Defined.

(** ** Zoom controller *)

Section ZoomFacts.

Import CMath Zoom.

#[local] Open Scope R_scope.

Lemma sqrt2_gt_1 : 1 < sqrt 2.
Proof. rewrite <- sqrt_1 at 1. apply sqrt_lt_1; lra. Qed.

Lemma sqrt2_lt_2 : sqrt 2 < 2.
Proof.
  pose proof sqrt2_gt_1. pose proof (sqrt_sqrt 2 ltac:(lra)). nra.
Qed.

Ltac case_dec :=
  repeat match goal with
    | |- context [Rge_dec ?a ?b] => destruct (Rge_dec a b)
    | |- context [Rle_dec ?a ?b] => destruct (Rle_dec a b)
    | |- context [Rgt_dec ?a ?b] => destruct (Rgt_dec a b)
    | |- context [Rlt_dec ?a ?b] => destruct (Rlt_dec a b)
    end.

(** [round] of an integer is that integer. *)
Lemma round_IZR (n : Z) : (0 <= n)%Z -> round (IZR n) = IZR n.
Proof.
  intros Hn. unfold round. apply IZR_le in Hn.
  destruct (Rle_dec 0 (IZR n)); [|lra].
  f_equal. symmetry. apply Int_part_spec. lra.
Qed.


(** Snapping moves a value by at most the tolerance of its range. *)
Lemma zoom_snap_close (z : R) :
  (1 <= z -> Rabs (zoom_snap z - z) <= 0.25 /\ Rabs (zoom_snap z - z) <= 0.1 * z) /\
  (0.25 < z < 1 -> Rabs (zoom_snap z - z) <= 0.05) /\
  (z <= 0.25 -> zoom_snap z = z).
Proof.
  unfold zoom_snap, fabs, CMath.min.
  split; [|split]; intros Hz.
  - destruct (Rge_dec z 1.0); [|lra].
    destruct (Rle_dec _ _) as [Hc|Hc].
    + destruct (Rlt_dec (0.1 * z) 0.25); lra.
    + replace (z - z) with 0 by lra. rewrite Rabs_R0. lra.
  - destruct (Rge_dec z 1.0); [lra|].
    destruct (Rgt_dec z 0.25); [|lra].
    destruct (Rle_dec _ _) as [Hc|Hc]; [exact Hc|].
    replace (z - z) with 0 by lra. rewrite Rabs_R0. lra.
  - destruct (Rge_dec z 1.0); [lra|].
    destruct (Rgt_dec z 0.25); [lra|]. reflexivity.
Qed.

Lemma Rabs_le_between (a b t : R) :
  Rabs (a - b) <= t -> b - t <= a <= b + t.
Proof.
  unfold Rabs. destruct (Rcase_abs (a - b)); lra.
Qed.

(** The snapped value in each range of the unsnapped one. *)
Lemma zoom_snap_bounds (z : R) :
  (1 <= z -> z - 0.25 <= zoom_snap z <= z + 0.25 /\
             z - 0.1 * z <= zoom_snap z <= z + 0.1 * z) /\
  (0.25 < z < 1 -> z - 0.05 <= zoom_snap z <= z + 0.05) /\
  (z <= 0.25 -> zoom_snap z = z).
Proof.
  destruct (zoom_snap_close z) as (H1 & H2 & H3).
  split; [|split]; intros Hz.
  - destruct (H1 Hz) as [A B].
    apply Rabs_le_between in A. apply Rabs_le_between in B. lra.
  - apply Rabs_le_between. auto.
  - auto.
Qed.

Lemma zoom_step_cases (zl : R) :
  (zl >= 2 -> zoom_step zl true = zl + 0.5) /\
  (1 <= zl < 2 -> zoom_step zl true = zl + 0.25) /\
  (0.125 <= zl < 1 -> zoom_step zl true = zl + 0.125) /\
  (zl < 0.125 -> zoom_step zl true = zl * sqrt 2) /\
  (zl > 2 -> zoom_step zl false = zl - 0.5) /\
  (1 < zl <= 2 -> zoom_step zl false = zl - 0.25) /\
  (0.125 < zl <= 1 -> zoom_step zl false = zl - 0.125) /\
  (zl <= 0.125 -> zoom_step zl false = zl / sqrt 2).
Proof.
  unfold zoom_step.
  repeat split; intros Hz; case_dec; try lra.
  all: replace 2.0 with 2 by lra; try replace 1.0 with 1 by lra.
  all: unfold Rdiv; ring.
Qed.

Lemma CalcZoomLevel_increases (zl : R) : 0 < zl -> zl < CalcZoomLevel zl true.
Proof.
  intros Hpos. unfold CalcZoomLevel.
  destruct (zoom_step_cases zl) as (A & B & C & D & _).
  pose proof sqrt2_gt_1 as S1. pose proof sqrt2_lt_2 as S2.
  destruct (Rlt_dec zl 0.125) as [H|H].
  { rewrite (D H).
    destruct (zoom_snap_bounds (zl * sqrt 2)) as (_ & _ & Z).
    rewrite Z by nra. nra. }
  destruct (Rlt_dec zl 1) as [H1|H1].
  { rewrite (C ltac:(lra)).
    destruct (zoom_snap_bounds (zl + 0.125)) as (X & Y & Z).
    destruct (Rle_dec (zl + 0.125) 0.25); [rewrite Z by lra; lra|].
    destruct (Rlt_dec (zl + 0.125) 1); [specialize (Y ltac:(lra)); lra|].
    specialize (X ltac:(lra)). lra. }
  destruct (Rlt_dec zl 2) as [H2|H2].
  { rewrite (B ltac:(lra)).
    destruct (zoom_snap_bounds (zl + 0.25)) as (X & _).
    specialize (X ltac:(lra)). lra. }
  rewrite (A ltac:(lra)).
  destruct (zoom_snap_bounds (zl + 0.5)) as (X & _).
  specialize (X ltac:(lra)). lra.
Qed.

Lemma CalcZoomLevel_decreases (zl : R) :
  0 < zl -> 0 < CalcZoomLevel zl false < zl.
Proof.
  intros Hpos. unfold CalcZoomLevel.
  destruct (zoom_step_cases zl) as (_ & _ & _ & _ & A & B & C & D).
  pose proof sqrt2_gt_1 as S1. pose proof sqrt2_lt_2 as S2.
  destruct (Rle_dec zl 0.125) as [H|H].
  { rewrite (D H).
    assert (0 < zl / sqrt 2 < zl).
    { split.
      - apply Rdiv_lt_0_compat; lra.
      - apply (Rmult_lt_reg_r (sqrt 2)); [lra|].
        unfold Rdiv. rewrite Rmult_assoc, Rinv_l by lra. nra. }
    destruct (zoom_snap_bounds (zl / sqrt 2)) as (_ & _ & Z).
    rewrite Z by lra. lra. }
  destruct (Rle_dec zl 1) as [H1|H1].
  { rewrite (C ltac:(lra)).
    destruct (zoom_snap_bounds (zl - 0.125)) as (_ & Y & Z).
    destruct (Rle_dec (zl - 0.125) 0.25); [rewrite Z by lra; lra|].
    specialize (Y ltac:(lra)). lra. }
  destruct (Rle_dec zl 2) as [H2|H2].
  { rewrite (B ltac:(lra)).
    destruct (zoom_snap_bounds (zl - 0.25)) as (X & Y & _).
    destruct (Rlt_dec (zl - 0.25) 1); [specialize (Y ltac:(lra)); lra|].
    specialize (X ltac:(lra)). lra. }
  rewrite (A ltac:(lra)).
  destruct (zoom_snap_bounds (zl - 0.5)) as (X & _).
  specialize (X ltac:(lra)). lra.
Qed.

(** A half-integer [>= 1] is a fixed point of the snap. *)
Lemma zoom_snap_half (n : Z) :
  (2 <= n)%Z -> zoom_snap (IZR n * 0.5) = IZR n * 0.5.
Proof.
  intros Hn. pose proof (IZR_le _ _ Hn) as Hr.
  unfold zoom_snap, fabs, CMath.min.
  destruct (Rge_dec (IZR n * 0.5) 1.0); [|lra].
  replace (IZR n * 0.5 * 2.0) with (IZR n) by lra.
  rewrite round_IZR by lia.
  replace (IZR n * 0.5 - IZR n * 0.5) with 0 by lra. rewrite Rabs_R0.
  destruct (Rle_dec 0 _) as [|Hc]; [reflexivity|].
  exfalso. apply Hc. destruct (Rlt_dec _ _); lra.
Qed.

(** An eighth between 0.25 and 1 is a fixed point of the snap. *)
Lemma zoom_snap_eighth (n : Z) :
  (2 <= n <= 8)%Z -> zoom_snap (IZR n * 0.125) = IZR n * 0.125.
Proof.
  intros [Hlo Hhi]. pose proof (IZR_le _ _ Hlo) as Hr.
  destruct (Z.eq_dec n 8%Z) as [->|Hne].
  - replace (8 * 0.125) with (IZR 2 * 0.5) by lra.
    apply zoom_snap_half. lia.
  - assert (H7 : IZR n <= 7) by (apply IZR_le; lia).
    unfold zoom_snap, fabs.
    destruct (Rge_dec (IZR n * 0.125) 1.0); [lra|].
    destruct (Rgt_dec (IZR n * 0.125) 0.25); [|reflexivity].
    replace (IZR n * 0.125 * 8.0) with (IZR n) by lra.
    rewrite round_IZR by lia.
    replace (IZR n * 0.125 - IZR n * 0.125) with 0 by lra. rewrite Rabs_R0.
    destruct (Rle_dec 0 0.05); [reflexivity | lra].
Qed.


(** C2 as stated fails at the range boundaries when decreasing: from 2.0
    the code steps to 1.75, not to 1.5. *)
Lemma zoom_step_boundary_counterexample :
  0 < 2 /\ zoom_step 2 false = 1.75 /\ spec_step 2 false = 1.5 /\
  zoom_step 2 false <> spec_step 2 false.
Proof.
  assert (A : zoom_step 2 false = 1.75).
  { rewrite (proj1 (proj2 (proj2 (proj2 (proj2 (proj2 (zoom_step_cases 2)))))));
      lra. }
  assert (B : spec_step 2 false = 1.5).
  { unfold spec_step. destruct (Rge_dec 2 2.0); lra. }
  rewrite A, B. repeat split; lra.
Qed.

(** C2, amended. One zoom step before snapping: increasing adds 0.5 when
    [zoom >= 2], 0.25 when [1 <= zoom < 2], 0.125 when [0.125 <= zoom < 1]
    and multiplies by sqrt 2 when [zoom < 0.125]; decreasing subtracts 0.5
    when [zoom > 2], 0.25 when [1 < zoom <= 2], 0.125 when
    [0.125 < zoom <= 1] and divides by sqrt 2 when [zoom <= 0.125]: a
    boundary value belongs to the range below it when decreasing. *)
Theorem zoom_step_ranges (zl : R) :
  (zl >= 2 -> zoom_step zl true = zl + 0.5) /\
  (1 <= zl < 2 -> zoom_step zl true = zl + 0.25) /\
  (0.125 <= zl < 1 -> zoom_step zl true = zl + 0.125) /\
  (zl < 0.125 -> zoom_step zl true = zl * sqrt 2) /\
  (zl > 2 -> zoom_step zl false = zl - 0.5) /\
  (1 < zl <= 2 -> zoom_step zl false = zl - 0.25) /\
  (0.125 < zl <= 1 -> zoom_step zl false = zl - 0.125) /\
  (zl <= 0.125 -> zoom_step zl false = zl / sqrt 2).
Proof. exact (zoom_step_cases zl). Qed.

Lemma zoom_step_ranges_witness :
  zoom_step 3 true = 3 + 0.5 /\ zoom_step 1 true = 1 + 0.25 /\
  zoom_step 0.5 true = 0.5 + 0.125 /\ zoom_step 0.1 true = 0.1 * sqrt 2 /\
  zoom_step 3 false = 3 - 0.5 /\ zoom_step 1 false = 1 - 0.125 /\
  zoom_step 0.125 false = 0.125 / sqrt 2.
Proof.
  repeat split.
  - apply (proj1 (zoom_step_ranges 3)). lra.
  - apply (proj1 (proj2 (zoom_step_ranges 1))). lra.
  - apply (proj1 (proj2 (proj2 (zoom_step_ranges 0.5)))). lra.
  - apply (proj1 (proj2 (proj2 (proj2 (zoom_step_ranges 0.1))))). lra.
  - apply (proj1 (proj2 (proj2 (proj2 (proj2 (zoom_step_ranges 3)))))). lra.
  - apply (zoom_step_ranges 1). lra.
  - apply (zoom_step_ranges 0.125). lra.
Defined.



(** C10. From a positive zoom, a step in either direction gives a positive
    zoom, and so does any sequence of scroll ticks: the zoom level the
    frame transform divides by is never zero. *)
Theorem CalcZoomLevel_positive :
  (forall (zl : R) (increase : bool), 0 < zl -> 0 < CalcZoomLevel zl increase) /\
  (forall (ticks : list bool) (zl : R),
     0 < zl -> 0 < scroll ticks zl /\ scroll ticks zl <> 0).
Proof.
  assert (Step : forall zl increase, 0 < zl -> 0 < CalcZoomLevel zl increase).
  { intros zl [|] Hpos.
    - pose proof (CalcZoomLevel_increases zl Hpos). lra.
    - apply CalcZoomLevel_decreases, Hpos. }
  split; [exact Step|].
  intros ticks. unfold scroll.
  induction ticks as [|t ticks IH]; intros zl Hpos; cbn [fold_left].
  - split; lra.
  - apply IH, Step, Hpos.
Qed.

Lemma CalcZoomLevel_positive_witness :
  0 < scroll [false; false; true; false] 0.0125.
Proof.
  apply (proj2 CalcZoomLevel_positive [false; false; true; false] 0.0125). lra.
Defined.

End ZoomFacts.

(** ** Zoom-to-fit *)

Section FitFacts.

Import CMath IEEE Viewer Fit.

#[local] Open Scope R_scope.

Lemma floor_IZR (n : Z) : CMath.floor (IZR n) = IZR n.
Proof.
  unfold CMath.floor. f_equal. symmetry. apply Int_part_spec. lra.
Qed.

(** The real value of a floating-point value that is a fraction. *)
Lemma to_R_is_ratio (x : spec_float) (n d : Z) :
  (0 < d)%Z -> is_ratio x n d = true -> to_R x = IZR n / IZR d.
Proof.
  intros Hd. assert (Hd' : IZR d <> 0) by (apply not_0_IZR; lia).
  destruct x as [s | s | | s m e]; cbn [is_ratio to_R]; try discriminate.
  - intros E. apply Z.eqb_eq in E. subst n. unfold Rdiv. ring.
  - destruct (0 <=? e)%Z eqn:He; intros E; apply Z.eqb_eq in E.
    + rewrite <- E, (mult_IZR _ d). field. exact Hd'.
    + apply Z.leb_gt in He.
      assert (Hp : (0 < 2 ^ (- e))%Z) by (apply Z.pow_pos_nonneg; lia).
      assert (Hp' : IZR (2 ^ (- e)) <> 0) by (apply not_0_IZR; lia).
      apply (f_equal IZR) in E. rewrite !mult_IZR in E.
      apply Rmult_eq_reg_r with (IZR d * IZR (2 ^ (- e))).
      * transitivity (IZR (cond_Zopp s (Z.pos m)) * IZR d); [field; exact Hp'|].
        rewrite E. field. exact Hd'.
      * apply Rmult_integral_contrapositive_currified; assumption.
Qed.

(** The example of the specification: 200 x 100 in 1000 x 500. *)
Lemma ZoomFitToWindow_example :
  ZoomFitToWindow 1000 500 fzero (float_of_int 200) (float_of_int 100) false =
    (double_of_int 5, dzero, dzero).
Proof. vm_compute. reflexivity. Qed.

(** A 100 x 100 texture in a 300 x 1000 window. *)
Lemma ZoomFitToWindow_tall_window :
  ZoomFitToWindow 300 1000 fzero (float_of_int 100) (float_of_int 100) false =
    (double_of_int 3, dzero, double_of_int 116).
Proof. vm_compute. reflexivity. Qed.

End FitFacts.

(** ** View layout engine *)

Section LayoutFacts.

Import GL Viewer Mip Layout.

#[local] Open Scope R_scope.

(** [SetMipmapLevel] draws nothing. *)
Lemma SetMipmapLevel_quads (t : Texture) (level : GLint) (bind : bool)
  (w : world) :
  quads (gl (run (SetMipmapLevel t level bind) w)) = quads (gl w).
Proof.
  unfold SetMipmapLevel, run.
  destruct ((glTextureHandle t =? 0)%Z || (GetNumMips t =? 1)%Z);
    [reflexivity|].
  destruct bind; destruct (Z.min level (GetNumMips t - 1) <? 0)%Z;
    reflexivity.
Qed.

(** The quad a [DrawCubeQuad] call appends. *)
Lemma DrawCubeQuad_quads (cfg : settings) (t : Texture) (mip : Z)
  (f : CubeFaceIndex) (ai : Z) (pos size tmax : R * R) (w : world) :
  glTextureHandle t <> 0%Z ->
  quads (gl (run (DrawCubeQuad cfg t mip f ai pos size tmax) w)) =
    quads (gl w) ++ [tile_quad (cube_map_coords cfg f ai tmax) pos size].
Proof.
  intros Htex. unfold DrawCubeQuad, run.
  destruct (Z.eqb_spec (glTextureHandle t) 0) as [|_]; [contradiction|].
  cbn [negb]. rewrite !bind_run.
  set (lvl := if (mip <? 0)%Z then mipmapLevel cfg else mip).
  set (w1 := snd (gl_do (glBindTexture (glTarget t) (glTextureHandle t)) w)).
  unfold gl_do at 1, modify, draw_quad. cbn [snd].
  unfold set_gl at 1. cbn [gl add_quad quads].
  pose proof (SetMipmapLevel_quads t lvl false w1) as Q. unfold run in Q.
  f_equal. exact Q.
Qed.

(** The coordinates of a tile are the basis-table directions of its
    corners, rotated. *)
Lemma cube_map_coords_rotated (cfg : settings) (f : CubeFaceIndex) (ai : Z)
  (tmax : R * R) :
  (0 <= cubeCrossVariant cfg <= 3)%Z ->
  cube_map_coords cfg f ai tmax =
    rotate (rotation_steps f (cubeCrossVariant cfg))
           (List.map (face_coord f ai) (corners tmax)).
Proof.
  intros Hv. unfold cube_map_coords, corners, rotation_steps.
  destruct tmax as [a b]. cbn [fst snd].
  replace (0 * 2.0 - 1.0) with (-1) by lra.
  replace (a * 2.0 - 1.0) with (2 * a - 1) by lra.
  replace (b * 2.0 - 1.0) with (2 * b - 1) by lra.
  assert (C : cubeCrossVariant cfg = 0%Z \/ cubeCrossVariant cfg = 1%Z \/
              cubeCrossVariant cfg = 2%Z \/ cubeCrossVariant cfg = 3%Z) by lia.
  destruct C as [-> | [-> | [-> | ->]]]; destruct f; reflexivity.
Qed.

(** C6. For every face and every quad-local [(u, v)], the coordinate
    [DrawCubeQuad] computes is the direction of the per-face basis table
    with the array layer as 4th component; and, for a texture with a GPU
    handle and [cubeCrossVariant] in 0..3, the quad it draws carries at
    its four vertices the coordinates of the tile's four corners, rotated
    cyclically by [cubeCrossVariant] steps for the +Y tile, by
    [4 - cubeCrossVariant] steps for the -Y tile, and not at all for the
    side tiles. *)
Theorem DrawCubeQuad_basis_and_rotation :
  (forall (f : CubeFaceIndex) (ai : Z) (u v : R),
      direction (face_coord f ai (u, v)) = basis_table f u v /\
      vw (face_coord f ai (u, v)) = IZR ai) /\
  (forall (cfg : settings) (t : Texture) (mip : Z) (f : CubeFaceIndex)
          (ai : Z) (pos size tmax : R * R) (w : world),
      glTextureHandle t <> 0%Z ->
      (0 <= cubeCrossVariant cfg <= 3)%Z ->
      quads (gl (run (DrawCubeQuad cfg t mip f ai pos size tmax) w)) =
        quads (gl w) ++
        [tile_quad (rotate (rotation_steps f (cubeCrossVariant cfg))
                           (List.map (face_coord f ai) (corners tmax)))
                   pos size]).
Proof.
  split.
  - intros f ai u v. unfold direction, basis_table.
    destruct f; cbn [face_coord vx vy vz vw]; (split; [|reflexivity]);
      repeat match goal with |- (_, _) = (_, _) => f_equal end; lra.
  - intros cfg t mip f ai pos size tmax w Htex Hv.
    rewrite DrawCubeQuad_quads by exact Htex.
    rewrite cube_map_coords_rotated by exact Hv. reflexivity.
Qed.

Lemma DrawCubeQuad_basis_and_rotation_witness :
  quads (gl (run (DrawCubeQuad
                    (cross_settings (sample_cubemap 7%Z) 1%Z)
                    (sample_cubemap 7%Z) (-1)%Z FI_YPOS 0%Z (100, 0) (100, 100)
                    (1, 1)) initial_world)) =
    [tile_quad (rotate 1 (List.map (face_coord FI_YPOS 0%Z) (corners (1, 1))))
               (100, 0) (100, 100)].
Proof.
  apply (proj2 DrawCubeQuad_basis_and_rotation
           (cross_settings (sample_cubemap 7%Z) 1%Z)
           (sample_cubemap 7%Z) (-1)%Z FI_YPOS 0%Z (100, 0) (100, 100) (1, 1)
           initial_world).
  - cbn. lia.
  - cbn. lia.
Defined.

(** The tiles of the cross for each variant. *)
Lemma cube_cross_tiles_faces (cfg : settings) (texW texH : R) :
  (0 <= cubeCrossVariant cfg <= 3)%Z ->
  List.map t_face (cube_cross_tiles cfg texW texH) =
    Some FI_YPOS
    :: List.map Some (rotate (Z.to_nat (cubeCrossVariant cfg)) side_cycle)
    ++ [Some FI_YNEG].
Proof.
  intros Hv. unfold cube_cross_tiles.
  assert (C : cubeCrossVariant cfg = 0%Z \/ cubeCrossVariant cfg = 1%Z \/
              cubeCrossVariant cfg = 2%Z \/ cubeCrossVariant cfg = 3%Z) by lia.
  destruct C as [-> | [-> | [-> | ->]]]; reflexivity.
Qed.

(** The quad a [DrawQuad] call appends. *)
Lemma DrawQuad_quads (cfg : settings) (t : Texture) (mip ai : Z)
  (pos size tmax : R * R) (w : world) :
  glTextureHandle t <> 0%Z ->
  quads (gl (run (DrawQuad cfg t mip ai pos size tmax) w)) =
    quads (gl w) ++ [flat_quad ai pos size tmax].
Proof.
  intros Htex. unfold DrawQuad, run.
  destruct (Z.eqb_spec (glTextureHandle t) 0) as [|_]; [contradiction|].
  cbn [negb]. rewrite !bind_run.
  set (lvl := if (mip <? 0)%Z then mipmapLevel cfg else mip).
  set (w1 := snd (gl_do (glBindTexture (glTarget t) (glTextureHandle t)) w)).
  unfold gl_do at 1, modify, draw_quad. cbn [snd].
  unfold set_gl at 1. cbn [gl add_quad quads].
  pose proof (SetMipmapLevel_quads t lvl false w1) as Q. unfold run in Q.
  f_equal. exact Q.
Qed.

(** Every tile of a texture with a GPU handle becomes one quad. *)
Lemma draw_tiles_quads (cfg : settings) (t : Texture) (tiles : list tile)
  (w : world) :
  glTextureHandle t <> 0%Z ->
  quads (gl (run (draw_tiles cfg t tiles) w)) =
    quads (gl w) ++ List.map (quad_of_tile cfg) tiles.
Proof.
  intros Htex. revert w. induction tiles as [|a tiles IH]; intros w.
  - cbn. rewrite app_nil_r. reflexivity.
  - unfold run in *. cbn [draw_tiles foldr]. rewrite bind_run.
    fold (draw_tiles cfg t tiles). rewrite IH.
    cbn [List.map]. rewrite (app_assoc _ [_] _ : _ ++ _ :: _ = _). f_equal.
    unfold draw_tile, quad_of_tile. destruct (t_face a).
    + apply (DrawCubeQuad_quads cfg t _ _ _ _ _ _ w Htex).
    + apply (DrawQuad_quads cfg t _ _ _ _ _ w Htex).
Qed.

Lemma DrawTexture_quads (cfg : settings) (w : world) :
  glTextureHandle (curTex cfg) <> 0%Z ->
  quads (gl (run (DrawTexture cfg) w)) =
    quads (gl w) ++ List.map (quad_of_tile cfg) (layout cfg).
Proof.
  intros Htex. unfold DrawTexture, run. rewrite !bind_run.
  match goal with
  | |- context [draw_tiles cfg ?t ?l ?w0] =>
      transitivity (quads (gl (run (draw_tiles cfg t l) w0)));
      [reflexivity | rewrite (draw_tiles_quads cfg t l w0 Htex)]
  end.
  f_equal.
  destruct (if (overrideAlpha cfg =? -1)%Z then _ else _);
    destruct (if (overrideSRGB cfg =? -1)%Z then _ else _); reflexivity.
Qed.

(** The loop over the middle row runs four times. *)
Lemma cross_middle_loop_4 (i ai : Z) (x y off : R) (size : R * R) :
  cross_middle_loop 4 i (i + 4) ai x y off size =
    [Tile (-1) (Some (middle_face i)) ai (x, y) size (1, 1);
     Tile (-1) (Some (middle_face (i + 1))) ai (x + off, y) size (1, 1);
     Tile (-1) (Some (middle_face (i + 1 + 1))) ai (x + off + off, y) size (1, 1);
     Tile (-1) (Some (middle_face (i + 1 + 1 + 1))) ai
          (x + off + off + off, y) size (1, 1)].
Proof.
  cbn [cross_middle_loop].
  destruct (Z.ltb_spec i (i + 4)); [|lia].
  destruct (Z.ltb_spec (i + 1) (i + 4)); [|lia].
  destruct (Z.ltb_spec (i + 1 + 1) (i + 4)); [|lia].
  destruct (Z.ltb_spec (i + 1 + 1 + 1) (i + 4)); [|lia].
  reflexivity.
Qed.

Lemma cube_cross_tiles_positions (cfg : settings) (texW texH : R) :
  let offset := texW + IZR (spacingBetweenMips cfg) in
  List.map t_pos (cube_cross_tiles cfg texW texH) =
    [(offset, 0); (0, offset); (offset, offset); (2 * offset, offset);
     (3 * offset, offset); (offset, 2 * offset)].
Proof.
  intros offset. unfold cube_cross_tiles. fold offset. cbv zeta.
  rewrite cross_middle_loop_4. cbn [List.map app t_pos].
  repeat match goal with
    | |- _ :: _ = _ :: _ => f_equal
    | |- (_, _) = (_, _) => f_equal
    end; lra.
Qed.

(** For a cubemap the layout is the cross, whatever the view mode. *)
Lemma layout_cubemap (cfg : settings) :
  IsCubemap (curTex cfg) = true ->
  layout cfg = cube_cross_tiles cfg (fst (GetSize (curTex cfg)))
                                (snd (GetSize (curTex cfg))).
Proof.
  intros Hc. unfold layout. destruct (GetSize (curTex cfg)) as [texW texH].
  rewrite Hc. reflexivity.
Qed.

(** C5. For a cubemap and every [cubeCrossVariant] in 0..3, whatever the
    view mode, the layout is six tiles: first the +Y face at the top
    centre, then the four side faces in the cyclic order (X-, Z+, X+, Z-)
    starting at offset [cubeCrossVariant] from left to right in the middle
    row, last the -Y face at the bottom centre; the six face indices are
    distinct and every cube face occurs; with a GPU handle, [DrawTexture]
    draws exactly six quads. *)
Theorem cube_cross_layout (cfg : settings) :
  IsCubemap (curTex cfg) = true ->
  (0 <= cubeCrossVariant cfg <= 3)%Z ->
  let tiles := layout cfg in
  let offset := fst (GetSize (curTex cfg)) + IZR (spacingBetweenMips cfg) in
  length tiles = 6%nat /\
  List.map t_face tiles =
    Some FI_YPOS
    :: List.map Some (rotate (Z.to_nat (cubeCrossVariant cfg)) side_cycle)
    ++ [Some FI_YNEG] /\
  List.map t_pos tiles =
    [(offset, 0); (0, offset); (offset, offset); (2 * offset, offset);
     (3 * offset, offset); (offset, 2 * offset)] /\
  NoDup (List.map t_face tiles) /\
  (forall f : CubeFaceIndex, In (Some f) (List.map t_face tiles)) /\
  NoDup (List.map (fun t => default 0%Z (face_id <$> t_face t)) tiles) /\
  (forall w : world,
      glTextureHandle (curTex cfg) <> 0%Z ->
      length (quads (gl (run (DrawTexture cfg) w))) =
        (length (quads (gl w)) + 6)%nat).
Proof.
  intros Hc Hv tiles offset. subst tiles.
  pose proof (cube_cross_tiles_faces cfg (fst (GetSize (curTex cfg)))
                (snd (GetSize (curTex cfg))) Hv) as F.
  pose proof (cube_cross_tiles_positions cfg (fst (GetSize (curTex cfg)))
                (snd (GetSize (curTex cfg)))) as P.
  rewrite <- (layout_cubemap cfg Hc) in F, P.
  assert (L : length (layout cfg) = 6%nat).
  { rewrite <- (length_map t_pos), P. reflexivity. }
  assert (C : cubeCrossVariant cfg = 0%Z \/ cubeCrossVariant cfg = 1%Z \/
              cubeCrossVariant cfg = 2%Z \/ cubeCrossVariant cfg = 3%Z) by lia.
  split; [exact L|]. split; [exact F|]. split; [exact P|].
  assert (Ids : List.map (fun t => default 0%Z (face_id <$> t_face t)) (layout cfg)
                = List.map (fun o => default 0%Z (face_id <$> o))
                           (List.map t_face (layout cfg)))
    by (rewrite List.map_map; reflexivity).
  rewrite Ids, F.
  split; [|split; [|split]].
  - destruct C as [-> | [-> | [-> | ->]]];
      apply (bool_decide_unpack _); vm_compute; exact I.
  - intros f.
    destruct C as [-> | [-> | [-> | ->]]]; destruct f; vm_compute;
      repeat (first [left; reflexivity | right]).
  - destruct C as [-> | [-> | [-> | ->]]];
      apply (bool_decide_unpack _); vm_compute; exact I.
  - intros w Htex. rewrite (DrawTexture_quads cfg w Htex).
    rewrite length_app, length_map, L. reflexivity.
Qed.

Lemma cube_cross_layout_witness :
  List.map t_face (layout (cross_settings (sample_cubemap 7%Z) 1%Z)) =
    [Some FI_YPOS; Some FI_ZPOS; Some FI_XPOS; Some FI_ZNEG; Some FI_XNEG;
     Some FI_YNEG].
Proof.
  apply (cube_cross_layout (cross_settings (sample_cubemap 7%Z) 1%Z)).
  - reflexivity.
  - cbn. lia.
Defined.

End LayoutFacts.

(** ** The compact mip grid *)

Section GridFacts.

Import CMath GL Viewer Layout.

(** From one grid cell to the next: either the row ends (next row, same
    column) or the column moves one step in the row's direction. *)
Lemma grid_next (n i : Z) :
  0 < n -> 0 <= i ->
  ((i + 1) mod n = 0 /\
   grid_row n (i + 1) = grid_row n i + 1 /\
   grid_col n (i + 1) = grid_col n i) \/
  ((i + 1) mod n <> 0 /\
   grid_row n (i + 1) = grid_row n i /\
   grid_col n (i + 1) =
     grid_col n i + (if Z.even (grid_row n i) then 1 else -1)).
Proof.
  intros Hn Hi. unfold grid_row, grid_col.
  pose proof (Z.div_mod i n ltac:(lia)) as Ei.
  pose proof (Z.mod_pos_bound i n Hn) as Bi.
  destruct (Z.eq_dec (i mod n + 1) n) as [E|E].
  - left.
    assert (D : (i + 1) / n = i / n + 1)
      by (symmetry; apply (Z.div_unique _ _ _ 0); lia).
    assert (M : (i + 1) mod n = 0)
      by (symmetry; apply (Z.mod_unique _ _ (i / n + 1)); lia).
    rewrite D, M. split; [reflexivity|]. split; [reflexivity|].
    replace (i / n + 1) with (Z.succ (i / n)) by lia.
    rewrite Z.even_succ, <- Z.negb_even.
    destruct (Z.even (i / n)); cbn [negb]; lia.
  - right.
    assert (D : (i + 1) / n = i / n)
      by (symmetry; apply (Z.div_unique _ _ _ (i mod n + 1)); lia).
    assert (M : (i + 1) mod n = i mod n + 1)
      by (symmetry; apply (Z.mod_unique _ _ (i / n)); lia).
    rewrite D, M. split; [lia|]. split; [reflexivity|].
    destruct (Z.even (i / n)); lia.
Qed.

Lemma grid_start (n : Z) : 0 < n -> grid_row n 0 = 0 /\ grid_col n 0 = 0.
Proof.
  intros Hn. unfold grid_row, grid_col.
  rewrite Z.div_0_l, Z.mod_0_l by lia. split; reflexivity.
Qed.

Lemma neighbours_next (n i : Z) :
  0 < n -> 0 <= i ->
  neighbours (grid_col n i, grid_row n i)
             (grid_col n (i + 1), grid_row n (i + 1)).
Proof.
  intros Hn Hi. unfold neighbours. cbn [fst snd].
  destruct (grid_next n i Hn Hi) as [(_ & -> & ->) | (_ & -> & ->)].
  - lia.
  - destruct (Z.even (grid_row n i)); lia.
Qed.

#[local] Open Scope R_scope.

Lemma Int_part_IZR (k : Z) : Int_part (IZR k) = k.
Proof. symmetry. apply Int_part_spec. lra. Qed.

(** [ceil x] is the least integer at or above [x]. *)
Lemma ceil_spec (x : R) :
  ceil x = IZR (- Int_part (- x)) /\
  IZR (- Int_part (- x)) - 1 < x <= IZR (- Int_part (- x)).
Proof.
  unfold ceil. rewrite opp_IZR. split; [reflexivity|].
  pose proof (base_Int_part (- x)). lra.
Qed.

(** [numHor] is the ceiling of the square root, and at least 1. *)
Lemma numHor_spec (numMips : Z) (texW texH : R) :
  0 < texW -> 0 < texH -> (1 <= numMips)%Z ->
  IZR (numHor numMips texW texH) = ceil (sqrt (IZR numMips * texH / texW)) /\
  IZR (numHor numMips texW texH) - 1 < sqrt (IZR numMips * texH / texW)
    <= IZR (numHor numMips texW texH) /\
  (1 <= numHor numMips texW texH)%Z.
Proof.
  intros Hw Hh Hm. unfold numHor.
  set (x := sqrt (IZR numMips * texH / texW)).
  destruct (ceil_spec x) as [E B]. rewrite E, Int_part_IZR.
  split; [reflexivity|]. split; [exact B|].
  assert (Hx : 0 < x).
  { apply sqrt_lt_R0. apply Rdiv_lt_0_compat; [|exact Hw].
    apply Rmult_lt_0_compat; [|exact Hh].
    apply IZR_le in Hm. lra. }
  assert (L : IZR 0 < IZR (- Int_part (- x))) by lra.
  apply lt_IZR in L. lia.
Qed.

(** The loop lays the tiles out cell by cell. *)
Lemma compact_same_loop_grid (numMips n ai : Z) (h v : R) (size : R * R)
  (fuel : nat) :
  forall (i : Z) (posX posY hOffset : R) (rowNum : Z),
    (0 < n)%Z -> (0 <= i)%Z -> Z.of_nat fuel = (numMips - i)%Z ->
    posX = IZR (grid_col n i) * h ->
    posY = IZR (grid_row n i) * v ->
    hOffset = (if Z.even (grid_row n i) then h else - h) ->
    compact_same_loop fuel i numMips n ai posX posY hOffset v rowNum size =
      List.map (grid_tile n ai h v size) (seqZ i (numMips - i)).
Proof.
  induction fuel as [|fuel IH]; intros i posX posY hOffset rowNum Hn Hi Hf HX HY HO.
  - rewrite seqZ_nil by lia. reflexivity.
  - cbn [compact_same_loop].
    destruct (Z.ltb_spec i numMips) as [Hlt|]; [|lia].
    rewrite seqZ_cons by lia. cbn [List.map].
    replace (Z.pred (numMips - i)) with (numMips - (i + 1))%Z by lia.
    replace (Z.succ i) with (i + 1)%Z by lia.
    f_equal.
    { unfold grid_tile. rewrite HX, HY. reflexivity. }
    rewrite Z.rem_mod_nonneg by lia.
    destruct (grid_next n i Hn Hi) as [(M & Hr & Hc) | (M & Hr & Hc)].
    + rewrite M. cbn [Z.eqb].
      apply IH; try lia.
      * rewrite Hc. exact HX.
      * rewrite Hr, plus_IZR, HY. ring.
      * rewrite Hr, HO.
        replace (grid_row n i + 1)%Z with (Z.succ (grid_row n i)) by lia.
        rewrite Z.even_succ, <- Z.negb_even.
        destruct (Z.even (grid_row n i)); cbn [negb]; [reflexivity | ring].
    + destruct (Z.eqb_spec ((i + 1) mod n) 0) as [|_]; [contradiction|].
      apply IH; try lia.
      * rewrite Hc, plus_IZR, HX, HO.
        destruct (Z.even (grid_row n i)); ring.
      * rewrite Hr. exact HY.
      * rewrite Hr. exact HO.
Qed.

(** The layout of the compact same-size mode is the serpentine grid. *)
Lemma compact_same_tiles_grid (cfg : settings) (numMips : Z) (texW texH : R) :
  (1 <= numHor numMips texW texH)%Z -> (0 <= numMips)%Z ->
  compact_same_tiles cfg numMips texW texH =
    List.map (grid_tile (numHor numMips texW texH) (textureArrayIndex cfg)
                        (texW + IZR (spacingBetweenMips cfg))
                        (texH + IZR (spacingBetweenMips cfg)) (texW, texH))
             (seqZ 0 numMips).
Proof.
  intros Hn Hm. unfold compact_same_tiles.
  destruct (grid_start (numHor numMips texW texH) ltac:(lia)) as [R0 C0].
  rewrite (compact_same_loop_grid numMips (numHor numMips texW texH)
             (textureArrayIndex cfg) (texW + IZR (spacingBetweenMips cfg))
             (texH + IZR (spacingBetweenMips cfg)));
    try lia.
  - rewrite Z.sub_0_r. reflexivity.
  - rewrite C0. lra.
  - rewrite R0. lra.
  - rewrite R0. reflexivity.
Qed.

(** In compact same-size mode the layout of a 2D texture is the grid. *)
Lemma layout_compact_same (cfg : settings) :
  IsCubemap (curTex cfg) = false ->
  viewMode cfg = MIPMAPS_COMPACT ->
  viewAtSameSize cfg = true ->
  layout cfg = compact_same_tiles cfg (GetNumMips (curTex cfg))
                 (fst (GetSize (curTex cfg))) (snd (GetSize (curTex cfg))).
Proof.
  intros Hc Hm Hs. unfold layout.
  destruct (GetSize (curTex cfg)) as [texW texH].
  rewrite Hc, Hm, Hs. reflexivity.
Qed.

(** C9 as stated fails on the row count: a square texture with 2 mip
    levels has [ceil(sqrt(2)) = 2] tiles per row, so both tiles lie in
    one row (both at y = 0), not in 2 rows. *)
Lemma compact_row_count_counterexample :
  IZR (numHor 2 256 256) = ceil (sqrt (2 * (256 / 256))) /\
  numHor 2 256 256 = 2%Z /\
  List.map t_pos (layout (compact_settings (uniform_texture 7%Z 2%Z 256 256) 2%Z))
    = [(0, 0); (258, 0)] /\
  row_count (numHor 2 256 256) 2 = 1%Z /\
  row_count (numHor 2 256 256) 2 <> numHor 2 256 256.
Proof.
  destruct (numHor_spec 2 256 256 ltac:(lra) ltac:(lra) ltac:(lia))
    as (E & B & H1).
  replace (2 * 256 / 256) with 2 in E, B by lra.
  assert (N : numHor 2 256 256 = 2%Z).
  { pose proof sqrt2_gt_1. pose proof sqrt2_lt_2.
    assert (L : IZR 1 < IZR (numHor 2 256 256)) by lra.
    assert (U : IZR (numHor 2 256 256) < IZR 3) by lra.
    apply lt_IZR in L, U. lia. }
  split; [replace (2 * (256 / 256)) with 2 by lra; exact E|].
  split; [exact N|]. rewrite N.
  split; [|split; [reflexivity | discriminate]].
  rewrite layout_compact_same by reflexivity.
  change (GetNumMips _) with 2%Z. change (GetSize _) with (256, 256).
  cbn [fst snd]. rewrite compact_same_tiles_grid by lia. rewrite N.
  change (seqZ 0 2) with [0; 1]%Z.
  cbn [List.map grid_tile t_pos compact_settings spacingBetweenMips].
  change (grid_col 2 0) with 0%Z. change (grid_col 2 1) with 1%Z.
  change (grid_row 2 0) with 0%Z. change (grid_row 2 1) with 0%Z.
  repeat match goal with
    | |- _ :: _ = _ :: _ => f_equal
    | |- (_, _) = (_, _) => f_equal
    end; lra.
Qed.

(** C9, amended. In MipmapsCompact mode with [viewAtSameSize], for a 2D
    texture of positive size with at least one mip level, the layout is a
    serpentine grid whose number of tiles per row (its column count) is
    [ceil(sqrt(numMips * texH / texW))]: tile [i] lies in row [i / n], at
    column [i mod n] counted from the left in even rows and from the right
    in odd rows, at pitch (texW + spacing, texH + spacing); the rows that
    hold a tile number [(numMips - 1) / n + 1]; and tile [i] and tile
    [i+1] lie in neighbouring cells (one step apart along one axis). *)
Theorem compact_same_size_grid (cfg : settings) :
  IsCubemap (curTex cfg) = false ->
  viewMode cfg = MIPMAPS_COMPACT ->
  viewAtSameSize cfg = true ->
  0 < fst (GetSize (curTex cfg)) ->
  0 < snd (GetSize (curTex cfg)) ->
  (1 <= GetNumMips (curTex cfg))%Z ->
  let numMips := GetNumMips (curTex cfg) in
  let texW := fst (GetSize (curTex cfg)) in
  let texH := snd (GetSize (curTex cfg)) in
  let n := numHor numMips texW texH in
  IZR n = ceil (sqrt (IZR numMips * texH / texW)) /\
  (1 <= n)%Z /\
  layout cfg =
    List.map (grid_tile n (textureArrayIndex cfg)
                        (texW + IZR (spacingBetweenMips cfg))
                        (texH + IZR (spacingBetweenMips cfg)) (texW, texH))
             (seqZ 0 numMips) /\
  length (layout cfg) = Z.to_nat numMips /\
  (forall i : Z,
      grid_row n i = (i / n)%Z /\
      grid_col n i = if Z.even (i / n) then (i mod n)%Z
                     else (n - 1 - i mod n)%Z) /\
  (grid_row n (numMips - 1) + 1)%Z = row_count n numMips /\
  (forall i : Z,
      (0 <= i)%Z -> (i + 1 < numMips)%Z ->
      neighbours (grid_col n i, grid_row n i)
                 (grid_col n (i + 1), grid_row n (i + 1))).
Proof.
  intros Hc Hm Hs Hw Hh Hn numMips texW texH n.
  destruct (numHor_spec numMips texW texH Hw Hh Hn) as (E & _ & H1).
  assert (L : layout cfg =
              List.map (grid_tile n (textureArrayIndex cfg)
                          (texW + IZR (spacingBetweenMips cfg))
                          (texH + IZR (spacingBetweenMips cfg)) (texW, texH))
                       (seqZ 0 numMips)).
  { rewrite (layout_compact_same cfg Hc Hm Hs).
    apply compact_same_tiles_grid; [exact H1 | unfold numMips; lia]. }
  split; [exact E|]. split; [exact H1|]. split; [exact L|].
  split; [rewrite L, length_map, length_seqZ; reflexivity|].
  split; [intros i; split; reflexivity|].
  split; [reflexivity|].
  intros i Hi _. apply neighbours_next; [fold n; lia | exact Hi].
Qed.

Lemma compact_same_size_grid_witness :
  length (layout (compact_settings (uniform_texture 7%Z 5%Z 256 256) 2%Z))
    = 5%nat.
Proof.
  apply (compact_same_size_grid
           (compact_settings (uniform_texture 7%Z 5%Z 256 256) 2%Z)).
  - reflexivity.
  - reflexivity.
  - reflexivity.
  - cbn. lra.
  - cbn. lra.
  - cbn. lia.
Defined.

End GridFacts.

(** ** The swizzle text field *)

Section SwizzleInputFacts.

Import Swizzle SwizzleInput.





Lemma terminated_false_before (buf : list ascii) (k j : nat) :
  (j <= k)%nat -> terminated buf k = false -> terminated buf j = false.
Proof.
  induction k as [|k IH]; intros Hj H.
  - assert (j = 0%nat) as -> by lia. exact H.
  - destruct (Nat.eq_dec j (S k)) as [->|]; [exact H|].
    cbn [terminated] in H. apply orb_false_iff in H. apply IH; [lia | apply H].
Qed.







End SwizzleInputFacts.

(** ** Mip/LOD controller and texture filter: composition *)

Section MipMoreFacts.

Import GL Viewer Mip Filter.

(** The GL context after [SetMipmapLevel] acted. *)
Lemma SetMipmapLevel_gl (t : Texture) (level : GLint) (bind : bool) (w : world) :
  glTextureHandle t <> 0 -> GetNumMips t <> 1 ->
  run (SetMipmapLevel t level bind) w = set_gl (mip_update t level bind) w.
Proof.
  intros Htex Hmips. unfold SetMipmapLevel, run, mip_update.
  destruct (Z.eqb_spec (glTextureHandle t) 0) as [|_]; [contradiction|].
  destruct (Z.eqb_spec (GetNumMips t) 1) as [|_]; [contradiction|].
  cbn [orb].
  destruct bind; destruct (Z.min level (GetNumMips t - 1) <? 0); reflexivity.
Qed.

Lemma SetMipmapLevel_noop (t : Texture) (level : GLint) (bind : bool) (w : world) :
  glTextureHandle t = 0 \/ GetNumMips t = 1 ->
  run (SetMipmapLevel t level bind) w = w.
Proof.
  intros H. unfold SetMipmapLevel, run.
  destruct (Z.eqb_spec (glTextureHandle t) 0); [reflexivity|].
  destruct (Z.eqb_spec (GetNumMips t) 1); [reflexivity|].
  destruct H; contradiction.
Qed.

(** Writing the two level parameters twice is writing them once. *)
Lemma level_params_twice (s : GL.state) (target : GLenum) (b m : GLint) :
  let f := fun s => glTexParameteri target GL_TEXTURE_MAX_LEVEL m
                      (glTexParameteri target GL_TEXTURE_BASE_LEVEL b s) in
  f (f s) = f s.
Proof.
  cbv zeta. unfold glTexParameteri, set_texparams, bound_to. cbn.
  f_equal.
  rewrite (insert_insert_ne _ (_, GL_TEXTURE_BASE_LEVEL) (_, GL_TEXTURE_MAX_LEVEL))
    by (intros [= ?]; discriminate).
  rewrite (insert_insert_eq _ (_, GL_TEXTURE_MAX_LEVEL)).
  rewrite (insert_insert_eq _ (_, GL_TEXTURE_BASE_LEVEL)). reflexivity.
Qed.

Lemma glBindTexture_bound (s : GL.state) (target : GLenum) (tex : GLuint) :
  bound s !! target = Some tex -> glBindTexture target tex s = s.
Proof.
  intros H. destruct s. unfold glBindTexture, set_bound. cbn in *.
  rewrite insert_id by exact H. reflexivity.
Qed.

Lemma glTexParameteri_bound (s : GL.state) (target pname : GLenum) (v : GLint) :
  bound (glTexParameteri target pname v s) = bound s.
Proof. reflexivity. Qed.

Lemma mip_update_twice (t : Texture) (level level' : GLint) (bind : bool)
  (s : GL.state) :
  Z.min level' (GetNumMips t - 1) = Z.min level (GetNumMips t - 1) ->
  mip_update t level' bind (mip_update t level bind s) = mip_update t level bind s.
Proof.
  intros E. unfold mip_update at 1. cbv zeta. rewrite E.
  assert (B : bind = true ->
              bound (mip_update t level bind s) !! glTarget t
              = Some (glTextureHandle t)).
  { intros ->. unfold mip_update. cbv zeta. rewrite !glTexParameteri_bound.
    unfold glBindTexture, set_bound. cbn. apply lookup_insert_eq. }
  replace (if bind
           then glBindTexture (glTarget t) (glTextureHandle t)
                  (mip_update t level bind s)
           else mip_update t level bind s)
    with (mip_update t level bind s)
    by (destruct bind; [rewrite glBindTexture_bound by auto|]; reflexivity).
  unfold mip_update. cbv zeta.
  apply (level_params_twice
           (if bind then glBindTexture (glTarget t) (glTextureHandle t) s else s)).
Qed.

(** X3. The mip policy is idempotent: applying [SetMipmapLevel] a second
    time, with the same requested level or with the level it was clamped
    to, leaves the whole state as the first application left it. *)
Theorem SetMipmapLevel_idempotent (t : Texture) (level : GLint) (bind : bool)
  (w : world) :
  run (SetMipmapLevel t level bind) (run (SetMipmapLevel t level bind) w) =
    run (SetMipmapLevel t level bind) w /\
  run (SetMipmapLevel t (Z.min level (GetNumMips t - 1)) bind)
      (run (SetMipmapLevel t level bind) w) =
    run (SetMipmapLevel t level bind) w.
Proof.
  destruct (Z.eq_dec (glTextureHandle t) 0) as [H0|H0];
    [|destruct (Z.eq_dec (GetNumMips t) 1) as [H1|H1]].
  - rewrite !SetMipmapLevel_noop by auto. split; reflexivity.
  - rewrite !SetMipmapLevel_noop by auto. split; reflexivity.
  - rewrite !SetMipmapLevel_gl by assumption.
    unfold set_gl. cbn [gl stderr shaderProgram texSampleAndNormalize swizzle
                         zoomLevel transX transY].
    rewrite !mip_update_twice by lia. split; reflexivity.
Qed.

(** X4. [SetMipmapLevel] writes nothing but the base and max level of one
    texture object (the one it binds, or the one bound to the target when
    it does not bind): every other texture parameter, the shader and
    program objects, the program in use, the drawn quads, the enabled
    capabilities, the other targets' bindings and all viewer variables are
    as before. *)
Theorem SetMipmapLevel_frame (t : Texture) (level : GLint) (bind : bool)
  (w : world) :
  let w' := run (SetMipmapLevel t level bind) w in
  let tex := if bind then glTextureHandle t
             else bound_to (gl w) (glTarget t) in
  (forall (tex' : GLuint) (pname : GLenum),
      tex' <> tex \/
      (pname <> GL_TEXTURE_BASE_LEVEL /\ pname <> GL_TEXTURE_MAX_LEVEL) ->
      texparams (gl w') !! (tex', pname) = texparams (gl w) !! (tex', pname)) /\
  (forall target' : GLenum,
      target' <> glTarget t -> bound (gl w') !! target' = bound (gl w) !! target') /\
  shaders (gl w') = shaders (gl w) /\
  programs (gl w') = programs (gl w) /\
  current_program (gl w') = current_program (gl w) /\
  quads (gl w') = quads (gl w) /\
  enabled (gl w') = enabled (gl w) /\
  (stderr w', shaderProgram w', swizzle w', zoomLevel w', transX w', transY w')
  = (stderr w, shaderProgram w, swizzle w, zoomLevel w, transX w, transY w).
Proof.
  cbv zeta.
  destruct (Z.eq_dec (glTextureHandle t) 0) as [H0|H0];
    [|destruct (Z.eq_dec (GetNumMips t) 1) as [H1|H1]].
  - rewrite SetMipmapLevel_noop by auto. repeat split; reflexivity.
  - rewrite SetMipmapLevel_noop by auto. repeat split; reflexivity.
  - rewrite SetMipmapLevel_gl by assumption.
    unfold set_gl, mip_update. cbn [gl stderr shaderProgram swizzle zoomLevel
                                     transX transY].
    split; [|split; [|repeat split; destruct bind; reflexivity]].
    + intros tex' pname Hk.
      assert (Hb : bound_to (if bind
                             then glBindTexture (glTarget t) (glTextureHandle t) (gl w)
                             else gl w) (glTarget t)
                   = if bind then glTextureHandle t
                     else bound_to (gl w) (glTarget t)).
      { destruct bind; [|reflexivity].
        unfold bound_to, glBindTexture, set_bound. cbn.
        rewrite lookup_insert_eq. reflexivity. }
      unfold glTexParameteri at 1 2, set_texparams. cbn [texparams].
      change (bound_to (State _ _ _ _ _ _ _ _) (glTarget t))
        with (bound_to (if bind
                        then glBindTexture (glTarget t) (glTextureHandle t) (gl w)
                        else gl w) (glTarget t)).
      rewrite Hb.
      rewrite !lookup_insert_ne
        by (intros [= E1 E2]; destruct Hk as [Hk|[Hk1 Hk2]]; congruence).
      destruct bind; reflexivity.
    + intros target' Hne. rewrite !glTexParameteri_bound.
      destruct bind; [|reflexivity].
      unfold glBindTexture, set_bound. cbn.
      apply lookup_insert_ne. congruence.
Qed.

Lemma SetMipmapLevel_frame_witness :
  texparams (gl (run (SetMipmapLevel (sample_texture 7 5) 2 true) initial_world))
    !! (8, GL_TEXTURE_BASE_LEVEL)
  = texparams (gl initial_world) !! (8, GL_TEXTURE_BASE_LEVEL).
Proof.
  apply (proj1 (SetMipmapLevel_frame (sample_texture 7 5) 2 true initial_world)).
  left. cbn. lia.
Defined.

Lemma UpdateTextureFilter_gl (t : Texture) (lin bind : bool) (w : world) :
  glTextureHandle t <> 0 ->
  run (UpdateTextureFilter t lin bind) w = set_gl (filter_update t lin bind) w.
Proof.
  intros Htex. unfold UpdateTextureFilter, run, filter_update.
  destruct (Z.eqb_spec (glTextureHandle t) 0) as [|_]; [contradiction|].
  destruct bind; destruct (GetNumMips t =? 1); reflexivity.
Qed.

Lemma UpdateTextureFilter_noop (t : Texture) (lin bind : bool) (w : world) :
  glTextureHandle t = 0 -> run (UpdateTextureFilter t lin bind) w = w.
Proof.
  intros H. unfold UpdateTextureFilter, run. rewrite H. reflexivity.
Qed.

(** X5. [UpdateTextureFilter] does nothing for handle 0. Otherwise, on the
    texture it binds, the magnification filter is GL_NEAREST or GL_LINEAR
    (never a mipmap filter), the minification filter is that same plain
    filter when the texture has exactly one mip level and the matching
    mipmap filter otherwise, and the base and max level of every texture
    are left alone. *)
Theorem UpdateTextureFilter_filters (t : Texture) (lin : bool) (w : world) :
  (glTextureHandle t = 0 -> run (UpdateTextureFilter t lin true) w = w) /\
  (glTextureHandle t <> 0 ->
   let w' := run (UpdateTextureFilter t lin true) w in
   let plain := if lin then GL_LINEAR else GL_NEAREST in
   filters (gl w') (glTextureHandle t) =
     (Some (if GetNumMips t =? 1 then plain
            else if lin then GL_LINEAR_MIPMAP_LINEAR
                 else GL_NEAREST_MIPMAP_NEAREST),
      Some plain) /\
   plain_filter plain /\
   forall tex' : GLuint, levels (gl w') tex' = levels (gl w) tex').
Proof.
  split; [apply UpdateTextureFilter_noop|].
  intros Htex. cbv zeta. rewrite UpdateTextureFilter_gl by exact Htex.
  unfold set_gl, filter_update. cbn [gl].
  unfold filters, levels, glTexParameteri, set_texparams, bound_to,
    glBindTexture, set_bound. cbn.
  rewrite lookup_insert_eq. cbn.
  split; [|split].
  - rewrite lookup_insert_eq.
    rewrite lookup_insert_ne by (intros [= ?]; discriminate).
    rewrite lookup_insert_eq. reflexivity.
  - unfold plain_filter. destruct lin; auto.
  - intros tex'.
    rewrite !lookup_insert_ne by (intros [= ? ?]; discriminate).
    reflexivity.
Qed.

Lemma UpdateTextureFilter_filters_witness :
  filters (gl (run (UpdateTextureFilter (sample_texture 7 5) true true)
                   initial_world)) 7
  = (Some GL_LINEAR_MIPMAP_LINEAR, Some GL_LINEAR).
Proof.
  apply (proj2 (UpdateTextureFilter_filters (sample_texture 7 5) true
                  initial_world)).
  cbn. lia.
Defined.

(** X6. The filter and the mip policy do not interfere: applied to the
    same texture in either order they leave the same state. *)
Theorem filter_mip_commute (t : Texture) (lin : bool) (level : GLint)
  (w : world) :
  run (SetMipmapLevel t level true) (run (UpdateTextureFilter t lin true) w) =
  run (UpdateTextureFilter t lin true) (run (SetMipmapLevel t level true) w).
Proof.
  destruct (Z.eq_dec (glTextureHandle t) 0) as [H0|H0].
  - rewrite !UpdateTextureFilter_noop, !SetMipmapLevel_noop by auto.
    reflexivity.
  - rewrite !UpdateTextureFilter_gl by exact H0.
    destruct (Z.eq_dec (GetNumMips t) 1) as [H1|H1].
    + rewrite !SetMipmapLevel_noop by auto. reflexivity.
    + rewrite !SetMipmapLevel_gl by assumption.
      unfold set_gl. cbn [gl stderr shaderProgram texSampleAndNormalize swizzle
                           zoomLevel transX transY].
      f_equal.
      unfold mip_update, filter_update, glTexParameteri, set_texparams,
        bound_to, glBindTexture, set_bound. cbn.
      rewrite !lookup_insert_eq. cbn. rewrite !insert_insert_eq.
      f_equal.
      apply map_eq. intros k. rewrite !lookup_insert.
      repeat case_decide; simplify_eq; reflexivity.
Qed.

End MipMoreFacts.

(** ** Drawing: mip policy per tile, textures without a handle *)

Section DrawFacts.

Import GL Viewer Mip Layout.

#[local] Open Scope R_scope.

(** The level pair after a draw call. *)
Lemma draw_levels (t : Texture) (lvl : Z) (q : list vertex) (w : world) :
  glTextureHandle t <> 0%Z -> GetNumMips t <> 1%Z ->
  levels (gl (snd ((gl_do (glBindTexture (glTarget t) (glTextureHandle t));;
                    SetMipmapLevel t lvl false;;
                    gl_do (add_quad q)) w)))
         (glTextureHandle t) =
    if (Z.min lvl (GetNumMips t - 1) <? 0)%Z
    then (Some 0%Z, Some (GetNumMips t - 1)%Z)
    else (Some (Z.min lvl (GetNumMips t - 1)),
          Some (Z.min lvl (GetNumMips t - 1))).
Proof.
  intros Htex Hmips. rewrite !bind_run.
  set (w1 := snd (gl_do (glBindTexture (glTarget t) (glTextureHandle t)) w)).
  pose proof (SetMipmapLevel_levels t lvl false w1 Htex Hmips) as L.
  unfold run in L. rewrite <- L.
  - reflexivity.
  - right. apply bound_to_bind.
Qed.

(** X7. A draw call always applies the mip policy to the texture it draws,
    whatever was bound before: it binds the texture itself, then forces
    the tile's own level [mipLevel >= 0] (clamped to the last level) or,
    for [mipLevel < 0], the configured [mipmapLevel]. This holds for
    [DrawQuad] and [DrawCubeQuad] on a texture with a GPU handle and a mip
    count other than 1. *)
Theorem draw_applies_mip_policy (cfg : settings) (t : Texture) (mip ai : Z)
  (f : CubeFaceIndex) (pos size tmax : R * R) (w : world) :
  glTextureHandle t <> 0%Z -> GetNumMips t <> 1%Z ->
  let requested := if (mip <? 0)%Z then mipmapLevel cfg else mip in
  let expected :=
    if (Z.min requested (GetNumMips t - 1) <? 0)%Z
    then (Some 0%Z, Some (GetNumMips t - 1)%Z)
    else (Some (Z.min requested (GetNumMips t - 1)),
          Some (Z.min requested (GetNumMips t - 1))) in
  levels (gl (run (DrawQuad cfg t mip ai pos size tmax) w)) (glTextureHandle t)
    = expected /\
  levels (gl (run (DrawCubeQuad cfg t mip f ai pos size tmax) w))
         (glTextureHandle t) = expected.
Proof.
  intros Htex Hmips requested expected.
  unfold DrawQuad, DrawCubeQuad, run.
  destruct (Z.eqb_spec (glTextureHandle t) 0) as [|_]; [contradiction|].
  cbn [negb]. unfold draw_quad.
  split; apply (draw_levels t requested _ w Htex Hmips).
Qed.

Lemma draw_applies_mip_policy_witness :
  levels (gl (run (DrawQuad (compact_settings (sample_texture 7%Z 5%Z) 2%Z)
                            (sample_texture 7%Z 5%Z) 9%Z 0%Z (0, 0) (256, 256)
                            (1, 1)) initial_world)) 7%Z
  = (Some 4%Z, Some 4%Z).
Proof.
  apply (draw_applies_mip_policy
           (compact_settings (sample_texture 7%Z 5%Z) 2%Z)
           (sample_texture 7%Z 5%Z) 9%Z 0%Z FI_XPOS (0, 0) (256, 256) (1, 1)
           initial_world).
  - cbn. lia.
  - cbn. lia.
Defined.

(** Without a handle no draw call does anything. *)
Lemma draw_tile_no_handle (cfg : settings) (t : Texture) (tl : tile) (w : world) :
  glTextureHandle t = 0%Z -> draw_tile cfg t tl w = (tt, w).
Proof.
  intros H. unfold draw_tile, DrawQuad, DrawCubeQuad. rewrite H.
  destruct (t_face tl); reflexivity.
Qed.

Lemma draw_tiles_no_handle (cfg : settings) (t : Texture) (tiles : list tile)
  (w : world) :
  glTextureHandle t = 0%Z -> draw_tiles cfg t tiles w = (tt, w).
Proof.
  intros H. induction tiles as [|a tiles IH]; [reflexivity|].
  cbn [draw_tiles foldr]. rewrite bind_run, draw_tile_no_handle by exact H.
  exact IH.
Qed.

(** A draw call leaves the capabilities and the program alone. *)
Lemma draw_tile_frame (cfg : settings) (t : Texture) (tl : tile) (w : world) :
  let w' := snd (draw_tile cfg t tl w) in
  enabled (gl w') = enabled (gl w) /\
  current_program (gl w') = current_program (gl w) /\
  shaderProgram w' = shaderProgram w.
Proof.
  unfold draw_tile, DrawQuad, DrawCubeQuad, SetMipmapLevel.
  destruct (t_face tl);
    (destruct (glTextureHandle t =? 0)%Z; [repeat split; reflexivity|]);
    cbn [negb orb];
    (destruct (GetNumMips t =? 1)%Z; [repeat split; reflexivity|]);
    (destruct (Z.min _ _ <? 0)%Z; repeat split; reflexivity).
Qed.

Lemma draw_tiles_frame (cfg : settings) (t : Texture) (tiles : list tile) :
  forall w : world,
    let w' := snd (draw_tiles cfg t tiles w) in
    enabled (gl w') = enabled (gl w) /\
    current_program (gl w') = current_program (gl w) /\
    shaderProgram w' = shaderProgram w.
Proof.
  induction tiles as [|a tiles IH]; intros w; [repeat split; reflexivity|].
  cbn [draw_tiles foldr]. rewrite bind_run.
  fold (draw_tiles cfg t tiles).
  destruct (draw_tile_frame cfg t a w) as (E1 & E2 & E3).
  destruct (IH (snd (draw_tile cfg t a w))) as (F1 & F2 & F3).
  cbv zeta in *. rewrite F1, F2, F3. auto.
Qed.

(** X8. After [DrawTexture], whatever the texture and the view mode,
    GL_FRAMEBUFFER_SRGB is disabled, GL_BLEND is on exactly when the alpha
    override says so or, with the override at -1, when the texture has
    alpha, and the program in use is [shaderProgram]. With no GPU handle
    it draws no quad and changes no texture parameter or binding. *)
Theorem DrawTexture_state (cfg : settings) (w : world) :
  let w' := run (DrawTexture cfg) w in
  enabled (gl w') !! GL_FRAMEBUFFER_SRGB = Some false /\
  enabled (gl w') !! GL_BLEND =
    Some (if (overrideAlpha cfg =? -1)%Z then hasAlpha (curTex cfg)
          else negb (overrideAlpha cfg =? 0)%Z) /\
  current_program (gl w') = shaderProgram w /\
  (glTextureHandle (curTex cfg) = 0%Z ->
   quads (gl w') = quads (gl w) /\
   texparams (gl w') = texparams (gl w) /\
   bound (gl w') = bound (gl w)).
Proof.
  cbv zeta. unfold DrawTexture, run. rewrite !bind_run.
  match goal with
  | |- context [draw_tiles cfg ?t ?l ?w0] =>
      pose proof (draw_tiles_frame cfg t l w0) as F;
      pose proof (draw_tiles_no_handle cfg t l w0) as N;
      set (wd := draw_tiles cfg t l w0) in *
  end.
  cbv zeta in F. destruct F as (F1 & F2 & F3).
  unfold gl_do, modify, set_gl, glDisable, set_enabled.
  cbn [snd gl enabled current_program quads texparams bound].
  rewrite F1, F2.
  split; [apply lookup_insert_eq|].
  split.
  { rewrite lookup_insert_ne by discriminate.
    destruct (if (overrideAlpha cfg =? -1)%Z then _ else _);
      destruct (if (overrideSRGB cfg =? -1)%Z then _ else _);
      unfold gl_do, modify, set_gl, glEnable, glDisable, set_enabled,
        glUseProgram, set_current_program, get;
      cbn [fst snd gl enabled];
      (rewrite lookup_insert_ne by discriminate); apply lookup_insert_eq. }
  split; [reflexivity|].
  intros H0. rewrite (N H0). cbn [snd].
  destruct (if (overrideAlpha cfg =? -1)%Z then _ else _);
    destruct (if (overrideSRGB cfg =? -1)%Z then _ else _);
    repeat split; reflexivity.
Qed.

Lemma DrawTexture_state_witness :
  quads (gl (run (DrawTexture (compact_settings (sample_texture 0%Z 5%Z) 2%Z))
                 initial_world)) = quads (gl initial_world).
Proof.
  apply (DrawTexture_state (compact_settings (sample_texture 0%Z 5%Z) 2%Z)
           initial_world).
  reflexivity.
Defined.

End DrawFacts.

(** ** The layouts of the 2D view modes *)

Section ModeFacts.

Import CMath GL Viewer Layout Tiles.

#[local] Open Scope R_scope.

Lemma fuel_step (fuel : nat) (i numMips : Z) :
  S fuel = Z.to_nat (numMips - i) ->
  (i < numMips)%Z /\ fuel = Z.to_nat (numMips - (i + 1)).
Proof. lia. Qed.

Lemma fuel_zero (i numMips : Z) :
  O = Z.to_nat (numMips - i) -> seqZ i (numMips - i) = [].
Proof. intros H. apply seqZ_nil. lia. Qed.

Lemma seqZ_step (i numMips : Z) :
  (i < numMips)%Z ->
  seqZ i (numMips - i) = i :: seqZ (i + 1) (numMips - (i + 1)).
Proof.
  intros H. rewrite seqZ_cons by lia. f_equal. f_equal; lia.
Qed.

Lemma compact_same_loop_mips (numMips n ai : Z) (v : R) (size : R * R)
  (fuel : nat) :
  forall (i : Z) (posX posY hOffset : R) (rowNum : Z),
    fuel = Z.to_nat (numMips - i) ->
    let l := compact_same_loop fuel i numMips n ai posX posY hOffset v rowNum size in
    List.map t_mip l = seqZ i (numMips - i) /\
    Forall (fun t => t_face t = None /\ t_array t = ai) l.
Proof.
  induction fuel as [|fuel IH]; intros i posX posY hOffset rowNum Hf; cbv zeta.
  - rewrite (fuel_zero _ _ Hf). split; constructor.
  - destruct (fuel_step _ _ _ Hf) as [Hlt Hf'].
    rewrite (seqZ_step _ _ Hlt). cbn [compact_same_loop].
    destruct (Z.ltb_spec i numMips); [|lia].
    destruct (Z.rem (i + 1) n =? 0)%Z;
      match goal with
      | |- context [compact_same_loop fuel (i + 1)%Z numMips n ai ?x ?y ?h v ?r size] =>
          destruct (IH (i + 1)%Z x y h r Hf') as [M F]
      end;
      (split; [cbn [List.map t_mip]; rewrite M; reflexivity
              | constructor; [split; reflexivity | exact F]]).
Qed.

Lemma line_same_loop_mips (numMips ai : Z) (hOffset vOffset : R) (size : R * R)
  (fuel : nat) :
  forall (i : Z) (posX posY : R),
    fuel = Z.to_nat (numMips - i) ->
    let l := line_same_loop fuel i numMips ai posX posY hOffset vOffset size in
    List.map t_mip l = seqZ i (numMips - i) /\
    Forall (fun t => t_face t = None /\ t_array t = ai) l.
Proof.
  induction fuel as [|fuel IH]; intros i posX posY Hf; cbv zeta.
  - rewrite (fuel_zero _ _ Hf). split; constructor.
  - destruct (fuel_step _ _ _ Hf) as [Hlt Hf'].
    rewrite (seqZ_step _ _ Hlt). cbn [line_same_loop].
    destruct (Z.ltb_spec i numMips); [|lia].
    destruct (IH (i + 1)%Z (posX + hOffset) (posY + vOffset) Hf') as [M F].
    split; [cbn [List.map t_mip]; rewrite M; reflexivity
           | constructor; [split; reflexivity | exact F]].
Qed.

Lemma compact_native_loop_mips (numMips ai : Z) (mipSize : Z -> R * R)
  (toRight : bool) (minSpace spacing : R) (fuel : nat) :
  forall (i : Z) (posX posY : R),
    fuel = Z.to_nat (numMips - i) ->
    let l := compact_native_loop fuel i numMips ai mipSize toRight minSpace
               spacing posX posY in
    List.map t_mip l = seqZ i (numMips - i) /\
    Forall (fun t => t_face t = None /\ t_array t = ai) l.
Proof.
  induction fuel as [|fuel IH]; intros i posX posY Hf; cbv zeta.
  - rewrite (fuel_zero _ _ Hf). split; constructor.
  - destruct (fuel_step _ _ _ Hf) as [Hlt Hf'].
    rewrite (seqZ_step _ _ Hlt). cbn [compact_native_loop].
    destruct (Z.ltb_spec i numMips); [|lia].
    destruct (mipSize i) as [mw mh].
    destruct (toRight && (Z.land i 1 =? 0)%Z || negb toRight && (Z.land i 1 =? 1)%Z);
      match goal with
      | |- context [compact_native_loop fuel (i + 1)%Z numMips ai mipSize toRight
                      minSpace spacing ?x ?y] =>
          destruct (IH (i + 1)%Z x y Hf') as [M F]
      end;
      (split; [cbn [List.map t_mip]; rewrite M; reflexivity
              | constructor; [split; reflexivity | exact F]]).
Qed.

Lemma line_native_loop_mips (numMips ai : Z) (mipSize : Z -> R * R)
  (inRow : bool) (spacing : R) (fuel : nat) :
  forall (i : Z) (posX posY : R),
    fuel = Z.to_nat (numMips - i) ->
    let l := line_native_loop fuel i numMips ai mipSize inRow spacing posX posY in
    List.map t_mip l = seqZ i (numMips - i) /\
    Forall (fun t => t_face t = None /\ t_array t = ai) l.
Proof.
  induction fuel as [|fuel IH]; intros i posX posY Hf; cbv zeta.
  - rewrite (fuel_zero _ _ Hf). split; constructor.
  - destruct (fuel_step _ _ _ Hf) as [Hlt Hf'].
    rewrite (seqZ_step _ _ Hlt). cbn [line_native_loop].
    destruct (Z.ltb_spec i numMips); [|lia].
    destruct (mipSize i) as [mw mh].
    destruct inRow;
      match goal with
      | |- context [line_native_loop fuel (i + 1)%Z numMips ai mipSize ?b
                      spacing ?x ?y] =>
          destruct (IH (i + 1)%Z x y Hf') as [M F]
      end;
      (split; [cbn [List.map t_mip]; rewrite M; reflexivity
              | constructor; [split; reflexivity | exact F]]).
Qed.

(** X9. For a 2D texture, the Single and Tiled modes draw one tile, at the
    configured mip level (-1 passed on); every mip view mode, at the same
    size or at native size, draws each mip level 0 .. numMips-1 exactly
    once and in order (nothing for a mip count of 0 or less); all tiles
    are flat tiles of the selected array index. *)
Theorem layout_mip_levels (cfg : settings) :
  IsCubemap (curTex cfg) = false ->
  List.map t_mip (layout cfg) =
    match viewMode cfg with
    | SINGLE | TILED => [(-1)%Z]
    | _ => seqZ 0 (GetNumMips (curTex cfg))
    end /\
  length (layout cfg) =
    match viewMode cfg with
    | SINGLE | TILED => 1%nat
    | _ => Z.to_nat (GetNumMips (curTex cfg))
    end /\
  Forall (fun t => t_face t = None /\ t_array t = textureArrayIndex cfg)
         (layout cfg).
Proof.
  intros Hc.
  assert (A : List.map t_mip (layout cfg) =
              match viewMode cfg with
              | SINGLE | TILED => [(-1)%Z]
              | _ => seqZ 0 (GetNumMips (curTex cfg))
              end /\
              Forall (fun t => t_face t = None /\ t_array t = textureArrayIndex cfg)
                     (layout cfg)).
  { unfold layout. destruct (GetSize (curTex cfg)) as [texW texH]. rewrite Hc.
    set (n := GetNumMips (curTex cfg)).
    assert (Hf : Z.to_nat n = Z.to_nat (n - 0)) by lia.
    replace (seqZ 0 n) with (seqZ 0 (n - 0)) by (f_equal; lia).
    destruct (viewMode cfg); destruct (viewAtSameSize cfg);
      try (split; [reflexivity | repeat constructor]).
    - apply compact_same_loop_mips, Hf.
    - apply compact_native_loop_mips, Hf.
    - apply line_same_loop_mips, Hf.
    - apply line_native_loop_mips, Hf.
    - apply line_same_loop_mips, Hf.
    - apply line_native_loop_mips, Hf. }
  destruct A as [M F]. split; [exact M|]. split; [|exact F].
  rewrite <- (length_map t_mip), M.
  destruct (viewMode cfg); try reflexivity; apply length_seqZ.
Qed.

Lemma layout_mip_levels_witness :
  List.map t_mip (layout (compact_settings (sample_texture 7%Z 3%Z) 2%Z))
  = seqZ 0 3.
Proof.
  apply (layout_mip_levels (compact_settings (sample_texture 7%Z 3%Z) 2%Z)).
  reflexivity.
Defined.

(** The same-size row or column, tile by tile. *)
Lemma line_same_loop_positions (numMips ai : Z) (h v : R) (size : R * R)
  (fuel : nat) :
  forall (i : Z) (posX posY : R),
    fuel = Z.to_nat (numMips - i) ->
    posX = IZR i * h -> posY = IZR i * v ->
    line_same_loop fuel i numMips ai posX posY h v size =
      List.map (fun k => Tile k None ai (IZR k * h, IZR k * v) size (1, 1))
               (seqZ i (numMips - i)).
Proof.
  induction fuel as [|fuel IH]; intros i posX posY Hf HX HY.
  - rewrite (fuel_zero _ _ Hf). reflexivity.
  - destruct (fuel_step _ _ _ Hf) as [Hlt Hf'].
    rewrite (seqZ_step _ _ Hlt). cbn [line_same_loop List.map].
    destruct (Z.ltb_spec i numMips); [|lia].
    rewrite HX, HY. f_equal.
    apply IH; [exact Hf' | rewrite plus_IZR; ring | rewrite plus_IZR; ring].
Qed.

(** X10. In the MipMaps-in-Row and MipMaps-in-Column modes at the same
    size, tile [k] shows mip level [k] at the base size and lies [k]
    pitches along the axis: at [(k * (texW + spacing), 0)] in a row, at
    [(0, k * (texH + spacing))] in a column. *)
Theorem line_same_size_layout (cfg : settings) :
  IsCubemap (curTex cfg) = false ->
  viewAtSameSize cfg = true ->
  viewMode cfg = MIPMAPS_ROW \/ viewMode cfg = MIPMAPS_COLUMN ->
  let texW := fst (GetSize (curTex cfg)) in
  let texH := snd (GetSize (curTex cfg)) in
  let spacing := IZR (spacingBetweenMips cfg) in
  layout cfg =
    List.map (fun k =>
                Tile k None (textureArrayIndex cfg)
                     (match viewMode cfg with
                      | MIPMAPS_ROW => (IZR k * (texW + spacing), 0)
                      | _ => (0, IZR k * (texH + spacing))
                      end)
                     (texW, texH) (1, 1))
             (seqZ 0 (GetNumMips (curTex cfg))).
Proof.
  intros Hc Hs Hm. cbv zeta. unfold layout.
  destruct (GetSize (curTex cfg)) as [texW texH]. cbn [fst snd].
  rewrite Hc, Hs.
  set (n := GetNumMips (curTex cfg)).
  assert (Hf : Z.to_nat n = Z.to_nat (n - 0)) by lia.
  replace (seqZ 0 n) with (seqZ 0 (n - 0)) by (f_equal; lia).
  destruct Hm as [-> | ->];
    rewrite (line_same_loop_positions n (textureArrayIndex cfg) _ _ (texW, texH)
               (Z.to_nat n) 0%Z 0.0 0.0 Hf) by lra;
    apply map_ext; intros k; repeat f_equal; lra.
Qed.

Lemma line_same_size_layout_witness :
  layout (Settings (uniform_texture 7%Z 2%Z 64 32) (-1) 0 0 [] true MIPMAPS_ROW
                   true 2 (2, 2)%Z 0 (-1) (-1)) =
    List.map (fun k => Tile k None 0%Z (IZR k * (64 + 2), 0) (64, 32) (1, 1))
             (seqZ 0 2).
Proof.
  apply (line_same_size_layout
           (Settings (uniform_texture 7%Z 2%Z 64 32) (-1) 0 0 [] true MIPMAPS_ROW
                     true 2 (2, 2)%Z 0 (-1) (-1))).
  - reflexivity.
  - reflexivity.
  - left; reflexivity.
Defined.

(** The native-size row or column is a chain. *)
Lemma line_native_loop_chain (numMips ai : Z) (mipSize : Z -> R * R)
  (inRow : bool) (spacing : R) (fuel : nat) :
  forall (i : Z) (posX posY : R),
    let l := line_native_loop fuel i numMips ai mipSize inRow spacing posX posY in
    chain (line_step inRow spacing) i l /\
    Forall (fun t => t_size t = mipSize (t_mip t)) l /\
    forall t, head l = Some t -> t_pos t = (posX, posY) /\ t_size t = mipSize i.
Proof.
  induction fuel as [|fuel IH]; intros i posX posY; cbv zeta.
  - cbn. repeat split; [constructor | discriminate | discriminate].
  - cbn [line_native_loop].
    destruct (i <? numMips)%Z;
      [|cbn; repeat split; [constructor | discriminate | discriminate]].
    destruct (mipSize i) as [mw mh] eqn:Em.
    assert (Hd : forall x y h,
               (forall t, head h = Some t -> t_pos t = (x, y) /\ t_size t = mipSize (i + 1)%Z) ->
               (if inRow then x = posX + (spacing + mw) /\ y = posY
                else x = posX /\ y = posY + (spacing + mh)) ->
               chain (line_step inRow spacing) (i + 1)%Z h ->
               chain (line_step inRow spacing) i
                     (Tile i None ai (posX, posY) (mw, mh) (1, 1) :: h)).
    { intros x y h Hh Hxy Hc. destruct h as [|t2 h']; [exact I|].
      split; [|exact Hc].
      destruct (Hh t2 eq_refl) as [P _].
      unfold line_step, right_of, below. rewrite P. cbn [t_pos t_size fst snd].
      destruct inRow; exact Hxy. }
    destruct inRow.
    + destruct (IH (i + 1)%Z (posX + (spacing + mw)) posY) as (C & F & H).
      split; [eapply Hd; [exact H | split; reflexivity | exact C]|].
      split; [constructor; [cbn; rewrite Em; reflexivity | exact F]|].
      intros t [= <-]. cbn. split; reflexivity.
    + destruct (IH (i + 1)%Z posX (posY + (spacing + mh))) as (C & F & H).
      split; [eapply Hd; [exact H | split; reflexivity | exact C]|].
      split; [constructor; [cbn; rewrite Em; reflexivity | exact F]|].
      intros t [= <-]. cbn. split; reflexivity.
Qed.

(** X11. In the MipMaps-in-Row and MipMaps-in-Column modes at native size,
    every tile has the size of its own mip level, the first lies at the
    origin, and each next tile starts exactly [spacingBetweenMips] after
    the end of the one before, along the row or the column: the tiles
    never overlap when the spacing is not negative. *)
Theorem line_native_size_layout (cfg : settings) :
  IsCubemap (curTex cfg) = false ->
  viewAtSameSize cfg = false ->
  viewMode cfg = MIPMAPS_ROW \/ viewMode cfg = MIPMAPS_COLUMN ->
  let inRow := match viewMode cfg with MIPMAPS_ROW => true | _ => false end in
  chain (line_step inRow (IZR (spacingBetweenMips cfg))) 0 (layout cfg) /\
  Forall (fun t => t_size t = GetMipSize (curTex cfg) (t_mip t)) (layout cfg) /\
  (forall t, head (layout cfg) = Some t -> t_pos t = (0, 0)).
Proof.
  intros Hc Hs Hm. cbv zeta. unfold layout.
  destruct (GetSize (curTex cfg)) as [texW texH]. rewrite Hc, Hs.
  destruct Hm as [-> | ->];
    match goal with
    | |- context [line_native_loop ?f ?i ?n ?a ?m ?b ?sp ?x ?y] =>
        destruct (line_native_loop_chain n a m b sp f i x y) as (C & F & H)
    end;
    (split; [exact C|]; split; [exact F|]);
    intros t Ht; destruct (H t Ht) as [P _]; rewrite P; f_equal; lra.
Qed.

Lemma line_native_size_layout_witness :
  chain (line_step true 2) 0
        (layout (Settings (sample_texture 7%Z 3%Z) (-1) 0 0 [] true MIPMAPS_ROW
                          false 2 (2, 2)%Z 0 (-1) (-1))).
Proof.
  apply (line_native_size_layout
           (Settings (sample_texture 7%Z 3%Z) (-1) 0 0 [] true MIPMAPS_ROW
                     false 2 (2, 2)%Z 0 (-1) (-1))).
  - reflexivity.
  - reflexivity.
  - left; reflexivity.
Defined.

(** [i & 1] tells the parity. *)
Lemma land_1_even (i : Z) :
  (Z.land i 1 =? 0)%Z = Z.even i /\ (Z.land i 1 =? 1)%Z = negb (Z.even i).
Proof.
  assert (E : Z.land i 1 = if Z.even i then 0%Z else 1%Z).
  { pose proof (Z.land_ones i 1 ltac:(lia)) as H.
    change (Z.ones 1) with 1%Z in H. change (2 ^ 1)%Z with 2%Z in H.
    rewrite H. apply Zmod_even. }
  rewrite E. destruct (Z.even i); split; reflexivity.
Qed.

(** The clamped gap lies between the two bounds. *)
Lemma space_bounds (s : Z) (x : R) :
  IZR (Z.min 2 s) <=
    CMath.max (IZR (Z.min 2 s)) (CMath.min (IZR s) (x * 0.5)) <= IZR s.
Proof.
  assert (IZR (Z.min 2 s) <= IZR s) by (apply IZR_le; lia).
  unfold CMath.max, CMath.min.
  destruct (Rlt_dec (x * 0.5) (IZR s)); destruct (Rlt_dec _ _); lra.
Qed.

(** The native-size compact layout is a chain. *)
Lemma compact_native_loop_chain (numMips ai s : Z) (mipSize : Z -> R * R)
  (toRight : bool) (fuel : nat) :
  forall (i : Z) (posX posY : R),
    let l := compact_native_loop fuel i numMips ai mipSize toRight
               (IZR (Z.min 2 s)) (IZR s) posX posY in
    chain (compact_step toRight (IZR (Z.min 2 s)) (IZR s)) i l /\
    Forall (fun t => t_size t = mipSize (t_mip t)) l /\
    forall t, head l = Some t -> t_pos t = (posX, posY).
Proof.
  induction fuel as [|fuel IH]; intros i posX posY; cbv zeta.
  - cbn. repeat split; [constructor | discriminate].
  - cbn [compact_native_loop].
    destruct (i <? numMips)%Z;
      [|cbn; repeat split; [constructor | discriminate]].
    destruct (mipSize i) as [mw mh] eqn:Em.
    destruct (land_1_even i) as [-> ->].
    assert (Hd : forall x y h gap,
               (forall t, head h = Some t -> t_pos t = (x, y)) ->
               IZR (Z.min 2 s) <= gap <= IZR s ->
               (if Bool.eqb toRight (Z.even i)
                then x = posX + (gap + mw) /\ y = posY
                else x = posX /\ y = posY + (gap + mh)) ->
               chain (compact_step toRight (IZR (Z.min 2 s)) (IZR s)) (i + 1)%Z h ->
               chain (compact_step toRight (IZR (Z.min 2 s)) (IZR s)) i
                     (Tile i None ai (posX, posY) (mw, mh) (1, 1) :: h)).
    { intros x y h gap Hh Hg Hxy Hc. destruct h as [|t2 h']; [exact I|].
      split; [|exact Hc].
      exists gap. split; [exact Hg|].
      unfold right_of, below. rewrite (Hh t2 eq_refl).
      cbn [t_pos t_size fst snd]. exact Hxy. }
    destruct toRight; destruct (Z.even i); cbn [andb orb negb];
      match goal with
      | |- context [compact_native_loop fuel (i + 1)%Z numMips ai mipSize ?b
                      _ _ ?x ?y] =>
          destruct (IH (i + 1)%Z x y) as (C & F & H)
      end;
      (split;
       [eapply Hd; [exact H | apply space_bounds | cbn [Bool.eqb];
                    split; reflexivity | exact C]|]);
      (split; [constructor; [cbn; rewrite Em; reflexivity | exact F]|]);
      intros t [= <-]; reflexivity.
Qed.

(** X12. In MipMaps-Compact mode at native size, every tile has the size
    of its own mip level, the first lies at the origin, and the tiles
    alternate direction: with the base no wider than 1.2 times its
    height, the tile after an even level lies to the right and the tile
    after an odd level below (the other way round for a wider base); the
    gap to the next tile is at least [min(2, spacingBetweenMips)] and at
    most [spacingBetweenMips]. *)
Theorem compact_native_size_layout (cfg : settings) :
  IsCubemap (curTex cfg) = false ->
  viewMode cfg = MIPMAPS_COMPACT ->
  viewAtSameSize cfg = false ->
  let texW := fst (GetSize (curTex cfg)) in
  let texH := snd (GetSize (curTex cfg)) in
  let toRight := if Rle_dec (texW / texH) 1.2 then true else false in
  chain (compact_step toRight (IZR (Z.min 2 (spacingBetweenMips cfg)))
                      (IZR (spacingBetweenMips cfg))) 0 (layout cfg) /\
  Forall (fun t => t_size t = GetMipSize (curTex cfg) (t_mip t)) (layout cfg) /\
  (forall t, head (layout cfg) = Some t -> t_pos t = (0, 0)).
Proof.
  intros Hc Hm Hs. cbv zeta. unfold layout.
  destruct (GetSize (curTex cfg)) as [texW texH]. cbn [fst snd].
  rewrite Hc, Hm, Hs.
  match goal with
  | |- context [compact_native_loop ?f ?i ?n ?a ?m ?b _ _ ?x ?y] =>
      destruct (compact_native_loop_chain n a (spacingBetweenMips cfg) m b f i x y)
        as (C & F & H)
  end.
  split; [exact C|]. split; [exact F|].
  intros t Ht. rewrite (H t Ht). f_equal; lra.
Qed.

Lemma compact_native_size_layout_witness :
  Forall (fun t => t_size t = GetMipSize (sample_texture 7%Z 3%Z) (t_mip t))
         (layout (Settings (sample_texture 7%Z 3%Z) (-1) 0 0 [] true
                           MIPMAPS_COMPACT false 2 (2, 2)%Z 0 (-1) (-1))).
Proof.
  apply (compact_native_size_layout
           (Settings (sample_texture 7%Z 3%Z) (-1) 0 0 [] true
                     MIPMAPS_COMPACT false 2 (2, 2)%Z 0 (-1) (-1))).
  - reflexivity.
  - reflexivity.
  - reflexivity.
Defined.

End ModeFacts.

(** ** The cross is an unfolded cube *)

Section SeamFacts.

Import GL Viewer Layout Seams.

#[local] Open Scope R_scope.

(** The coordinates of a whole face, before the rotation. *)
Lemma cube_corner_coords (cfg : settings) (f : CubeFaceIndex) (ai : Z) :
  (0 <= cubeCrossVariant cfg <= 3)%Z ->
  cube_map_coords cfg f ai (1, 1) =
    rotate (rotation_steps f (cubeCrossVariant cfg))
      [face_coord f ai (-1, -1); face_coord f ai (-1, 1);
       face_coord f ai (1, 1); face_coord f ai (1, -1)].
Proof.
  intros Hv. rewrite cube_map_coords_rotated by exact Hv.
  unfold corners. cbn [fst snd List.map].
  replace (2 * 1 - 1) with 1 by lra. reflexivity.
Qed.

(** X13. For a cubemap and every [cubeCrossVariant] in 0..3 the cross is
    seamless: along the middle row each side tile's right edge carries the
    same cube directions as the left edge of the tile to its right (and
    the last one those of the first, closing the ring), the top tile's
    bottom edge those of the top edge of the tile below it, and the bottom
    tile's top edge those of the bottom edge of the tile above it. *)
Theorem cube_cross_seams (cfg : settings) :
  IsCubemap (curTex cfg) = true ->
  (0 <= cubeCrossVariant cfg <= 3)%Z ->
  exists top m0 m1 m2 m3 bottom : tile,
    layout cfg = [top; m0; m1; m2; m3; bottom] /\
    joins_right cfg m0 m1 /\ joins_right cfg m1 m2 /\ joins_right cfg m2 m3 /\
    joins_right cfg m3 m0 /\
    joins_below cfg top m1 /\ joins_below cfg m1 bottom.
Proof.
  intros Hc Hv. rewrite (layout_cubemap cfg Hc).
  unfold cube_cross_tiles. rewrite cross_middle_loop_4.
  do 6 eexists. split; [reflexivity|].
  unfold joins_right, joins_below, coord, quad_of_tile, tile_quad.
  cbn [t_face t_array t_texmax t_pos t_size nth v_tex].
  rewrite !(cube_corner_coords cfg _ _ Hv).
  assert (C : cubeCrossVariant cfg = 0%Z \/ cubeCrossVariant cfg = 1%Z \/
              cubeCrossVariant cfg = 2%Z \/ cubeCrossVariant cfg = 3%Z) by lia.
  destruct C as [-> | [-> | [-> | ->]]].
  all: repeat match goal with
       | |- context [middle_face ?i] =>
           let f := eval vm_compute in (middle_face i) in
           change (middle_face i) with f
       end.
  all: repeat match goal with
       | |- context [rotation_steps ?f ?v] =>
           let n := eval vm_compute in (rotation_steps f v) in
           change (rotation_steps f v) with n
       end.
  all: repeat match goal with
       | |- context [rotate ?n [?a; ?b; ?c; ?d]] =>
           let l := eval cbv [rotate drop take app length Nat.modulo Nat.divmod
                              fst snd Nat.sub] in (rotate n [a; b; c; d]) in
           change (rotate n [a; b; c; d]) with l
       end.
  all: cbn [nth face_coord].
  all: repeat split; f_equal; lra.
Qed.

Lemma cube_cross_seams_witness :
  exists top m0 m1 m2 m3 bottom : tile,
    layout (cross_settings (sample_cubemap 7%Z) 1%Z) =
      [top; m0; m1; m2; m3; bottom] /\
    joins_right (cross_settings (sample_cubemap 7%Z) 1%Z) m0 m1 /\
    joins_right (cross_settings (sample_cubemap 7%Z) 1%Z) m1 m2 /\
    joins_right (cross_settings (sample_cubemap 7%Z) 1%Z) m2 m3 /\
    joins_right (cross_settings (sample_cubemap 7%Z) 1%Z) m3 m0 /\
    joins_below (cross_settings (sample_cubemap 7%Z) 1%Z) top m1 /\
    joins_below (cross_settings (sample_cubemap 7%Z) 1%Z) m1 bottom.
Proof.
  apply (cube_cross_seams (cross_settings (sample_cubemap 7%Z) 1%Z)).
  - reflexivity.
  - cbn. lia.
Defined.

End SeamFacts.

(** ** Mouse and keyboard *)

Section InputFacts.

Import CMath Viewer Zoom Input.

#[local] Open Scope R_scope.

(** The last element of a list that has a head. *)
Lemma last_cons_head {A : Type} (l : list A) :
  forall a d : A, List.last (a :: l) d = List.last l a.
Proof.
  induction l as [|b l IH]; intros a d; [reflexivity|].
  change (List.last (a :: b :: l) d) with (List.last (b :: l) d).
  rewrite (IH b d), (IH b a). reflexivity.
Qed.

(** While the button is held after a drag has started, the pan follows
    the mouse. *)
Lemma held_frames_dragging (fs : list (bool * (R * R))) :
  forall (p : pointer) (w : world),
    dragging p = true ->
    let p' := result (held_frames fs p) w in
    let w' := run (held_frames fs p) w in
    dragging p' = true /\
    lastDragPos p' = last_pos fs (lastDragPos p) /\
    transX w' = transX w + (fst (last_pos fs (lastDragPos p)) - fst (lastDragPos p)) /\
    transY w' = transY w + (snd (last_pos fs (lastDragPos p)) - snd (lastDragPos p)) /\
    zoomLevel w' = zoomLevel w /\ gl w' = gl w /\ stderr w' = stderr w /\
    shaderProgram w' = shaderProgram w.
Proof.
  induction fs as [|[want pos] fs IH]; intros p w Hd; cbv zeta.
  - unfold result, run, last_pos. cbn.
    repeat split; try reflexivity; try lra. exact Hd.
  - unfold result, run in *. cbn [held_frames]. rewrite bind_run.
    assert (S1 : drag_frame true want pos p w =
                 (Pointer true pos,
                  set_zoom (zoomLevel w)
                    (transX w + (fst pos - fst (lastDragPos p)))
                    (transY w + (snd pos - snd (lastDragPos p))) w)).
    { unfold drag_frame. rewrite Hd. reflexivity. }
    rewrite S1. cbn [fst snd].
    match goal with
    | |- context [held_frames fs ?q ?v] =>
        destruct (IH q v eq_refl) as (A & B & C & D & E & F & G & H)
    end.
    cbn [lastDragPos set_zoom transX transY zoomLevel gl stderr shaderProgram]
      in B, C, D, E, F, G, H.
    assert (L : last_pos ((want, pos) :: fs) (lastDragPos p) = last_pos fs pos).
    { unfold last_pos. cbn [List.map snd]. apply last_cons_head. }
    rewrite L.
    split; [exact A|]. split; [exact B|].
    split; [rewrite C; lra|]. split; [rewrite D; lra|].
    split; [exact E|]. split; [exact F|]. split; [exact G | exact H].
Qed.

(** X14. A drag pans by the mouse travel. When the left button goes down
    outside the ImGui windows while no drag is on, that frame starts a
    drag without panning; over the following frames with the button held
    (whether or not ImGui wants the mouse by then) the pan changes by the
    displacement of the mouse since the press, and nothing else of the
    viewer changes; the frame on which the button is up ends the drag
    without panning. A press over an ImGui window starts no drag. *)
Theorem drag_pans_by_mouse_travel (p : pointer) (w : world)
  (start : R * R) (fs : list (bool * (R * R))) :
  dragging p = false ->
  let p1 := result (held_frames ((false, start) :: fs) p) w in
  let w1 := run (held_frames ((false, start) :: fs) p) w in
  (dragging p1 = true /\ lastDragPos p1 = last_pos fs start /\
   transX w1 = transX w + (fst (last_pos fs start) - fst start) /\
   transY w1 = transY w + (snd (last_pos fs start) - snd start) /\
   zoomLevel w1 = zoomLevel w /\ gl w1 = gl w /\ stderr w1 = stderr w /\
   shaderProgram w1 = shaderProgram w) /\
  (forall (want : bool) (pos : R * R),
      dragging (result (drag_frame false want pos p1) w1) = false /\
      run (drag_frame false want pos p1) w1 = w1) /\
  (forall pos : R * R,
      result (drag_frame true true pos p) w = p /\
      run (drag_frame true true pos p) w = w).
Proof.
  intros Hd. cbv zeta.
  assert (E : held_frames ((false, start) :: fs) p w =
              held_frames fs (Pointer true start) w).
  { cbn [held_frames]. rewrite bind_run. unfold drag_frame. rewrite Hd.
    reflexivity. }
  unfold result, run. rewrite E.
  pose proof (held_frames_dragging fs (Pointer true start) w eq_refl) as H.
  cbv zeta in H. unfold result, run in H. cbn [lastDragPos] in H.
  split; [exact H|]. split.
  - intros want pos. destruct H as (A & _).
    unfold drag_frame. rewrite A. split; reflexivity.
  - intros pos. unfold drag_frame. rewrite Hd. split; reflexivity.
Qed.

Lemma drag_pans_by_mouse_travel_witness :
  transX (run (held_frames [(false, (100, 50)); (false, (130, 40)); (true, (90, 70))]
                 (Pointer false (0, 0))) initial_world) = 10 + (90 - 100).
Proof.
  apply (drag_pans_by_mouse_travel (Pointer false (0, 0)) initial_world (100, 50)
           [(false, (130, 40)); (true, (90, 70))]).
  reflexivity.
Defined.



(** X16. The R key resets the view: unless a text field has the input,
    [myGLFWkeyfun] with [GLFW_KEY_R] puts the zoom level and the pan back
    to the values the viewer starts with, whatever scrolling and dragging
    came before, and leaves the rest of the viewer alone; every other key,
    and every key while text is typed, changes nothing. *)
Theorem key_R_resets_view (key : Z) (typing : bool) (w : world) :
  let w' := run (myGLFWkeyfun key typing) w in
  (key = GLFW_KEY_R /\ typing = false ->
   zoomLevel w' = zoomLevel initial_world /\
   transX w' = transX initial_world /\ transY w' = transY initial_world) /\
  (key <> GLFW_KEY_R \/ typing = true -> w' = w) /\
  gl w' = gl w /\ stderr w' = stderr w /\ shaderProgram w' = shaderProgram w /\
  texSampleAndNormalize w' = texSampleAndNormalize w /\ swizzle w' = swizzle w.
Proof.
  cbv zeta. unfold run, myGLFWkeyfun.
  destruct typing.
  - cbn. split; [intros [_ ?]; discriminate|].
    split; [reflexivity|]. repeat split; reflexivity.
  - destruct (Z.eqb_spec key GLFW_KEY_R) as [E|E]; cbn.
    + split; [intros _; repeat split; lra|].
      split; [intros [?|?]; [contradiction | discriminate]|].
      repeat split; reflexivity.
    + split; [intros [? _]; contradiction|].
      split; [reflexivity|]. repeat split; reflexivity.
Qed.

Lemma key_R_resets_view_witness :
  let w' := run (myGLFWkeyfun GLFW_KEY_R false)
              (set_zoom 3.5 (-40) 120 initial_world) in
  zoomLevel w' = zoomLevel initial_world /\
  transX w' = transX initial_world /\ transY w' = transY initial_world.
Proof.
  apply (key_R_resets_view GLFW_KEY_R false (set_zoom 3.5 (-40) 120 initial_world)).
  split; reflexivity.
Defined.

End InputFacts.

(** ** The frame transform *)

Section FrameFacts.

Import CMath Viewer Fit Frame.

#[local] Open Scope R_scope.

Lemma to_int_IZR (k : Z) : to_int (IZR k) = k.
Proof.
  unfold to_int. destruct (Rle_dec 0 (IZR k)).
  - apply Int_part_IZR.
  - rewrite <- opp_IZR, Int_part_IZR. lia.
Qed.

(** The window position of a vertex. *)
Lemma GenericFrame_window_pos (display_w display_h : Z) (sx sy : R)
  (collapsed : bool) (cfg : settings) (w : world) (x y : R) :
  zoomLevel w <> 0 ->
  display_h <> 0%Z ->
  let xOffs := if collapsed then 0 else imGuiMenuWidth cfg * sx in
  let winW := IZR display_w - xOffs in
  winW <> 0 ->
  window_pos (GenericFrame display_w display_h sx sy collapsed cfg w) (x, y) =
    (IZR (to_int xOffs) +
       (zoomLevel w * x + transX w * sx) * (IZR (to_int winW) / winW),
     IZR display_h - (zoomLevel w * y + transY w * sy)).
Proof.
  intros Hz Hh xOffs winW Hw.
  assert (Hh' : IZR display_h <> 0) by (apply not_0_IZR; exact Hh).
  unfold window_pos, GenericFrame, glOrtho, glTranslated, glScaled,
    glLoadIdentity, mult, transform.
  cbn [viewport projection modelview m_sx m_tx m_sy m_ty fst snd].
  replace (if collapsed then 0.0 else imGuiMenuWidth cfg * sx) with xOffs
    by (unfold xOffs; destruct collapsed; [lra | reflexivity]).
  fold winW. f_equal; field; auto.
Qed.

(** With a sidebar offset of a whole number of pixels the viewport is
    the canvas. *)
Lemma GenericFrame_window_pos_whole (display_w display_h k : Z) (sx sy : R)
  (collapsed : bool) (cfg : settings) (w : world) (x y : R) :
  zoomLevel w <> 0 ->
  display_h <> 0%Z ->
  (if collapsed then 0 else imGuiMenuWidth cfg * sx) = IZR k ->
  (display_w - k <> 0)%Z ->
  window_pos (GenericFrame display_w display_h sx sy collapsed cfg w) (x, y) =
    (IZR k + zoomLevel w * x + transX w * sx,
     IZR display_h - (zoomLevel w * y + transY w * sy)).
Proof.
  intros Hz Hh Hk Hw.
  assert (Hw' : IZR (display_w - k) <> 0) by (apply not_0_IZR; exact Hw).
  rewrite GenericFrame_window_pos; try assumption.
  - rewrite Hk, <- minus_IZR, !to_int_IZR. f_equal. field. exact Hw'.
  - rewrite Hk, <- minus_IZR. exact Hw'.
Qed.

(** X17. Where a vertex lands. With a nonzero zoom level and a canvas of
    nonzero width and height, the vertex (x, y) of a quad is shown
    [zoomLevel * y + transY * sy] pixels below the top of the window and
    [(zoomLevel * x + transX * sx) * (vw / winW)] pixels right of the
    viewport's left edge, where [vw] is the viewport width (the canvas
    width [winW] converted to [int]): the pan is in pixels times the
    content scale and does not depend on the zoom level. When the
    sidebar offset is a whole number of pixels, the horizontal position
    is [xOffs + zoomLevel * x + transX * sx]. *)
Theorem GenericFrame_pixel (display_w display_h : Z) (sx sy : R)
  (collapsed : bool) (cfg : settings) (w : world) (x y : R) :
  zoomLevel w <> 0 ->
  display_h <> 0%Z ->
  let xOffs := if collapsed then 0 else imGuiMenuWidth cfg * sx in
  let winW := IZR display_w - xOffs in
  winW <> 0 ->
  let f := GenericFrame display_w display_h sx sy collapsed cfg w in
  window_pos f (x, y) =
    (IZR (to_int xOffs) +
       (zoomLevel w * x + transX w * sx) * (IZR (to_int winW) / winW),
     IZR display_h - (zoomLevel w * y + transY w * sy)) /\
  (forall k : Z, xOffs = IZR k ->
     fst (window_pos f (x, y)) = xOffs + zoomLevel w * x + transX w * sx).
Proof.
  intros Hz Hh xOffs winW Hw f.
  split; [apply GenericFrame_window_pos; assumption|].
  intros k Hk. unfold f.
  rewrite (GenericFrame_window_pos_whole display_w display_h k); try assumption.
  - cbn [fst]. rewrite Hk. reflexivity.
  - intros E. apply Hw. unfold winW. rewrite Hk, <- minus_IZR, E. reflexivity.
Qed.

Lemma GenericFrame_pixel_witness :
  window_pos (GenericFrame 800 600 1 1 true (initial_settings (sample_texture 7%Z 5%Z) "rgba")
                initial_world) (256, 256) =
    (IZR (to_int 0) + (1 * 256 + 10 * 1) * (IZR (to_int (800 - 0)) / (800 - 0)),
     600 - (1 * 256 + 10 * 1)).
Proof.
  apply (GenericFrame_pixel 800 600 1 1 true
           (initial_settings (sample_texture 7%Z 5%Z) "rgba") initial_world 256 256).
  - cbn. lra.
  - lia.
  - lra.
Defined.

(** C8. Zoom-to-fit does not centre. The zoom level is right: the
    example of the specification (200 x 100 in 1000 x 500, no sidebar)
    gives zoom 5 and pan (0, 0). But [ZoomFitToWindow] takes the slack in
    texels ([display_h / zoom - th]) while the frame applies the pan in
    pixels: a 100 x 100 texture in a 300 x 1000 window gets zoom 3 and
    pan (0, 116), so the frame shows it on the rows 116 to 416 of 1000,
    with 116 pixels above it and 584 below; centring it takes a pan of
    350. *)
Theorem ZoomFitToWindow_not_centred :
  ZoomFitToWindow 1000 500 IEEE.fzero (IEEE.float_of_int 200)
                  (IEEE.float_of_int 100) false =
    (IEEE.double_of_int 5, IEEE.dzero, IEEE.dzero) /\
  ZoomFitToWindow 300 1000 IEEE.fzero (IEEE.float_of_int 100)
                  (IEEE.float_of_int 100) false =
    (IEEE.double_of_int 3, IEEE.dzero, IEEE.double_of_int 116) /\
  (let w' := run (ZoomFitToWindow_run 300 1000 IEEE.fzero
                    (IEEE.float_of_int 100) (IEEE.float_of_int 100) false)
                 initial_world in
   let f := fitted_frame 300 1000
              (initial_settings (uniform_texture 7%Z 1%Z 100 100) "rgba")
              IEEE.fzero (IEEE.float_of_int 100) (IEEE.float_of_int 100)
              initial_world in
   zoomLevel w' = 3 /\ transX w' = 0 /\ transY w' = 116 /\
   window_pos f (0, 0) = (0, 1000 - 116) /\
   window_pos f (100, 100) = (300, 1000 - 416)) /\
  centred_pan 1000 3 100 = 350.
Proof.
  split; [exact ZoomFitToWindow_example|].
  split; [exact ZoomFitToWindow_tall_window|].
  assert (Z3 : IEEE.to_R (IEEE.double_of_int 3) = 3).
  { rewrite (to_R_is_ratio _ 3 1); [lra | lia | vm_compute; reflexivity]. }
  assert (Z0 : IEEE.to_R IEEE.dzero = 0) by reflexivity.
  assert (Z116 : IEEE.to_R (IEEE.double_of_int 116) = 116).
  { rewrite (to_R_is_ratio _ 116 1); [lra | lia | vm_compute; reflexivity]. }
  assert (W : run (ZoomFitToWindow_run 300 1000 IEEE.fzero
                     (IEEE.float_of_int 100) (IEEE.float_of_int 100) false)
                  initial_world = set_zoom 3 0 116 initial_world).
  { unfold run, ZoomFitToWindow_run. rewrite ZoomFitToWindow_tall_window.
    cbn [modify snd]. rewrite Z3, Z0, Z116. reflexivity. }
  split.
  - cbv zeta. unfold fitted_frame. rewrite W.
    cbn [set_zoom zoomLevel transX transY].
    split; [reflexivity|]. split; [reflexivity|]. split; [reflexivity|].
    split.
    + rewrite (GenericFrame_window_pos_whole 300 1000 0);
        [| cbn [zoomLevel set_zoom]; lra | lia
         | cbn [imGuiMenuWidth initial_settings]; lra | lia].
      cbn [set_zoom zoomLevel transX transY]. f_equal; lra.
    + rewrite (GenericFrame_window_pos_whole 300 1000 0);
        [| cbn [zoomLevel set_zoom]; lra | lia
         | cbn [imGuiMenuWidth initial_settings]; lra | lia].
      cbn [set_zoom zoomLevel transX transY]. f_equal; lra.
  - unfold centred_pan.
    replace (0.5 * (1000 - 3 * 100)) with (IZR 350) by lra.
    apply floor_IZR.
Qed.

End FrameFacts.

(** ** The stops of the zoom wheel *)

Section StopFacts.

Import CMath Zoom Stops.

#[local] Open Scope R_scope.

Lemma up_eighth (n : Z) :
  (1 <= n <= 7)%Z ->
  CalcZoomLevel (IZR n * 0.125) true = IZR (n + 1) * 0.125.
Proof.
  intros [Hlo Hhi]. apply IZR_le in Hlo, Hhi.
  unfold CalcZoomLevel.
  rewrite (proj1 (proj2 (proj2 (zoom_step_cases _)))) by lra.
  replace (IZR n * 0.125 + 0.125) with (IZR (n + 1) * 0.125)
    by (rewrite plus_IZR; lra).
  apply zoom_snap_eighth. split; [apply le_IZR | apply le_IZR]; rewrite plus_IZR; lra.
Qed.

Lemma down_eighth (n : Z) :
  (2 <= n <= 8)%Z ->
  CalcZoomLevel (IZR n * 0.125) false = IZR (n - 1) * 0.125.
Proof.
  intros [Hlo Hhi]. pose proof (IZR_le _ _ Hlo) as Rlo.
  pose proof (IZR_le _ _ Hhi) as Rhi.
  unfold CalcZoomLevel.
  rewrite (proj1 (proj2 (proj2 (proj2 (proj2 (proj2 (proj2 (zoom_step_cases _))))))))
    by lra.
  replace (IZR n * 0.125 - 0.125) with (IZR (n - 1) * 0.125)
    by (rewrite minus_IZR; lra).
  destruct (Z.eq_dec n 2%Z) as [->|Hne].
  - apply (proj2 (proj2 (zoom_snap_bounds _))).
    change (2 - 1)%Z with 1%Z. lra.
  - apply zoom_snap_eighth. lia.
Qed.

Lemma zoom_snap_quarter (n : Z) :
  (4 <= n <= 8)%Z -> zoom_snap (IZR n * 0.25) = IZR n * 0.25.
Proof.
  intros Hn.
  assert (C : n = 4%Z \/ n = 5%Z \/ n = 6%Z \/ n = 7%Z \/ n = 8%Z) by lia.
  destruct C as [-> | [-> | [-> | [-> | ->]]]].
  - replace (4 * 0.25) with (IZR 2 * 0.5) by lra. apply zoom_snap_half. lia.
  - unfold zoom_snap, round, fabs, CMath.min.
    destruct (Rge_dec (5 * 0.25) 1.0); [|lra].
    destruct (Rle_dec 0 (5 * 0.25 * 2.0)); [|lra].
    replace (5 * 0.25 * 2.0 + / 2) with (IZR 3) by lra.
    rewrite Int_part_IZR.
    replace (3 * 0.5 - 5 * 0.25) with 0.25 by lra.
    rewrite Rabs_pos_eq by lra.
    destruct (Rlt_dec _ _); destruct (Rle_dec _ _); try reflexivity; lra.
  - replace (6 * 0.25) with (IZR 3 * 0.5) by lra. apply zoom_snap_half. lia.
  - unfold zoom_snap, round, fabs, CMath.min.
    destruct (Rge_dec (7 * 0.25) 1.0); [|lra].
    destruct (Rle_dec 0 (7 * 0.25 * 2.0)); [|lra].
    replace (7 * 0.25 * 2.0 + / 2) with (IZR 4) by lra.
    rewrite Int_part_IZR.
    replace (4 * 0.5 - 7 * 0.25) with 0.25 by lra.
    rewrite Rabs_pos_eq by lra.
    destruct (Rlt_dec _ _); destruct (Rle_dec _ _); try reflexivity; lra.
  - replace (8 * 0.25) with (IZR 4 * 0.5) by lra. apply zoom_snap_half. lia.
Qed.

Lemma up_quarter (n : Z) :
  (4 <= n <= 7)%Z ->
  CalcZoomLevel (IZR n * 0.25) true = IZR (n + 1) * 0.25.
Proof.
  intros [Hlo Hhi]. pose proof (IZR_le _ _ Hlo) as Rlo.
  pose proof (IZR_le _ _ Hhi) as Rhi.
  unfold CalcZoomLevel.
  rewrite (proj1 (proj2 (zoom_step_cases _))) by lra.
  replace (IZR n * 0.25 + 0.25) with (IZR (n + 1) * 0.25)
    by (rewrite plus_IZR; lra).
  apply zoom_snap_quarter. lia.
Qed.

Lemma down_quarter (n : Z) :
  (5 <= n <= 8)%Z ->
  CalcZoomLevel (IZR n * 0.25) false = IZR (n - 1) * 0.25.
Proof.
  intros [Hlo Hhi]. pose proof (IZR_le _ _ Hlo) as Rlo.
  pose proof (IZR_le _ _ Hhi) as Rhi.
  unfold CalcZoomLevel.
  rewrite (proj1 (proj2 (proj2 (proj2 (proj2 (proj2 (zoom_step_cases _)))))))
    by lra.
  replace (IZR n * 0.25 - 0.25) with (IZR (n - 1) * 0.25)
    by (rewrite minus_IZR; lra).
  apply zoom_snap_quarter. lia.
Qed.

Lemma up_half (n : Z) :
  (4 <= n)%Z -> CalcZoomLevel (IZR n * 0.5) true = IZR (n + 1) * 0.5.
Proof.
  intros Hlo. pose proof (IZR_le _ _ Hlo) as Rlo.
  unfold CalcZoomLevel.
  rewrite (proj1 (zoom_step_cases _)) by lra.
  replace (IZR n * 0.5 + 0.5) with (IZR (n + 1) * 0.5)
    by (rewrite plus_IZR; lra).
  apply zoom_snap_half. lia.
Qed.

Lemma down_half (n : Z) :
  (5 <= n)%Z -> CalcZoomLevel (IZR n * 0.5) false = IZR (n - 1) * 0.5.
Proof.
  intros Hlo. pose proof (IZR_le _ _ Hlo) as Rlo.
  unfold CalcZoomLevel.
  rewrite (proj1 (proj2 (proj2 (proj2 (proj2 (zoom_step_cases _)))))) by lra.
  replace (IZR n * 0.5 - 0.5) with (IZR (n - 1) * 0.5)
    by (rewrite minus_IZR; lra).
  apply zoom_snap_half. lia.
Qed.

Lemma down_up_smallest :
  CalcZoomLevel (CalcZoomLevel 0.125 false) true = 0.125.
Proof.
  pose proof sqrt2_gt_1 as S1. pose proof sqrt2_lt_2 as S2.
  assert (Hs : 0 < / sqrt 2) by (apply Rinv_0_lt_compat; lra).
  assert (Hi : / sqrt 2 < 1).
  { rewrite <- Rinv_1. apply Rinv_lt_contravar; lra. }
  assert (E : CalcZoomLevel 0.125 false = 0.125 / sqrt 2).
  { unfold CalcZoomLevel.
    rewrite (proj2 (proj2 (proj2 (proj2 (proj2 (proj2 (proj2 (zoom_step_cases _))))))))
      by lra.
    apply (proj2 (proj2 (zoom_snap_bounds _))). unfold Rdiv. nra. }
  rewrite E. unfold CalcZoomLevel.
  rewrite (proj1 (proj2 (proj2 (proj2 (zoom_step_cases _)))))
    by (unfold Rdiv; nra).
  replace (0.125 / sqrt 2 * sqrt 2) with 0.125 by (field; lra).
  apply (proj2 (proj2 (zoom_snap_bounds _))). lra.
Qed.

(** X19. On its stops the wheel is reversible. From a stop (an eighth up
    to 1, a quarter from 1 to 2, a half from 2 on; the start value 1.0 is
    one), one tick up leads to the next stop, one tick up and one tick
    down lead back to the same zoom level, and so do one tick down and
    one tick up. *)
Theorem zoom_stops_round_trip (z : R) :
  stop z ->
  stop (CalcZoomLevel z true) /\
  CalcZoomLevel (CalcZoomLevel z true) false = z /\
  CalcZoomLevel (CalcZoomLevel z false) true = z.
Proof.
  assert (Half : forall n : Z, (4 <= n)%Z ->
            stop (CalcZoomLevel (IZR n * 0.5) true) /\
            CalcZoomLevel (CalcZoomLevel (IZR n * 0.5) true) false = IZR n * 0.5 /\
            CalcZoomLevel (CalcZoomLevel (IZR n * 0.5) false) true = IZR n * 0.5).
  { intros n Hn. rewrite up_half by lia.
    split; [right; right; exists (n + 1)%Z; split; [lia | reflexivity]|].
    split.
    - rewrite down_half by lia. replace (n + 1 - 1)%Z with n by lia. reflexivity.
    - destruct (Z.eq_dec n 4%Z) as [->|Hne].
      + replace (4 * 0.5) with (IZR 8 * 0.25) by lra.
        rewrite down_quarter by lia. change (8 - 1)%Z with 7%Z.
        rewrite up_quarter by lia. reflexivity.
      + rewrite down_half by lia. rewrite up_half by lia.
        replace (n - 1 + 1)%Z with n by lia. reflexivity. }
  assert (Quarter : forall n : Z, (4 <= n <= 8)%Z ->
            stop (CalcZoomLevel (IZR n * 0.25) true) /\
            CalcZoomLevel (CalcZoomLevel (IZR n * 0.25) true) false = IZR n * 0.25 /\
            CalcZoomLevel (CalcZoomLevel (IZR n * 0.25) false) true = IZR n * 0.25).
  { intros n Hn. destruct (Z.eq_dec n 8%Z) as [->|Hne].
    { replace (8 * 0.25) with (IZR 4 * 0.5) by lra. apply Half. lia. }
    rewrite up_quarter by lia.
    split; [right; left; exists (n + 1)%Z; split; [lia | reflexivity]|].
    split.
    - rewrite down_quarter by lia. replace (n + 1 - 1)%Z with n by lia.
      reflexivity.
    - destruct (Z.eq_dec n 4%Z) as [->|Hne4].
      + replace (4 * 0.25) with (IZR 8 * 0.125) by lra.
        rewrite down_eighth by lia. change (8 - 1)%Z with 7%Z.
        rewrite up_eighth by lia. reflexivity.
      + rewrite down_quarter by lia. rewrite up_quarter by lia.
        replace (n - 1 + 1)%Z with n by lia. reflexivity. }
  intros [(n & Hn & ->) | [(n & Hn & ->) | (n & Hn & ->)]].
  - destruct (Z.eq_dec n 8%Z) as [->|Hne].
    { replace (8 * 0.125) with (IZR 4 * 0.25) by lra. apply Quarter. lia. }
    rewrite up_eighth by lia.
    split; [left; exists (n + 1)%Z; split; [lia | reflexivity]|].
    split.
    + rewrite down_eighth by lia. replace (n + 1 - 1)%Z with n by lia.
      reflexivity.
    + destruct (Z.eq_dec n 1%Z) as [->|Hne1].
      * replace (1 * 0.125) with 0.125 by lra. apply down_up_smallest.
      * rewrite down_eighth by lia. rewrite up_eighth by lia.
        replace (n - 1 + 1)%Z with n by lia. reflexivity.
  - apply Quarter. exact Hn.
  - apply Half. exact Hn.
Qed.

Lemma zoom_stops_round_trip_witness :
  stop (CalcZoomLevel 1 true) /\
  CalcZoomLevel (CalcZoomLevel 1 true) false = 1 /\
  CalcZoomLevel (CalcZoomLevel 1 false) true = 1.
Proof.
  apply (zoom_stops_round_trip 1).
  left. exists 8%Z. split; [lia | lra].
Defined.

End StopFacts.

(** ** What a shader rebuild leaves behind *)

Ltac nonempty_log :=
  let H := fresh "H" in
  intros _ H; cbn [app] in H;
  repeat match type of H with
         | _ ++ _ = [] => apply app_eq_nil in H as [_ H]
         end;
  unfold Rebuild.link_report, Rebuild.compile_report in H;
  first [discriminate H
        | destruct (GL.program_available _); discriminate H].

Section RebuildFacts.

Import Str GL Viewer Shader Rebuild.

Variable d : driver.
Variable cfg : settings.

(** [CompileShader] with its report. *)
Lemma CompileShader_report (ty : GLenum) (src : list string) (w : world) :
  CompileShader d ty src w =
    if compiles d ty src
    then (next_name (gl w),
          with_gl (with_shaders (<[next_name (gl w) := src]> (shaders (gl w)))
                                (gl w)) [] w)
    else (0, with_gl (with_shaders (delete (next_name (gl w)) (shaders (gl w)))
                                   (gl w)) (compile_report d ty src) w).
Proof.
  unfold CompileShader, compile_report.
  destruct (compiles d ty src) eqn:E.
  - run_m. unfold with_gl, with_shaders.
    rewrite insert_insert_eq, app_nil_r. reflexivity.
  - run_m. rewrite print_parts_run. run_m.
    unfold with_gl, with_shaders.
    rewrite insert_insert_eq, delete_insert_eq.
    rewrite <- !app_assoc. reflexivity.
Qed.

(** [CreateShaderProgram] with its report. *)
Lemma CreateShaderProgram_report (s0 s1 : GLuint) (w : world) :
  0 < next_name (gl w) ->
  CreateShaderProgram d s0 s1 w =
    let srcs := [default [] (shaders (gl w) !! s0);
                 default [] (shaders (gl w) !! s1)] in
    if program_available d then
      if links d srcs
      then (next_name (gl w),
            with_gl (with_programs
                       (<[next_name (gl w) := ProgramObj [s0; s1]]>
                          (programs (gl w))) (gl w)) [] w)
      else (0, with_gl (with_programs
                          (delete (next_name (gl w)) (programs (gl w)))
                          (gl w)) (link_report d srcs) w)
    else (0, with_gl (gl w) (link_report d srcs) w).
Proof.
  intros Hpos. unfold CreateShaderProgram, link_report. run_m.
  destruct (program_available d).
  - cbn [fst snd]. unfold attached_sources. run_m.
    destruct (Z.eqb_spec (next_name (gl w)) 0) as [E|E]; [lia|]. run_m.
    rewrite !alter_insert_eq, lookup_insert_eq. cbn [attached app map].
    destruct (links d _).
    + run_m. unfold with_gl, with_programs.
      rewrite app_nil_r. reflexivity.
    + run_m. unfold with_gl, with_programs.
      rewrite !alter_delete_eq, delete_insert_eq. reflexivity.
  - cbn [fst snd]. rewrite Z.eqb_refl. run_m.
    unfold with_gl. destruct w as [[] ? ? ? ? ? ? ?]. reflexivity.
Qed.

(** The state before the fragment stage is compiled. *)
Lemma staged_run (w0 : world) :
  snd (when (useSimpleSwizzle cfg)
         (let '(text, warnings) :=
            Swizzle.SetSwizzleFromSimple (simpleSwizzle cfg) in
          modify (set_swizzle text);;
          modify (set_stderr (fun l => l ++ warnings)))
         (snd (modify
                 (set_texSampleAndNormalize
                    (sampleAndNormalize (texture_shader_text (curTex cfg))))
                 w0))) = staged cfg w0.
Proof.
  unfold staged, swizzle_warnings, swizzle_text.
  destruct (Swizzle.SetSwizzleFromSimple (simpleSwizzle cfg)) as [text warn].
  destruct (useSimpleSwizzle cfg); run_m; [reflexivity|].
  rewrite app_nil_r. reflexivity.
Qed.

(** Deleting two fresh shader objects gives back the old table. *)
Lemma shaders_restored (sh : gmap GLuint (list string)) (n : GLuint)
  (a b : list string) :
  sh !! n = None -> sh !! (n + 1) = None ->
  delete (n + 1) (delete n (<[n + 1 := b]> (<[n := a]> sh))) = sh /\
  delete n (delete (n + 1) (<[n := a]> sh)) = sh.
Proof.
  intros Hn Hn1. split.
  - rewrite (delete_insert_ne _ n (n + 1)) by lia.
    rewrite delete_insert_eq, delete_insert_eq.
    rewrite (delete_id _ n) by exact Hn.
    apply delete_id. exact Hn1.
  - rewrite (delete_insert_ne _ (n + 1) n) by lia.
    rewrite delete_insert_eq.
    rewrite (delete_id _ (n + 1)) by exact Hn1.
    apply delete_id. exact Hn.
Qed.

(** X20. A shader rebuild cleans up after itself. Whatever the outcome
    of [UpdateShaders], the table of shader objects is what it was (both
    shader objects are deleted again), and texture bindings, texture
    parameters, drawn quads, capabilities, zoom and pan are untouched. A
    failed rebuild always prints something; a successful one prints
    nothing but the swizzle warnings. Unless the vertex stage fails, the
    sample statement and the swizzle the GLSL editor shows are the ones
    of this rebuild, even when the rebuild fails later. *)
Theorem UpdateShaders_cleanup (w : world) :
  0 < next_name (gl w) ->
  shaders_fresh w ->
  let ok := result (UpdateShaders d cfg) w in
  let w' := run (UpdateShaders d cfg) w in
  shaders (gl w') = shaders (gl w) /\
  untouched w w' /\
  (exists log : list string,
      stderr w' = stderr w ++ log /\
      (ok = false -> log <> []) /\
      (ok = true -> log = swizzle_warnings cfg)) /\
  (if vertex_ok d
   then texSampleAndNormalize w' =
          sampleAndNormalize (texture_shader_text (curTex cfg)) /\
        swizzle w' = swizzle_text cfg w
   else texSampleAndNormalize w' = texSampleAndNormalize w /\
        swizzle w' = swizzle w).
Proof.
  intros Hpos Hfresh.
  assert (Hn : shaders (gl w) !! next_name (gl w) = None).
  { apply eq_None_not_Some. intros Hs. apply Hfresh in Hs. lia. }
  assert (Hn1 : shaders (gl w) !! (next_name (gl w) + 1) = None).
  { apply eq_None_not_Some. intros Hs. apply Hfresh in Hs. lia. }
  unfold result, run.
  destruct (UpdateShaders d cfg w) as [ok w'] eqn:E. cbn [fst snd].
  unfold UpdateShaders in E. unfold vertex_ok.
  set (vs := [("#version 150 compatibility" ++ nl)%string; vertexShaderSrc]) in *.
  rewrite bind_run, CompileShader_report in E.
  destruct (compiles d GL_VERTEX_SHADER vs).
  2:{ cbn [fst snd] in E. rewrite Z.eqb_refl in E. injection E as <- <-.
      unfold untouched. cbn.
      split; [apply delete_id; exact Hn|].
      split; [repeat split; reflexivity|].
      split; [|split; reflexivity].
      eexists. split; [reflexivity|].
      split; [nonempty_log | discriminate]. }
  cbn [fst snd] in E.
  destruct (Z.eqb_spec (next_name (gl w)) 0) as [|_]; [lia|].
  do 3 rewrite bind_run in E.
  rewrite staged_run in E.
  set (w1 := staged cfg _) in E.
  change (fst (get w1)) with w1 in E. change (snd (get w1)) with w1 in E.
  assert (Hfs : [glslVersion (texture_shader_text (curTex cfg));
                 samplerUniform (texture_shader_text (curTex cfg));
                 fragShaderStart; texSampleAndNormalize w1; swizzle w1;
                 fragShaderEnd] = fragment_source cfg w) by reflexivity.
  rewrite Hfs in E. clear Hfs.
  set (fs := fragment_source cfg w) in *.
  subst w1.
  rewrite bind_run, CompileShader_report in E.
  cbn [staged gl with_gl with_shaders next_name shaders] in E.
  destruct (compiles d GL_FRAGMENT_SHADER fs).
  2:{ cbn [fst snd] in E. rewrite Z.eqb_refl in E. run_m_in E.
      injection E as <- <-. unfold untouched. cbn.
      split; [apply shaders_restored; assumption|].
      split; [repeat split; reflexivity|].
      split; [|split; reflexivity].
      eexists. split; [rewrite <- !app_assoc; reflexivity|].
      split; [nonempty_log | discriminate]. }
  cbn [fst snd] in E.
  destruct (Z.eqb_spec (next_name (gl w) + 1) 0) as [|_]; [lia|].
  rewrite bind_run in E.
  rewrite CreateShaderProgram_report in E by (cbn; lia).
  cbn [gl with_gl with_shaders with_programs next_name shaders programs] in E.
  cbv zeta in E.
  destruct (program_available d) eqn:Ea.
  2:{ run_m_in E. injection E as <- <-. unfold untouched. cbn.
      split; [apply shaders_restored; assumption|].
      split; [repeat split; reflexivity|].
      split; [|split; reflexivity].
      eexists. split; [rewrite <- !app_assoc; reflexivity|].
      split; [nonempty_log | discriminate]. }
  destruct (links d _) eqn:El.
  2:{ run_m_in E. injection E as <- <-. unfold untouched. cbn.
      split; [apply shaders_restored; assumption|].
      split; [repeat split; reflexivity|].
      split; [|split; reflexivity].
      eexists. split; [rewrite <- !app_assoc; reflexivity|].
      split; [nonempty_log | discriminate]. }
  cbn [fst snd] in E.
  destruct (Z.eqb_spec (next_name (gl w) + 1 + 1) 0) as [|_]; [lia|].
  run_m_in E.
  destruct (shaderProgram w =? 0); injection E as <- <-; unfold untouched; cbn.
  all: split; [apply shaders_restored; assumption|].
  all: split; [repeat split; reflexivity|].
  all: split; [|split; reflexivity].
  all: eexists; split; [rewrite <- !app_assoc; reflexivity|].
  all: split; [discriminate|]; intros _; cbn [app]; rewrite !app_nil_r; reflexivity.
Qed.

End RebuildFacts.

Lemma UpdateShaders_cleanup_witness :
  GL.shaders
    (Viewer.gl
       (Viewer.run (Shader.UpdateShaders Shader.fragment_rejecting_driver
                      (Viewer.initial_settings (Viewer.sample_texture 7 5) "rgba"))
                   Viewer.initial_world)) =
    GL.shaders (Viewer.gl Viewer.initial_world).
Proof.
  apply (UpdateShaders_cleanup Shader.fragment_rejecting_driver
           (Viewer.initial_settings (Viewer.sample_texture 7 5) "rgba")
           Viewer.initial_world).
  - reflexivity.
  - intros k H. cbn in H. apply lookup_empty_is_Some in H. destruct H.
Defined.
